(** * crawler_to_md: a shallow embedding of [src/crawler_to_md.py]

    The script fetches one web page, localises its images and converts the
    main content to Markdown.  Python strings are modelled as lists of code
    points, Python exceptions as an error result, and the file system, the
    network log and the standard output as an explicit world that is threaded
    through every effectful function. *)

From Stdlib Require Import String Ascii NArith ZArith List Lia Bool.
From Stdlib Require Import DecimalString.
From stdpp Require Import base option list gmap.

Set Warnings "-register-all".

Local Open Scope N_scope.
Local Open Scope nat_scope.

(** ** Python strings *)

(** A Python [str] is a sequence of Unicode code points. *)
Abbreviation pystr := (list N).

(** A string literal of the source, as code points. *)
Definition str (s : string) : pystr := map N_of_ascii (list_ascii_of_string s).
Arguments str : simpl never.

Module PyStr.

Definition LF : N := 10%N.
Definition CR : N := 13%N.
Definition TAB : N := 9%N.
Definition SPACE : N := 32%N.
Definition UNDERSCORE : N := 95%N.

(** [str.isspace] on one code point, which is also what [\s] matches in a
    [str] pattern of [re] and what [str.strip()] removes. *)
Definition isspace (c : N) : bool :=
  ((9 <=? c) && (c <=? 13) || (28 <=? c) && (c <=? 32) || (c =? 133)
   || (c =? 160) || (c =? 5760) || (8192 <=? c) && (c <=? 8202)
   || (c =? 8232) || (c =? 8233) || (c =? 8239) || (c =? 8287)
   || (c =? 12288))%N.

(** [s.replace(old, new)] for one-character [old] and [new]. *)
Definition replace (old new : N) (s : pystr) : pystr :=
  map (fun c => if (c =? old)%N then new else c) s.

(** [re.sub('[cs]', new, s)]: every character of the class becomes [new]. *)
Definition sub_class (cs : list N) (new : N) (s : pystr) : pystr :=
  map (fun c => if existsb (N.eqb c) cs then new else c) s.

(** [re.sub(r'\s+', ' ', s)]: every maximal run of white space becomes one
    space.  [in_run] says that the previous character was white space. *)
Fixpoint sub_spaces_from (in_run : bool) (s : pystr) : pystr :=
  match s with
  | [] => []
  | c :: r =>
      if isspace c
      then (if in_run then sub_spaces_from true r
            else SPACE :: sub_spaces_from true r)
      else c :: sub_spaces_from false r
  end.

Definition sub_spaces (s : pystr) : pystr := sub_spaces_from false s.

Fixpoint lstrip (s : pystr) : pystr :=
  match s with
  | [] => []
  | c :: r => if isspace c then lstrip r else s
  end.

Definition rstrip (s : pystr) : pystr := rev (lstrip (rev s)).

Definition strip (s : pystr) : pystr := rstrip (lstrip s).

(** [s.startswith(p)] *)
Fixpoint startswith (s p : pystr) : bool :=
  match p, s with
  | [], _ => true
  | _ :: _, [] => false
  | a :: p', b :: s' => (a =? b)%N && startswith s' p'
  end.

(** [s.endswith(p)] *)
Definition endswith (s p : pystr) : bool := startswith (rev s) (rev p).

(** Truthiness of a string: [bool(s)]. *)
Definition nonempty (s : pystr) : bool :=
  match s with [] => false | _ :: _ => true end.

End PyStr.

(** ** [sanitize_filename] *)

(** The character class of the pattern [invalid_chars] of the source:
    backslash, slash, star, question mark, colon, double quote, less,
    greater, bar. *)
Definition invalid_chars : list N :=
  [92; 47; 42; 63; 58; 34; 60; 62; 124]%N.

Definition untitled : pystr := str "untitled".

(** The statements of [sanitize_filename] between the [None] test and the
    emptiness test. *)
Definition sanitize_steps (filename : pystr) : pystr :=
  let filename :=
    PyStr.replace PyStr.TAB PyStr.SPACE
      (PyStr.replace PyStr.CR PyStr.SPACE
         (PyStr.replace PyStr.LF PyStr.SPACE filename)) in
  let sanitized := PyStr.sub_class invalid_chars PyStr.UNDERSCORE filename in
  let sanitized := PyStr.sub_spaces sanitized in
  let sanitized :=
    if 100 <? length sanitized then firstn 97 sanitized ++ str "..."
    else sanitized in
  PyStr.strip sanitized.

Definition sanitize_filename (filename : option pystr) : pystr :=
  match filename with
  | None => untitled
  | Some filename =>
      let sanitized := sanitize_steps filename in
      if PyStr.nonempty sanitized then sanitized else untitled
  end.


(** ** Exceptions, the world and the monad of effectful code *)

(** A Python exception, with the text [str(e)] that the handlers print.
    [Exception] is an instance of the class [Exception], which the two
    handlers of the script catch; [BaseException] is an exception outside
    that class ([KeyboardInterrupt], [SystemExit]), which they let
    through.  An error of the operating system or of the network, whose
    text depends on the platform, carries the name of its class. *)
Inductive exn :=
| Exception (message : pystr)
| BaseException (message : pystr).

(** [str(e)] *)
Definition exn_str (e : exn) : pystr :=
  match e with
  | Exception message => message
  | BaseException message => message
  end.

(** [isinstance(e, Exception)] *)
Definition is_exception (e : exn) : bool :=
  match e with
  | Exception _ => true
  | BaseException _ => false
  end.

Inductive result (A : Type) :=
| Ok (a : A)
| Raise (e : exn).
Arguments Ok {A} a.
Arguments Raise {A} e.

(** What sits at a path of the file system. *)
Inductive fs_entry :=
| File (content : list Byte.byte)
| Dir.

(** The lines the script prints, one constructor for each [print] call of
    the functions modelled here, with the values its f-string
    interpolates. *)
Inductive msg :=
| MsgSkip (img_url ext : pystr)
| MsgDownloaded (img_url img_path : pystr)
| MsgBadStatus (img_url : pystr) (status_code : Z)
| MsgDownloadError (img_url : pystr) (e : exn)
| MsgFetchError (url : pystr) (status_code : Z)
| MsgPageError (e : exn).

(** [str(n)] for an integer. *)
Definition int_str (n : Z) : pystr := str (NilZero.string_of_int (Z.to_int n)).

(** The text of a line: the f-strings of lines 63, 104, 106, 111, 188 and
    247, their Chinese words as code points. *)
Definition msg_text (m : msg) : pystr :=
  match m with
  | MsgSkip img_url ext =>
      [36339; 36807; 19979; 36733]%N ++ str ": " ++ img_url ++ str " ("
      ++ [24573; 30053; 30340; 26684; 24335]%N ++ str ": " ++ ext ++ str ")"
  | MsgDownloaded img_url img_path =>
      [19979; 36733; 22270; 29255]%N ++ str ": " ++ img_url ++ str " -> "
      ++ img_path
  | MsgBadStatus img_url status_code =>
      [26080; 27861; 19979; 36733; 22270; 29255]%N ++ str " " ++ img_url
      ++ str ", " ++ [29366; 24577; 30721]%N ++ str ": "
      ++ int_str status_code
  | MsgDownloadError img_url e =>
      [19979; 36733; 22270; 29255; 26102; 20986; 38169]%N ++ str " "
      ++ img_url ++ str ": " ++ exn_str e
  | MsgFetchError url status_code =>
      str "Error fetching " ++ url ++ str ": " ++ int_str status_code
  | MsgPageError e =>
      [22788; 29702; 32593; 39029; 26102; 20986; 38169]%N ++ str ": "
      ++ exn_str e
  end.
Arguments msg_text : simpl never.

(** The state outside the interpreter.  [requests] lists the URLs passed to
    [requests.get], oldest first; [stdout] lists the lines that were
    printed.  [calls] is a ghost field: it lists the [img_url] argument of
    every entry into [download_image]. *)
Record World := mkWorld {
  fs : gmap pystr fs_entry;
  requests : list pystr;
  stdout : list msg;
  calls : list pystr
}.

Definition M (A : Type) : Type := World -> result A * World.

Definition ret {A} (a : A) : M A := fun w => (Ok a, w).

Definition raise {A} (e : exn) : M A := fun w => (Raise e, w).

Definition bind {A B} (m : M A) (k : A -> M B) : M B :=
  fun w => match m w with
           | (Ok a, w') => k a w'
           | (Raise e, w') => (Raise e, w')
           end.

Notation "x <- m ; k" := (bind m (fun x => k))
  (at level 20, m at level 100, k at level 200, only parsing).

(** [try: m except Exception as e: h e].  What the handler raises, and
    what is not an [Exception], leaves the statement. *)
Definition try_except {A} (m : M A) (h : exn -> M A) : M A :=
  fun w => match m w with
           | (Ok a, w') => (Ok a, w')
           | (Raise e, w') => if is_exception e then h e w' else (Raise e, w')
           end.

(** A library call that returns or raises and touches nothing. *)
Definition lift {A} (r : result A) : M A := fun w => (r, w).

Definition log_call (img_url : pystr) : M unit :=
  fun w => (Ok tt, mkWorld (fs w) (requests w) (stdout w) (calls w ++ [img_url])).

(** ** The page tree *)

(** A node of the tree [BeautifulSoup] builds: a string, or a tag with its
    attribute dictionary and its contents.  The soup itself is the tag
    [[document]]. *)
Inductive node :=
| Text (s : pystr)
| Element (tag : pystr) (attrs : gmap pystr pystr) (children : list node).

(** A response of [requests.get]: its status, the chunks [iter_content]
    yields, and the exception that ends the stream early, if any. *)
Record response := mkResponse {
  status_code : Z;
  chunks : list (list Byte.byte);
  stream_error : option exn
}.

(** ** The environment: libraries, network and operating system

    Everything the script calls and does not define.  A library function that
    can raise returns a [result].  [http_get] answers a request from the
    requests issued before it, so the network may answer the same URL
    differently over time; the directory and file oracles say which paths the
    operating system refuses, and stay fixed during a run.  [write_error]
    says whether the write of a chunk to the file at a path raises, from
    what the file holds already; the chunk is not written then.
    [print_error] says which texts the standard output refuses: [print]
    encodes the text for [sys.stdout], and what cannot be encoded raises
    [UnicodeEncodeError]. *)
Class Env := {
  str_lower : pystr -> pystr;
  urlparse_path : pystr -> result pystr;
  urljoin : pystr -> pystr -> result pystr;
  md5_hexdigest : pystr -> result pystr;
  splitext_ext : pystr -> pystr;
  path_join : pystr -> pystr -> pystr;
  dirname : pystr -> pystr;
  relpath : pystr -> pystr -> result pystr;
  strftime_now : pystr;
  http_get : list pystr -> pystr -> result response;
  makedirs_error : pystr -> option exn;
  open_error : pystr -> option exn;
  write_error : pystr -> list Byte.byte -> list Byte.byte -> option exn;
  print_error : pystr -> option exn;
  parse_html : list Byte.byte -> result node;
  markdownify : node -> result pystr
}.

Section Program.

Context {E : Env}.

(** *** Standard output, file system and network primitives *)

(** [print(text)]: the line is written, or the exception of the encoder
    is raised and nothing is written. *)
Definition print (m : msg) : M unit :=
  fun w =>
    match print_error (msg_text m) with
    | Some e => (Raise e, w)
    | None =>
        (Ok tt, mkWorld (fs w) (requests w) (stdout w ++ [m]) (calls w))
    end.

(** [os.path.exists(p)] *)
Definition path_exists (p : pystr) : M bool :=
  fun w => (Ok (bool_decide (is_Some (fs w !! p))), w).

(** [os.makedirs(p, exist_ok=True)].  Intermediate directories are not
    recorded. *)
Definition makedirs (p : pystr) : M unit :=
  fun w =>
    match fs w !! p with
    | Some Dir => (Ok tt, w)
    | Some (File _) => (Raise (Exception (str "FileExistsError")), w)
    | None =>
        match makedirs_error p with
        | Some e => (Raise e, w)
        | None =>
            (Ok tt, mkWorld (<[p := Dir]> (fs w)) (requests w) (stdout w) (calls w))
        end
    end.

(** [open(p, 'wb')]: creates or truncates the file. *)
Definition open_wb (p : pystr) : M unit :=
  fun w =>
    match fs w !! p with
    | Some Dir => (Raise (Exception (str "IsADirectoryError")), w)
    | _ =>
        match open_error p with
        | Some e => (Raise e, w)
        | None =>
            (Ok tt, mkWorld (<[p := File []]> (fs w)) (requests w) (stdout w) (calls w))
        end
    end.

(** [f.write(chunk)] on the file opened at [p]: the chunk is appended, or
    the write raises and the file stays as it is. *)
Definition write_chunk (p : pystr) (chunk : list Byte.byte) : M unit :=
  fun w =>
    match fs w !! p with
    | Some (File content) =>
        match write_error p content chunk with
        | Some e => (Raise e, w)
        | None =>
            (Ok tt, mkWorld (<[p := File (content ++ chunk)]> (fs w)) (requests w) (stdout w) (calls w))
        end
    | _ => (Ok tt, w)
    end.

(** [for chunk in response.iter_content(1024): f.write(chunk)] *)
Fixpoint write_chunks (p : pystr) (cs : list (list Byte.byte)) : M unit :=
  match cs with
  | [] => ret tt
  | c :: cs' => _ <- write_chunk p c ; write_chunks p cs'
  end.

(** [requests.get(url, stream=stream, ...)].  Without [stream] the body is
    read inside the call, so a broken stream raises there. *)
Definition requests_get (url : pystr) (stream : bool) : M response :=
  fun w =>
    let w' := mkWorld (fs w) (requests w ++ [url]) (stdout w) (calls w) in
    match http_get (requests w) url with
    | Raise e => (Raise e, w')
    | Ok r =>
        match stream, stream_error r with
        | false, Some e => (Raise e, w')
        | _, _ => (Ok r, w')
        end
    end.

(** *** [should_download_image] *)

Definition IGNORED_EXTENSIONS : list pystr :=
  [str ".ico"; str ".webp"; str ".svg"; str ".gif"; str ".bmp"; str ".tiff"].

Definition should_download_image (img_url : pystr) : M bool :=
  parsed_path <- lift (urlparse_path img_url) ;
  let path := str_lower parsed_path in
  match find (fun ext => PyStr.endswith path ext) IGNORED_EXTENSIONS with
  | Some ext => _ <- print (MsgSkip img_url ext) ; ret false
  | None => ret true
  end.

(** *** [download_image] *)

Definition is_absolute (img_url : pystr) : bool :=
  PyStr.startswith img_url (str "http://")
  || PyStr.startswith img_url (str "https://").

(** Lines 74-75: the URL the rest of the function works on. *)
Definition resolve_url (img_url base_url : pystr) : result pystr :=
  if is_absolute img_url then Ok img_url
  else urljoin base_url img_url.

(** Lines 86-88: the extension of the local file. *)
Definition image_extension (path : pystr) : pystr :=
  let extension := splitext_ext path in
  if negb (PyStr.nonempty extension) || (5 <? length extension)
  then str ".jpg" else extension.

(** Lines 82-90: the name of the local file. *)
Definition image_filename (img_url : pystr) : result pystr :=
  match md5_hexdigest img_url with
  | Raise e => Raise e
  | Ok img_hash =>
      match urlparse_path img_url with
      | Raise e => Raise e
      | Ok path => Ok (img_hash ++ image_extension path)
      end
  end.

(** Lines 99-107: the fetch of a file that is not in the folder yet. *)
Definition fetch_image (img_url img_path : pystr) : M bool :=
  r <- requests_get img_url true ;
  if (status_code r =? 200)%Z then
    _ <- open_wb img_path ;
    _ <- write_chunks img_path (chunks r) ;
    match stream_error r with
    | Some e => raise e
    | None => _ <- print (MsgDownloaded img_url img_path) ; ret true
    end
  else
    _ <- print (MsgBadStatus img_url (status_code r)) ; ret false.

(** Lines 77-109, with [img_url] already resolved. *)
Definition download_resolved (img_url img_folder : pystr) : M (option pystr) :=
  wanted <- should_download_image img_url ;
  if negb wanted then ret None
  else
    img_filename <- lift (image_filename img_url) ;
    let img_path := path_join img_folder img_filename in
    _ <- makedirs (dirname img_path) ;
    present <- path_exists img_path ;
    if present then ret (Some img_path)
    else
      fetched <- fetch_image img_url img_path ;
      if fetched then ret (Some img_path) else ret None.

(** The handler of [download_image], lines 110-112; [img_url] is the value
    the variable has when the exception arrives. *)
Definition download_failed (img_url : pystr) (e : exn) : M (option pystr) :=
  _ <- print (MsgDownloadError img_url e) ; ret None.

(** The one [try] statement of lines 72-112.  Until line 75 has assigned
    the resolved URL, the handler prints the argument; after it, the
    resolved URL. *)
Definition download_image (img_url base_url img_folder : pystr)
  : M (option pystr) :=
  _ <- log_call img_url ;
  match resolve_url img_url base_url with
  | Raise e => try_except (raise e) (download_failed img_url)
  | Ok resolved =>
      try_except (download_resolved resolved img_folder)
                 (download_failed resolved)
  end.

End Program.

(** ** Queries on the page tree *)

(** The selectors the script uses: a tag name, [.class] and [#id]. *)
Inductive selector :=
| ByTag (name : pystr)
| ByClass (name : pystr)
| ById (name : pystr).

(** The white-space separated words of an attribute value: the list
    [BeautifulSoup] keeps for [class]. *)
Fixpoint words_from (cur_rev : pystr) (s : pystr) : list pystr :=
  match s with
  | [] => if PyStr.nonempty cur_rev then [rev cur_rev] else []
  | c :: r =>
      if PyStr.isspace c
      then (if PyStr.nonempty cur_rev then rev cur_rev :: words_from [] r
            else words_from [] r)
      else words_from (c :: cur_rev) r
  end.

Definition words (s : pystr) : list pystr := words_from [] s.

Definition matches (sel : selector) (tag : pystr) (attrs : gmap pystr pystr)
  : bool :=
  match sel with
  | ByTag name => bool_decide (tag = name)
  | ByClass name =>
      match attrs !! str "class" with
      | Some v => bool_decide (name ∈ words v)
      | None => false
      end
  | ById name => bool_decide (attrs !! str "id" = Some name)
  end.

(** Does the node match one selector of a comma-separated group? *)
Definition node_matches (sels : list selector) (n : node) : bool :=
  match n with
  | Text _ => false
  | Element tag attrs _ => existsb (fun sel => matches sel tag attrs) sels
  end.

Definition contents (n : node) : list node :=
  match n with
  | Text _ => []
  | Element _ _ children => children
  end.

(** The matching nodes among [n] and its descendants, in document order. *)
Fixpoint select_in (sels : list selector) (n : node) : list node :=
  (if node_matches sels n then [n] else [])
  ++ match n with
     | Text _ => []
     | Element _ _ children => flat_map (select_in sels) children
     end.

(** [soup.select('a, b, ...')]: the matching descendants of the soup. *)
Definition select (sels : list selector) (soup : node) : list node :=
  flat_map (select_in sels) (contents soup).

(** [soup.select_one(sel)] *)
Definition select_one (sel : selector) (soup : node) : option node :=
  head (select [sel] soup).

(** [soup.find(name)], which is also [soup.title] for [name = 'title']. *)
Definition find_tag (name : pystr) (soup : node) : option node :=
  head (select [ByTag name] soup).

(** The [.string] of a node: the only child, if it is a string, or the
    [.string] of the only child. *)
Fixpoint node_string (n : node) : option pystr :=
  match n with
  | Text s => Some s
  | Element _ _ [c] => node_string c
  | Element _ _ _ => None
  end.

(** Lines 195-198. *)
Definition page_title (soup : node) : pystr :=
  match find_tag (str "title") soup with
  | Some t =>
      match node_string t with
      | Some s => s
      | None => str "Untitled Page"
      end
  | None => str "Untitled Page"
  end.

(** *** Removal of the unwanted elements, lines 216-217 *)

Definition NOISE : list selector :=
  [ByTag (str "script"); ByTag (str "style"); ByTag (str "iframe");
   ByTag (str "nav"); ByTag (str "footer"); ByClass (str "sidebar");
   ByClass (str "advertisement"); ByClass (str "ads")].

(** [for element in soup.select(sels): element.decompose()] leaves the tree
    without any descendant that matches: a match is cut off with all that
    is below it. *)
Fixpoint decompose_all (sels : list selector) (n : node) : node :=
  match n with
  | Text s => Text s
  | Element tag attrs children =>
      Element tag attrs
        ((fix go (cs : list node) : list node :=
            match cs with
            | [] => []
            | c :: cs' =>
                if node_matches sels c then go cs'
                else decompose_all sels c :: go cs'
            end) children)
  end.

(** *** The main content, lines 221-232 *)

Definition MAIN_SELECTORS : list selector :=
  [ByTag (str "article"); ByTag (str "main"); ByClass (str "main-content");
   ByClass (str "post-content"); ByClass (str "entry-content");
   ByClass (str "content"); ById (str "content")].

(** The loop over the selectors: the first one that selects a node wins.  A
    tag is always true in a condition, whatever it contains. *)
Fixpoint first_selected (sels : list selector) (soup : node) : option node :=
  match sels with
  | [] => None
  | sel :: sels' =>
      match select_one sel soup with
      | Some content => Some content
      | None => first_selected sels' soup
      end
  end.

Definition select_main_content (soup : node) : node :=
  match first_selected MAIN_SELECTORS soup with
  | Some main_content => main_content
  | None =>
      match find_tag (str "body") soup with
      | Some body => body
      | None => soup
      end
  end.

(** ** The image pattern of [replace_md_image_urls]

    [!\[(.*?)\]\((https?://[^)]+)\)], matched as [re] does: the shortest
    alternative text first, the longest run of characters other than the
    closing parenthesis for the URL. *)

Fixpoint strip_prefix (p s : pystr) : option pystr :=
  match p, s with
  | [], _ => Some s
  | _ :: _, [] => None
  | a :: p', b :: s' => if (a =? b)%N then strip_prefix p' s' else None
  end.

Definition RPAREN : N := 41%N.

(** The longest prefix without a closing parenthesis, and what follows. *)
Fixpoint span_url (s : pystr) : pystr * pystr :=
  match s with
  | [] => ([], [])
  | c :: r =>
      if (c =? RPAREN)%N then ([], s)
      else let '(run, rest) := span_url r in (c :: run, rest)
  end.

(** [(https?://[^)]+)\)] at the head of [s]: the URL and the text after the
    parenthesis. *)
Definition match_url (s : pystr) : option (pystr * pystr) :=
  match strip_prefix (str "http") s with
  | None => None
  | Some s1 =>
      let '(scheme, s2) :=
        match s1 with
        | c :: r => if (c =? 115)%N then (str "https", r) else (str "http", s1)
        | [] => (str "http", s1)
        end in
      match strip_prefix (str "://") s2 with
      | None => None
      | Some s3 =>
          match span_url s3 with
          | ((_ :: _) as run, c :: rest) => Some (scheme ++ str "://" ++ run, rest)
          | _ => None
          end
      end
  end.

(** [(.*?)\]\(...\)] after the opening [![]: the alternative text grows one
    character at a time, never over a line feed, until the rest matches. *)
Fixpoint match_alt (alt_rev : pystr) (s : pystr) : option (pystr * pystr * pystr) :=
  match
    match strip_prefix (str "](") s with
    | Some s1 => match_url s1
    | None => None
    end
  with
  | Some (url, rest) => Some (rev alt_rev, url, rest)
  | None =>
      match s with
      | [] => None
      | c :: r =>
          if (c =? PyStr.LF)%N then None else match_alt (c :: alt_rev) r
      end
  end.

(** A match object of the pattern: [group(0)], [group(1)], [group(2)], and
    the text after the match. *)
Record image_match := mkMatch {
  group0 : pystr;
  alt_text : pystr;
  matched_url : pystr;
  after : pystr
}.

(** The pattern at the head of [s]. *)
Definition match_image (s : pystr) : option image_match :=
  match strip_prefix (str "![") s with
  | None => None
  | Some s1 =>
      match match_alt [] s1 with
      | Some (alt, url, rest) =>
          Some (mkMatch (firstn (length s - length rest) s) alt url rest)
      | None => None
      end
  end.

(** The text [![alt](url)]. *)
Definition img_md (alt url : pystr) : pystr :=
  str "![" ++ alt ++ str "](" ++ url ++ str ")".

Definition mapM {A B} (f : A -> M B) : list A -> M (list B) :=
  fix go (l : list A) : M (list B) :=
    match l with
    | [] => ret []
    | a :: l' => b <- f a ; bs <- go l' ; ret (b :: bs)
    end.

Section Pipeline.

Context {E : Env}.

(** *** [process_images] *)

(** Lines 129-130. *)
Definition relative_to_md (local_path md_file_path : pystr) : M pystr :=
  let md_dir := dirname md_file_path in
  rel <- lift (relpath local_path md_dir) ;
  ret (PyStr.replace 92%N 47%N rel).

(** The body of the loop of [process_images] on the attributes of one
    [img] tag. *)
Definition process_img (base_url img_folder md_file_path : pystr)
  (attrs : gmap pystr pystr) : M (gmap pystr pystr) :=
  match attrs !! str "src" with
  | Some src =>
      if PyStr.nonempty src then
        if PyStr.startswith src (str "data:") then ret attrs
        else
          local_path <- download_image src base_url img_folder ;
          match local_path with
          | Some local_path =>
              if PyStr.nonempty local_path then
                rel_path <- relative_to_md local_path md_file_path ;
                ret (<[str "src" := rel_path]> attrs)
              else ret attrs
          | None => ret attrs
          end
      else ret attrs
  | None => ret attrs
  end.

(** The loop over [find_all('img')] visits the [img] tags in document order
    and assigns to nothing but their [src], so it is a traversal of the
    tree. *)
Fixpoint process_images_in (base_url img_folder md_file_path : pystr)
  (n : node) : M node :=
  match n with
  | Text s => ret (Text s)
  | Element tag attrs children =>
      attrs' <- (if bool_decide (tag = str "img")
                 then process_img base_url img_folder md_file_path attrs
                 else ret attrs) ;
      children' <- mapM (process_images_in base_url img_folder md_file_path)
                     children ;
      ret (Element tag attrs' children')
  end.

(** [find_all] searches below the soup, not the soup itself. *)
Definition process_images (soup : node)
  (base_url img_folder md_file_path : pystr) : M node :=
  match soup with
  | Text s => ret (Text s)
  | Element tag attrs children =>
      children' <- mapM (process_images_in base_url img_folder md_file_path)
                     children ;
      ret (Element tag attrs children')
  end.

(** *** [replace_md_image_urls] *)

(** The callback [replace_url]. *)
Definition replace_url (base_url img_folder md_file_path : pystr)
  (m : image_match) : M pystr :=
  let alt_text := alt_text m in
  let img_url := matched_url m in
  local_path <- download_image img_url base_url img_folder ;
  match local_path with
  | Some local_path =>
      if PyStr.nonempty local_path then
        rel_path <- relative_to_md local_path md_file_path ;
        ret (img_md alt_text rel_path)
      else ret (group0 m)
  | None => ret (group0 m)
  end.

(** [re.sub(img_pattern, repl, s)]: the matches are looked for from left to
    right and do not overlap; [skip] counts the characters of [s] that
    belong to the match replaced last. *)
Fixpoint sub_images (repl : image_match -> M pystr) (skip : nat) (s : pystr)
  : M pystr :=
  match s with
  | [] => ret []
  | c :: r =>
      match skip with
      | S k => sub_images repl k r
      | O =>
          match match_image s with
          | Some m =>
              new <- repl m ;
              out <- sub_images repl (length (group0 m) - 1) r ;
              ret (new ++ out)
          | None =>
              out <- sub_images repl 0 r ;
              ret (c :: out)
          end
      end
  end.

Definition replace_md_image_urls
  (markdown_text base_url img_folder md_file_path : pystr) : M pystr :=
  sub_images (replace_url base_url img_folder md_file_path) 0 markdown_text.

(** *** [fetch_and_convert_to_markdown] *)

(** Lines 169-176: the folders; the result is the image folder. *)
Definition prepare_folders (save_dir : pystr) (img_folder : option pystr)
  : M pystr :=
  _ <- makedirs save_dir ;
  let img_folder :=
    match img_folder with
    | None => path_join save_dir (str "images")
    | Some f => f
    end in
  _ <- makedirs img_folder ;
  ret img_folder.

(** Lines 201-210: the path of the Markdown file. *)
Definition md_path_of (save_dir title : pystr) : pystr :=
  let sanitized_title := sanitize_filename (Some title) in
  let sanitized_title :=
    if PyStr.nonempty sanitized_title then sanitized_title
    else str "untitled_page" in
  let timestamp := strftime_now in
  let output_file := sanitized_title ++ str "_" ++ timestamp ++ str ".md" in
  path_join save_dir output_file.

Definition page_result : Type := option pystr * option pystr * option pystr.

(** Lines 192-244: from the body of the page to the document. *)
Definition convert_page (r : response) (url save_dir img_folder : pystr)
  : M page_result :=
  soup <- lift (parse_html (concat (chunks r))) ;
  let title := page_title soup in
  let md_file_path := md_path_of save_dir title in
  soup <- process_images soup url img_folder md_file_path ;
  let soup := decompose_all NOISE soup in
  let main_content := select_main_content soup in
  markdown_content <- lift (markdownify main_content) ;
  markdown_content <-
    replace_md_image_urls markdown_content url img_folder md_file_path ;
  let markdown_document :=
    str "# " ++ title ++ [PyStr.LF; PyStr.LF] ++ markdown_content in
  ret (Some markdown_document, Some title, Some md_file_path).

(** Lines 184-189 and what follows them. *)
Definition fetch_page (url save_dir img_folder : pystr) : M page_result :=
  r <- requests_get url false ;
  if negb (status_code r =? 200)%Z then
    _ <- print (MsgFetchError url (status_code r)) ;
    ret (None, None, None)
  else convert_page r url save_dir img_folder.

(** The handler of lines 246-248. *)
Definition page_failed (e : exn) : M page_result :=
  _ <- print (MsgPageError e) ;
  ret (None, Some (str "Error_Page"), None).

Definition fetch_and_convert_to_markdown (url save_dir : pystr)
  (img_folder : option pystr) : M page_result :=
  try_except
    (img_folder <- prepare_folders save_dir img_folder ;
     fetch_page url save_dir img_folder)
    page_failed.

End Pipeline.

(** ** A reference environment

    An executable environment on which the functions above can be run: MD5,
    the [posixpath] functions and [urlparse] and [urljoin] of [urllib.parse]
    as the Python library defines them, and [str.lower] on ASCII letters.
    Two tests of [urlparse] are taken to pass: that the address between the
    square brackets of a host is a valid one, and the NFKC test of a network
    location that is not ASCII.  The standard output is a UTF-8 stream with
    the strict error handler; [Ascii7] is an ASCII stream, for the
    scenarios of an output that cannot take the lines of the script.  The
    network, the parser and the Markdown converter are given by the
    scenario. *)

Module Utf8.

Local Open Scope N_scope.

(** The UTF-8 encoding of one code point; surrogates cannot be encoded. *)
Definition utf8 (c : N) : option (list N) :=
  if c <? 128 then Some [c]
  else if c <? 2048 then Some [192 + c / 64; 128 + c mod 64]
  else if (55296 <=? c) && (c <=? 57343) then None
  else if c <? 65536 then
    Some [224 + c / 4096; 128 + (c / 64) mod 64; 128 + c mod 64]
  else if c <? 1114112 then
    Some [240 + c / 262144; 128 + (c / 4096) mod 64; 128 + (c / 64) mod 64;
          128 + c mod 64]
  else None.

(** The bytes of [s.encode()] when every code point can be encoded. *)
Definition encode (s : pystr) : list N :=
  flat_map (fun c => default [] (utf8 c)) s.

(** The position of the first code point that cannot be encoded, and the
    text from there. *)
Fixpoint first_error (i : nat) (s : pystr) : option (nat * pystr) :=
  match s with
  | [] => None
  | c :: r =>
      match utf8 c with
      | Some _ => first_error (S i) r
      | None => Some (i, s)
      end
  end.

(** The number of code points at the head of [s] that cannot be encoded. *)
Fixpoint error_run (s : pystr) : nat :=
  match s with
  | [] => 0%nat
  | c :: r =>
      match utf8 c with
      | Some _ => 0%nat
      | None => S (error_run r)
      end
  end.

Definition lower_hex (x : N) : N := if x <? 10 then 48 + x else 87 + x.

(** The escape [\uXXXX] of a code point below 65536. *)
Definition escape (c : N) : pystr :=
  str "\u" ++ map (fun i => lower_hex ((c / 16 ^ i) mod 16)) [3; 2; 1; 0].

Definition nat_str (n : nat) : pystr :=
  str (NilZero.string_of_uint (Nat.to_uint n)).

(** The [UnicodeEncodeError] of [s.encode()] and of [print(s)], with the
    text [str(e)] that Python gives it. *)
Definition encode_error (s : pystr) : option exn :=
  match first_error 0 s with
  | None => None
  | Some (i, bad) =>
      let n := error_run bad in
      Some (Exception
              (str "'utf-8' codec can't encode "
               ++ (if (n =? 1)%nat
                   then str "character '" ++ escape (hd 0 bad)
                        ++ str "' in position " ++ nat_str i
                   else str "characters in position " ++ nat_str i
                        ++ str "-" ++ nat_str (i + n - 1))
               ++ str ": surrogates not allowed"))
  end.

End Utf8.

(** A standard output that encodes to ASCII, as [sys.stdout] does in the
    C locale of older interpreters. *)
Module Ascii7.

Local Open Scope N_scope.

Fixpoint first_error (i : nat) (s : pystr) : option (nat * pystr) :=
  match s with
  | [] => None
  | c :: r => if c <? 128 then first_error (S i) r else Some (i, s)
  end.

Fixpoint error_run (s : pystr) : nat :=
  match s with
  | [] => 0%nat
  | c :: r => if c <? 128 then 0%nat else S (error_run r)
  end.

Definition hex (places : list N) (c : N) : pystr :=
  map (fun i => Utf8.lower_hex ((c / 16 ^ i) mod 16)) places.

(** The escape of a code point in the text of the error. *)
Definition escape (c : N) : pystr :=
  if c <? 256 then str "\x" ++ hex [1; 0] c
  else if c <? 65536 then str "\u" ++ hex [3; 2; 1; 0] c
  else str "\U" ++ hex [7; 6; 5; 4; 3; 2; 1; 0] c.

(** The [UnicodeEncodeError] of [print(s)] on that output. *)
Definition encode_error (s : pystr) : option exn :=
  match first_error 0 s with
  | None => None
  | Some (i, bad) =>
      let n := error_run bad in
      Some (Exception
              (str "'ascii' codec can't encode "
               ++ (if (n =? 1)%nat
                   then str "character '" ++ escape (hd 0 bad)
                        ++ str "' in position " ++ Utf8.nat_str i
                   else str "characters in position " ++ Utf8.nat_str i
                        ++ str "-" ++ Utf8.nat_str (i + n - 1))
               ++ str ": ordinal not in range(128)"))
  end.

End Ascii7.

Module MD5.

Local Open Scope N_scope.

Definition add32 (x y : N) : N := (x + y) mod 4294967296.

Definition not32 (x : N) : N := N.lxor x 4294967295.

Definition rotl32 (x n : N) : N :=
  N.lor (N.shiftl x n) (N.shiftr x (32 - n)) mod 4294967296.

Definition K : list N :=
  [3614090360; 3905402710; 606105819; 3250441966; 4118548399; 1200080426;
   2821735955; 4249261313; 1770035416; 2336552879; 4294925233; 2304563134;
   1804603682; 4254626195; 2792965006; 1236535329; 4129170786; 3225465664;
   643717713; 3921069994; 3593408605; 38016083; 3634488961; 3889429448;
   568446438; 3275163606; 4107603335; 1163531501; 2850285829; 4243563512;
   1735328473; 2368359562; 4294588738; 2272392833; 1839030562; 4259657740;
   2763975236; 1272893353; 4139469664; 3200236656; 681279174; 3936430074;
   3572445317; 76029189; 3654602809; 3873151461; 530742520; 3299628645;
   4096336452; 1126891415; 2878612391; 4237533241; 1700485571; 2399980690;
   4293915773; 2240044497; 1873313359; 4264355552; 2734768916; 1309151649;
   4149444226; 3174756917; 718787259; 3951481745].

Definition SHIFTS : list N :=
  [7; 12; 17; 22; 7; 12; 17; 22; 7; 12; 17; 22; 7; 12; 17; 22;
   5; 9; 14; 20; 5; 9; 14; 20; 5; 9; 14; 20; 5; 9; 14; 20;
   4; 11; 16; 23; 4; 11; 16; 23; 4; 11; 16; 23; 4; 11; 16; 23;
   6; 10; 15; 21; 6; 10; 15; 21; 6; 10; 15; 21; 6; 10; 15; 21].

Definition le_bytes (count : nat) (x : N) : list N :=
  map (fun i => (x / 256 ^ N.of_nat i) mod 256) (seq 0 count).

Definition pad (msg : list N) : list N :=
  let len := N.of_nat (length msg) in
  msg ++ [128] ++ repeat 0 (N.to_nat ((119 - len mod 64) mod 64))
      ++ le_bytes 8 (8 * len).

Fixpoint le_words (bs : list N) : list N :=
  match bs with
  | a :: b :: c :: d :: r =>
      (a + 256 * b + 65536 * c + 16777216 * d) :: le_words r
  | _ => []
  end.

Fixpoint blocks (fuel : nat) (ws : list N) : list (list N) :=
  match fuel, ws with
  | S fuel', _ :: _ => firstn 16 ws :: blocks fuel' (skipn 16 ws)
  | _, _ => []
  end.

Definition step (m : list N) (st : N * N * N * N) (i : nat) : N * N * N * N :=
  let '(a, b, c, d) := st in
  let '(f, g) :=
    if (i <? 16)%nat then (N.lor (N.land b c) (N.land (not32 b) d), i)
    else if (i <? 32)%nat then
      (N.lor (N.land d b) (N.land (not32 d) c), ((5 * i + 1) mod 16)%nat)
    else if (i <? 48)%nat then
      (N.lxor (N.lxor b c) d, ((3 * i + 5) mod 16)%nat)
    else (N.lxor c (N.lor b (not32 d)), ((7 * i) mod 16)%nat) in
  let f := add32 (add32 (add32 f a) (nth i K 0)) (nth g m 0) in
  (d, add32 b (rotl32 f (nth i SHIFTS 0)), b, c).

Definition compress (st : N * N * N * N) (m : list N) : N * N * N * N :=
  let '(a0, b0, c0, d0) := st in
  let '(a, b, c, d) := fold_left (step m) (seq 0 64) st in
  (add32 a0 a, add32 b0 b, add32 c0 c, add32 d0 d).

Definition digest (msg : list N) : list N :=
  let ws := le_words (pad msg) in
  let '(a, b, c, d) :=
    fold_left compress (blocks (length ws) ws)
      (1732584193, 4023233417, 2562383102, 271733878) in
  le_bytes 4 a ++ le_bytes 4 b ++ le_bytes 4 c ++ le_bytes 4 d.

Definition hex_digit (x : N) : N := if x <? 10 then 48 + x else 87 + x.

Definition hex (bs : list N) : pystr :=
  flat_map (fun b => [hex_digit (b / 16); hex_digit (b mod 16)]) bs.

(** [hashlib.md5(s.encode()).hexdigest()] *)
Definition hexdigest (s : pystr) : result pystr :=
  match Utf8.encode_error s with
  | Some e => Raise e
  | None => Ok (hex (digest (Utf8.encode s)))
  end.

End MD5.

Module Posix.

Definition SLASH : N := 47%N.
Definition DOT : N := 46%N.

(** [s.split(sep)] for a one-character separator. *)
Fixpoint split_from (sep : N) (cur_rev : pystr) (s : pystr) : list pystr :=
  match s with
  | [] => [rev cur_rev]
  | c :: r =>
      if (c =? sep)%N then rev cur_rev :: split_from sep [] r
      else split_from sep (c :: cur_rev) r
  end.

Definition split (sep : N) (s : pystr) : list pystr := split_from sep [] s.

(** [sep.join(parts)] *)
Fixpoint join_with (sep : N) (parts : list pystr) : pystr :=
  match parts with
  | [] => []
  | [p] => p
  | p :: ps => p ++ sep :: join_with sep ps
  end.

(** [posixpath.splitext(p)[1]]: from the last dot of the last component,
    unless only dots come before it. *)
Definition splitext_ext (p : pystr) : pystr :=
  let name := List.last (split SLASH p) [] in
  match rev (split DOT name) with
  | ext :: ((_ :: _) as before) =>
      if existsb PyStr.nonempty before then DOT :: ext else []
  | _ => []
  end.

(** [posixpath.join(a, b)] *)
Definition join (a b : pystr) : pystr :=
  if PyStr.startswith b [SLASH] then b
  else if negb (PyStr.nonempty a) || PyStr.endswith a [SLASH] then a ++ b
  else a ++ SLASH :: b.

Fixpoint drop_slashes (s : pystr) : pystr :=
  match s with
  | c :: r => if (c =? SLASH)%N then drop_slashes r else s
  | [] => []
  end.

(** [posixpath.dirname(p)] *)
Definition dirname (p : pystr) : pystr :=
  let parts := split SLASH p in
  let head := firstn (length p - length (List.last parts [])) p in
  if forallb (N.eqb SLASH) head then head
  else rev (drop_slashes (rev head)).

(** The components of [normpath] of an absolute path. *)
Definition norm_components (p : pystr) : list pystr :=
  fold_left
    (fun acc comp =>
       if bool_decide (comp = []) || bool_decide (comp = [DOT]) then acc
       else if bool_decide (comp = [DOT; DOT]) then removelast acc
       else acc ++ [comp])
    (split SLASH p) [].

Fixpoint common_prefix (a b : list pystr) : nat :=
  match a, b with
  | x :: a', y :: b' => if bool_decide (x = y) then S (common_prefix a' b') else 0
  | _, _ => 0
  end.

(** [posixpath.relpath(path, start)] in the working directory [cwd]. *)
Definition relpath (cwd path start : pystr) : result pystr :=
  if negb (PyStr.nonempty path) then Raise (Exception (str "no path specified"))
  else
    let start_list := norm_components (join cwd start) in
    let path_list := norm_components (join cwd path) in
    let i := common_prefix start_list path_list in
    let rel_list :=
      repeat [DOT; DOT] (length start_list - i) ++ skipn i path_list in
    match rel_list with
    | [] => Ok [DOT]
    | _ => Ok (join_with SLASH rel_list)
    end.

End Posix.

Module Url.

Definition is_upper (c : N) : bool := ((65 <=? c) && (c <=? 90))%N.
Definition is_alpha (c : N) : bool :=
  (is_upper c || (97 <=? c) && (c <=? 122))%N.
Definition is_scheme_char (c : N) : bool :=
  (is_alpha c || (48 <=? c) && (c <=? 57) || (c =? 43) || (c =? 45)
   || (c =? 46))%N.

(** [str.lower] on text whose cased letters are ASCII. *)
Definition lower (s : pystr) : pystr :=
  map (fun c => if is_upper c then (c + 32)%N else c) s.

Definition uses_relative : list pystr :=
  map str ["ftp"; "http"; "gopher"; "nntp"; "imap"; "wais"; "file"; "https";
           "shttp"; "mms"; "prospero"; "rtsp"; "rtspu"; "sftp"; "svn";
           "svn+ssh"; "ws"; "wss"]%string.

Definition uses_netloc : list pystr :=
  map str ["ftp"; "http"; "gopher"; "nntp"; "telnet"; "imap"; "wais"; "file";
           "mms"; "https"; "shttp"; "snews"; "prospero"; "rtsp"; "rtspu";
           "rsync"; "svn"; "svn+ssh"; "sftp"; "nfs"; "git"; "git+ssh"; "ws";
           "wss"]%string.

Definition uses_params : list pystr :=
  map str ["ftp"; "hdl"; "prospero"; "http"; "imap"; "https"; "shttp";
           "rtsp"; "rtspu"; "sip"; "sips"; "mms"; "sftp"; "tel"]%string.

(** [scheme in schemes], for a list that also holds the empty scheme. *)
Definition scheme_in (schemes : list pystr) (scheme : pystr) : bool :=
  bool_decide (scheme ∈ [] :: schemes).

(** [s.partition(c)]: the text before the first [c], and the text after it
    when [c] occurs. *)
Fixpoint break_at (c : N) (s : pystr) : pystr * option pystr :=
  match s with
  | [] => ([], None)
  | x :: r =>
      if (x =? c)%N then ([], Some r)
      else let '(pre, post) := break_at c r in (x :: pre, post)
  end.

(** [s.lstrip(_WHATWG_C0_CONTROL_OR_SPACE)] *)
Fixpoint lstrip_c0 (s : pystr) : pystr :=
  match s with
  | [] => []
  | c :: r => if (c <=? 32)%N then lstrip_c0 r else s
  end.

Definition strip_c0 (s : pystr) : pystr := rev (lstrip_c0 (rev (lstrip_c0 s))).

(** Tab, line feed and carriage return are removed from a URL. *)
Definition remove_unsafe (s : pystr) : pystr :=
  List.filter (fun c => negb ((c =? 9) || (c =? 10) || (c =? 13))%N) s.

(** The scheme of a URL and what follows the colon; [default] when the URL
    names no scheme. *)
Definition split_scheme (default url : pystr) : pystr * pystr :=
  match break_at 58%N url with
  | ((c :: _) as pre, Some post) =>
      if is_alpha c && forallb is_scheme_char pre then (lower pre, post)
      else (default, url)
  | _ => (default, url)
  end.

(** [_splitnetloc]: the network location, up to the first of [/], [?],
    [#]. *)
Fixpoint span_netloc (s : pystr) : pystr * pystr :=
  match s with
  | [] => ([], [])
  | c :: r =>
      if ((c =? 47) || (c =? 63) || (c =? 35))%N then ([], s)
      else let '(n, rest) := span_netloc r in (c :: n, rest)
  end.

Definition invalid_ipv6 : exn := Exception (str "Invalid IPv6 URL").

(** The tests of [urlsplit] and of [_check_bracketed_netloc] on the square
    brackets of a network location.  The address between well-placed
    brackets is taken to be valid. *)
Definition check_brackets (netloc : pystr) : result unit :=
  let opened := existsb (N.eqb 91) netloc in
  let closed := existsb (N.eqb 93) netloc in
  if xorb opened closed then Raise invalid_ipv6
  else if opened then
    match break_at 91%N (List.last (Posix.split 64%N netloc) []) with
    | (_ :: _, Some _) => Raise invalid_ipv6
    | ([], Some bracketed) =>
        match break_at 93%N bracketed with
        | (_, Some ((c :: _) as port)) =>
            if (c =? 58)%N then Ok tt else Raise invalid_ipv6
        | _ => Ok tt
        end
    | (_, None) => Ok tt
    end
  else Ok tt.

(** The six components of [urlparse]. *)
Record parts := mkParts {
  scheme : pystr;
  netloc : pystr;
  path : pystr;
  params : pystr;
  query : pystr;
  fragment : pystr
}.

(** [url.split(c, 1)] when [c] occurs, the whole text otherwise. *)
Definition cut_at (c : N) (s : pystr) : pystr * pystr :=
  match break_at c s with
  | (pre, Some post) => (pre, post)
  | (pre, None) => (pre, [])
  end.

(** [urlsplit(url, default)], with empty parameters. *)
Definition urlsplit (url default : pystr) : result parts :=
  let url := remove_unsafe (lstrip_c0 url) in
  let default := remove_unsafe (strip_c0 default) in
  let '(scheme, url) := split_scheme default url in
  let '(netloc, url) :=
    match strip_prefix (str "//") url with
    | Some rest => span_netloc rest
    | None => ([], url)
    end in
  match check_brackets netloc with
  | Raise e => Raise e
  | Ok _ =>
      let '(url, fragment) := cut_at 35%N url in
      let '(url, query) := cut_at 63%N url in
      Ok (mkParts scheme netloc url [] query fragment)
  end.

(** [_splitparams]: the parameters start at the first semicolon of the last
    segment. *)
Definition splitparams (url : pystr) : pystr * pystr :=
  let name := List.last (Posix.split Posix.SLASH url) [] in
  match break_at 59%N name with
  | (pre, Some post) => (firstn (length url - length name) url ++ pre, post)
  | (_, None) => (url, [])
  end.

(** [urlparse(url, default)] *)
Definition urlparse (url default : pystr) : result parts :=
  match urlsplit url default with
  | Raise e => Raise e
  | Ok p =>
      if scheme_in uses_params (scheme p) then
        let '(url, params) := splitparams (path p) in
        Ok (mkParts (scheme p) (netloc p) url params (query p) (fragment p))
      else Ok p
  end.

(** [urlparse(url).path] *)
Definition urlparse_path (url : pystr) : result pystr :=
  match urlparse url [] with
  | Raise e => Raise e
  | Ok p => Ok (path p)
  end.

(** [urlunparse(p)] *)
Definition urlunparse (p : parts) : pystr :=
  let url :=
    if PyStr.nonempty (params p) then path p ++ 59%N :: params p
    else path p in
  let url :=
    if PyStr.nonempty (netloc p)
       || PyStr.nonempty (scheme p) && scheme_in uses_netloc (scheme p)
          && negb (PyStr.startswith url (str "//"))
    then str "//" ++ netloc p
           ++ (if PyStr.nonempty url && negb (PyStr.startswith url (str "/"))
               then Posix.SLASH :: url else url)
    else url in
  let url :=
    if PyStr.nonempty (scheme p) then scheme p ++ 58%N :: url else url in
  let url :=
    if PyStr.nonempty (query p) then url ++ 63%N :: query p else url in
  if PyStr.nonempty (fragment p) then url ++ 35%N :: fragment p else url.

(** [segments[1:-1] = filter(None, segments[1:-1])] *)
Definition drop_empty_inner (segments : list pystr) : list pystr :=
  match segments with
  | first :: ((_ :: _) as rest) =>
      first :: List.filter PyStr.nonempty (removelast rest)
        ++ [List.last rest []]
  | _ => segments
  end.

(** The loop of [urljoin] over the segments: dot segments are resolved. *)
Definition resolve_segments (segments : list pystr) : list pystr :=
  fold_left
    (fun resolved seg =>
       if bool_decide (seg = str "..") then removelast resolved
       else if bool_decide (seg = str ".") then resolved
       else resolved ++ [seg])
    segments [].

(** [urljoin(base, url)] *)
Definition urljoin (base url : pystr) : result pystr :=
  if negb (PyStr.nonempty base) then Ok url
  else if negb (PyStr.nonempty url) then Ok base
  else
    match urlparse base [] with
    | Raise e => Raise e
    | Ok b =>
        match urlparse url (scheme b) with
        | Raise e => Raise e
        | Ok u =>
            if negb (bool_decide (scheme u = scheme b))
               || negb (scheme_in uses_relative (scheme u))
            then Ok url
            else if scheme_in uses_netloc (scheme u)
                    && PyStr.nonempty (netloc u)
            then Ok (urlunparse u)
            else
              let netloc :=
                if scheme_in uses_netloc (scheme u) then netloc b
                else netloc u in
              if negb (PyStr.nonempty (path u))
                 && negb (PyStr.nonempty (params u))
              then
                Ok (urlunparse
                      (mkParts (scheme u) netloc (path b) (params b)
                         (if PyStr.nonempty (query u) then query u
                          else query b)
                         (fragment u)))
              else
                let base_parts := Posix.split Posix.SLASH (path b) in
                let base_parts :=
                  if PyStr.nonempty (List.last base_parts [])
                  then removelast base_parts else base_parts in
                let segments :=
                  if PyStr.startswith (path u) (str "/")
                  then Posix.split Posix.SLASH (path u)
                  else drop_empty_inner
                         (base_parts ++ Posix.split Posix.SLASH (path u)) in
                let resolved := resolve_segments segments in
                let resolved :=
                  if bool_decide (List.last segments [] ∈ [str "."; str ".."])
                  then resolved ++ [[]] else resolved in
                let joined := Posix.join_with Posix.SLASH resolved in
                Ok (urlunparse
                      (mkParts (scheme u) netloc
                         (if PyStr.nonempty joined then joined
                          else [Posix.SLASH])
                         (params u) (query u) (fragment u)))
        end
    end.

End Url.

(** A network that serves the pages of [site]: [requests] refuses a URL
    that is not [http], and an unknown page cannot be reached. *)
Definition web (site : pystr -> option response)
  : list pystr -> pystr -> result response :=
  fun _ url =>
    if is_absolute url then
      match site url with
      | Some r => Ok r
      | None => Raise (Exception (str "ConnectionError"))
      end
    else Raise (Exception (str "InvalidSchema")).

(** Markdown of a tree of strings and images: the strings as they are, an
    image as [![alt](src)]. *)
Fixpoint plain_markdown (n : node) : pystr :=
  match n with
  | Text s => s
  | Element tag attrs children =>
      if bool_decide (tag = str "img")
      then img_md (default [] (attrs !! str "alt"))
                  (default [] (attrs !! str "src"))
      else flat_map plain_markdown children
  end.

Definition reference_env
  (net : list pystr -> pystr -> result response) (page : node) : Env :=
  {| str_lower := Url.lower;
     urlparse_path := Url.urlparse_path;
     urljoin := Url.urljoin;
     md5_hexdigest := MD5.hexdigest;
     splitext_ext := Posix.splitext_ext;
     path_join := Posix.join;
     dirname := Posix.dirname;
     relpath := Posix.relpath (str "/home/user");
     strftime_now := str "20240101_120000";
     http_get := net;
     makedirs_error := fun p => if PyStr.nonempty p then None
                                else Some (Exception (str "FileNotFoundError"));
     open_error := fun _ => None;
     write_error := fun _ _ _ => None;
     print_error := Utf8.encode_error;
     parse_html := fun _ => Ok page;
     markdownify := fun n => Ok (plain_markdown n) |}.

(** The environment [E] with other oracles for the writes and for the
    standard output. *)
Definition with_output
  (write : pystr -> list Byte.byte -> list Byte.byte -> option exn)
  (output : pystr -> option exn) (E : Env) : Env :=
  {| str_lower := @str_lower E;
     urlparse_path := @urlparse_path E;
     urljoin := @urljoin E;
     md5_hexdigest := @md5_hexdigest E;
     splitext_ext := @splitext_ext E;
     path_join := @path_join E;
     dirname := @dirname E;
     relpath := @relpath E;
     strftime_now := @strftime_now E;
     http_get := @http_get E;
     makedirs_error := @makedirs_error E;
     open_error := @open_error E;
     write_error := write;
     print_error := output;
     parse_html := @parse_html E;
     markdownify := @markdownify E |}.

(** A disk where a file cannot grow beyond [room] bytes. *)
Definition with_small_disk (room : nat) (E : Env) : Env :=
  with_output
    (fun _ content chunk =>
       if room <? length content + length chunk
       then Some (Exception (str "OSError")) else None)
    (@print_error E) E.

(** A standard output that encodes to ASCII. *)
Definition with_ascii_stdout (E : Env) : Env :=
  with_output (@write_error E) Ascii7.encode_error E.

Definition empty_world : World := mkWorld ∅ [] [] [].

(** * Properties *)

(** ** The file name sanitizer *)

Section StringFacts.

Variable P : N -> Prop.

Lemma lstrip_length s : length (PyStr.lstrip s) <= length s.
Proof.
  induction s as [|c r IH]; simpl; [lia|].
  destruct (PyStr.isspace c); simpl; lia.
Qed.

Lemma strip_length s : length (PyStr.strip s) <= length s.
Proof.
  unfold PyStr.strip, PyStr.rstrip.
  rewrite length_rev.
  etransitivity; [apply lstrip_length|].
  rewrite length_rev. apply lstrip_length.
Qed.

Lemma lstrip_Forall s : Forall P s -> Forall P (PyStr.lstrip s).
Proof.
  induction 1 as [|c r Hc Hr IH]; simpl; [constructor|].
  destruct (PyStr.isspace c); [exact IH | constructor; assumption].
Qed.

Lemma rev_Forall s : Forall P s -> Forall P (rev s).
Proof.
  rewrite !List.Forall_forall. intros H x Hx. apply H. now apply in_rev.
Qed.

Lemma strip_Forall s : Forall P s -> Forall P (PyStr.strip s).
Proof.
  intros H. unfold PyStr.strip, PyStr.rstrip.
  auto using lstrip_Forall, rev_Forall.
Qed.

Lemma sub_spaces_from_Forall b s :
  P PyStr.SPACE -> Forall P s -> Forall P (PyStr.sub_spaces_from b s).
Proof.
  intros Hsp H. revert b.
  induction H as [|c r Hc Hr IH]; intros b; simpl; [constructor|].
  destruct (PyStr.isspace c); [destruct b|]; auto.
Qed.

End StringFacts.

Definition valid_char (c : N) : Prop := existsb (N.eqb c) invalid_chars = false.

Lemma valid_char_spec c : valid_char c <-> c ∉ invalid_chars.
Proof.
  unfold valid_char. rewrite <- not_true_iff_false, existsb_exists.
  split; intros H Hin; apply H.
  - exists c. split; [now apply list_elem_of_In | apply N.eqb_refl].
  - destruct Hin as (x & Hx & Heq). apply N.eqb_eq in Heq. subst x.
    now apply list_elem_of_In.
Qed.

Lemma sub_class_valid s :
  Forall valid_char (PyStr.sub_class invalid_chars PyStr.UNDERSCORE s).
Proof.
  unfold PyStr.sub_class. apply List.Forall_map.
  apply List.Forall_forall. intros c _. unfold valid_char.
  destruct (existsb (N.eqb c) invalid_chars) eqn:Hc; [reflexivity | exact Hc].
Qed.

Lemma sanitize_steps_valid s : Forall valid_char (sanitize_steps s).
Proof.
  unfold sanitize_steps. apply strip_Forall.
  set (t := PyStr.sub_spaces _).
  assert (Ht : Forall valid_char t).
  { apply sub_spaces_from_Forall; [reflexivity | apply sub_class_valid]. }
  destruct (100 <? length t); [|exact Ht].
  apply Forall_app. split; [now apply Forall_take|].
  repeat constructor.
Qed.

Lemma sanitize_steps_length s : length (sanitize_steps s) <= 100.
Proof.
  unfold sanitize_steps.
  etransitivity; [apply strip_length|].
  set (t := PyStr.sub_spaces _).
  destruct (100 <? length t) eqn:Hlen.
  - apply Nat.ltb_lt in Hlen.
    rewrite length_app, length_take.
    change (length (str "...")) with 3. lia.
  - apply Nat.ltb_ge in Hlen. exact Hlen.
Qed.

Lemma isspace_valid c : PyStr.isspace c = true -> valid_char c.
Proof.
  intros Hc. unfold valid_char, invalid_chars. simpl.
  repeat match goal with
         | |- context [(c =? ?k)%N] =>
             destruct (N.eqb_spec c k) as [->|_]; [discriminate Hc|]
         end.
  reflexivity.
Qed.

Lemma sub_spaces_all_space s :
  forallb PyStr.isspace s = true ->
  PyStr.sub_spaces_from true s = []
  /\ (PyStr.sub_spaces_from false s = []
      \/ PyStr.sub_spaces_from false s = [PyStr.SPACE]).
Proof.
  induction s as [|c r IH]; simpl; [auto|].
  intros H. apply andb_true_iff in H as [Hc Hr]. rewrite Hc.
  destruct (IH Hr) as [IH1 _]. rewrite IH1. auto.
Qed.

Lemma sanitize_steps_all_space s :
  forallb PyStr.isspace s = true -> sanitize_steps s = [].
Proof.
  intros Hs. unfold sanitize_steps, PyStr.sub_spaces.
  set (t := PyStr.sub_class _ _ _).
  assert (Ht : forallb PyStr.isspace t = true).
  { subst t. unfold PyStr.sub_class, PyStr.replace.
    rewrite !map_map. rewrite forallb_forall in *.
    intros c Hc. apply in_map_iff in Hc as (x & <- & Hx).
    specialize (Hs x Hx).
    assert (Hsp : forall y, PyStr.isspace y = true ->
      PyStr.isspace (if existsb (N.eqb y) invalid_chars
                     then PyStr.UNDERSCORE else y) = true).
    { intros y Hy. rewrite (isspace_valid y Hy). exact Hy. }
    apply Hsp.
    repeat match goal with
           | |- context [if (?a =? ?b)%N then _ else _] =>
               destruct (a =? b)%N
           end; first [exact Hs | reflexivity]. }
  destruct (sub_spaces_all_space t Ht) as [_ [-> | ->]]; reflexivity.
Qed.

(** A text that the steps leave empty was white space only. *)
Lemma lstrip_all_space s :
  forallb PyStr.isspace (PyStr.lstrip s) = true ->
  forallb PyStr.isspace s = true.
Proof.
  induction s as [|c r IH]; simpl; [auto|].
  destruct (PyStr.isspace c) eqn:Hc; simpl; [exact IH|].
  now rewrite Hc.
Qed.

Lemma strip_nil s : PyStr.strip s = [] -> forallb PyStr.isspace s = true.
Proof.
  unfold PyStr.strip, PyStr.rstrip. intros H.
  apply (f_equal (@rev N)) in H. rewrite rev_involutive in H. simpl in H.
  apply lstrip_all_space.
  assert (Hrev : forallb PyStr.isspace (rev (PyStr.lstrip s)) = true).
  { apply lstrip_all_space. now rewrite H. }
  rewrite forallb_forall in *. intros c Hc. apply Hrev. now apply in_rev in Hc.
Qed.

Lemma sub_spaces_from_all_space s : forall b,
  forallb PyStr.isspace (PyStr.sub_spaces_from b s) = true ->
  forallb PyStr.isspace s = true.
Proof.
  induction s as [|c r IH]; intros b; simpl; [auto|].
  destruct (PyStr.isspace c) eqn:Hc; simpl.
  - destruct b; simpl; apply IH.
  - rewrite Hc. discriminate.
Qed.

Lemma map_all_space (f : N -> N) s :
  (forall c, PyStr.isspace (f c) = true -> PyStr.isspace c = true) ->
  forallb PyStr.isspace (map f s) = true -> forallb PyStr.isspace s = true.
Proof.
  intros Hf. induction s as [|c r IH]; simpl; [auto|].
  intros H. apply andb_true_iff in H as [Hc Hr].
  now rewrite (Hf c Hc), IH.
Qed.

Lemma sanitize_steps_nil s :
  sanitize_steps s = [] <-> forallb PyStr.isspace s = true.
Proof.
  split; [|apply sanitize_steps_all_space].
  unfold sanitize_steps, PyStr.sub_spaces. intros H. apply strip_nil in H.
  set (t := PyStr.sub_spaces_from false _) in H.
  assert (Ht : forallb PyStr.isspace t = true).
  { destruct (100 <? length t); [|exact H].
    rewrite forallb_app in H. apply andb_true_iff in H as [_ H].
    discriminate H. }
  subst t. apply sub_spaces_from_all_space in Ht.
  unfold PyStr.sub_class, PyStr.replace in Ht.
  repeat (apply map_all_space in Ht; [|clear Ht]); [exact Ht|..].
  - intros c. destruct (N.eqb_spec c PyStr.LF) as [->|]; auto.
  - intros c. destruct (N.eqb_spec c PyStr.CR) as [->|]; auto.
  - intros c. destruct (N.eqb_spec c PyStr.TAB) as [->|]; auto.
  - intros c. destruct (existsb (N.eqb c) invalid_chars); [discriminate|auto].
Qed.

(** C6. [sanitize_filename] is total: for every input, [None] included, the
    result is a non-empty string of at most 100 characters that holds none
    of the nine characters backslash, slash, star, question mark, colon,
    double quote (code point 34), less, greater and bar; [None] gives the
    text untitled, and so does an input that the steps of the function
    leave empty, which are the inputs made of white space only. *)
Theorem sanitize_filename_safe (filename : option pystr) :
  let r := sanitize_filename filename in
  r <> []
  /\ length r <= 100
  /\ Forall (fun c => (c ∉ str "\/*?:<>|") /\ c <> 34%N) r
  /\ sanitize_filename None = str "untitled"
  /\ (forall s, sanitize_steps s = [] ->
               sanitize_filename (Some s) = str "untitled")
  /\ (forall s, sanitize_steps s = [] <-> forallb PyStr.isspace s = true).
Proof.
  assert (Hu : untitled <> [] /\ length untitled <= 100
               /\ Forall valid_char untitled).
  { split; [discriminate|]. split; [vm_compute; lia|]. repeat constructor. }
  assert (Hempty : forall s, sanitize_steps s = [] ->
                             sanitize_filename (Some s) = untitled).
  { intros s Hs. unfold sanitize_filename. simpl. now rewrite Hs. }
  cbv zeta.
  refine (conj _ (conj _ (conj _ (conj eq_refl
            (conj Hempty sanitize_steps_nil))))).
  - destruct filename as [s|]; simpl; [|apply Hu].
    destruct (sanitize_steps s) eqn:Hs; simpl; [apply Hu | discriminate].
  - destruct filename as [s|]; simpl; [|apply Hu].
    pose proof (sanitize_steps_length s) as Hl.
    destruct (sanitize_steps s) eqn:Hs; simpl; [apply Hu | exact Hl].
  - assert (Hv : Forall valid_char (sanitize_filename filename)).
    { destruct filename as [s|]; simpl; [|apply Hu].
      pose proof (sanitize_steps_valid s) as Hv.
      destruct (sanitize_steps s) eqn:Hs; simpl; [apply Hu | exact Hv]. }
    eapply Forall_impl; [exact Hv|]. intros c Hc.
    apply valid_char_spec in Hc. unfold invalid_chars in Hc.
    change (str "\/*?:<>|") with [92; 47; 42; 63; 58; 60; 62; 124]%N.
    split; [intros Hin; apply list_elem_of_In in Hin | intros ->];
      apply Hc, list_elem_of_In; simpl in *; tauto.
Qed.

Example sanitize_slashes :
  sanitize_filename (Some (str "a/b\c:d")) = str "a_b_c_d".
Proof. reflexivity. Qed.

Example sanitize_empty : sanitize_filename (Some (str "")) = untitled.
Proof. reflexivity. Qed.

(** A title of 150 letters is cut to 97 letters and an ellipsis. *)
Example sanitize_long :
  sanitize_filename (Some (repeat 97%N 150)) = repeat 97%N 97 ++ str "...".
Proof. vm_compute. reflexivity. Qed.

(** ** Prefixes and suffixes *)

Lemma startswith_spec s p :
  PyStr.startswith s p = true <-> exists post, s = p ++ post.
Proof.
  revert s. induction p as [|a p IH]; intros s.
  - split; [intros _; now exists s | intros _; now destruct s].
  - destruct s as [|b s]; simpl.
    + split; [discriminate | intros [post Hpost]; discriminate].
    + rewrite andb_true_iff, N.eqb_eq, IH. split.
      * intros [-> [post ->]]. now exists post.
      * intros [post Hpost]. injection Hpost as -> ->. eauto.
Qed.

Lemma startswith_false s p :
  PyStr.startswith s p = false <-> forall post, s <> p ++ post.
Proof.
  rewrite <- not_true_iff_false, startswith_spec. split.
  - intros H post Hpost. apply H. eauto.
  - intros H [post Hpost]. now apply (H post).
Qed.

Lemma endswith_spec s p :
  PyStr.endswith s p = true <-> exists pre, s = pre ++ p.
Proof.
  unfold PyStr.endswith. rewrite startswith_spec. split.
  - intros [post Hpost]. exists (rev post).
    rewrite <- (rev_involutive s), Hpost, rev_app_distr.
    now rewrite rev_involutive.
  - intros [pre ->]. exists (rev pre). apply rev_app_distr.
Qed.

(** ** Running monadic code *)

Lemma bind_ok {A B} (m : M A) (k : A -> M B) w a w' :
  m w = (Ok a, w') -> bind m k w = k a w'.
Proof. intros H. unfold bind. now rewrite H. Qed.

(** What a run of [bind] that returns went through. *)
Lemma bind_inv_ok {A B} (m : M A) (k : A -> M B) w b w2 :
  bind m k w = (Ok b, w2) ->
  exists a w1, m w = (Ok a, w1) /\ k a w1 = (Ok b, w2).
Proof.
  unfold bind. destruct (m w) as [[a|e] w1]; intros H; [eauto | discriminate].
Qed.

(** Every run ends in an exception or in a value. *)
Lemma bind_inv {A B} (m : M A) (k : A -> M B) w res w' :
  bind m k w = (res, w') ->
  (exists e, m w = (Raise e, w') /\ res = Raise e)
  \/ (exists a w1, m w = (Ok a, w1) /\ k a w1 = (res, w')).
Proof.
  unfold bind. destruct (m w) as [[a|e] w1]; intros H.
  - right. eauto.
  - left. injection H as <- <-. eauto.
Qed.

(** The world after a line was printed. *)
Definition printed (m : msg) (w : World) : World :=
  mkWorld (fs w) (requests w) (stdout w ++ [m]) (calls w).

Lemma world_eta w : mkWorld (fs w) (requests w) (stdout w) (calls w) = w.
Proof. now destruct w. Qed.

Tactic Notation "run_step" :=
  unfold bind, ret, raise, lift, log_call, try_except; simpl.
Tactic Notation "run_step" "in" hyp(H) :=
  unfold bind, ret, raise, lift, log_call, try_except in H; simpl in H.

(** ** The image policy filter *)

(** [ext] is the first text of [exts] that [s] ends with. *)
Definition first_suffix (exts : list pystr) (s ext : pystr) : Prop :=
  exists before after,
    exts = before ++ ext :: after
    /\ (exists pre, s = pre ++ ext)
    /\ Forall (fun x => forall pre, s <> pre ++ x) before.

Lemma endswith_false s p :
  PyStr.endswith s p = false <-> forall pre, s <> pre ++ p.
Proof.
  rewrite <- not_true_iff_false, endswith_spec. split.
  - intros H pre Hpre. apply H. eauto.
  - intros H [pre Hpre]. now apply (H pre).
Qed.

Lemma find_suffix_some exts s ext :
  find (fun x => PyStr.endswith s x) exts = Some ext
  <-> first_suffix exts s ext.
Proof.
  unfold first_suffix. induction exts as [|x exts IH]; simpl.
  - split; [discriminate|].
    intros (before & after & H & _). now destruct before.
  - destruct (PyStr.endswith s x) eqn:Hx.
    + split.
      * intros H. injection H as <-. exists [], exts.
        split; [reflexivity|]. split; [now apply endswith_spec | constructor].
      * intros (before & after & Heq & _ & Hb).
        destruct before as [|y before]; simpl in Heq; injection Heq as -> _;
          [reflexivity|].
        apply Forall_cons in Hb as [Hy _]. apply endswith_false in Hy.
        congruence.
    + rewrite IH. split.
      * intros (before & after & -> & Hend & Hb).
        exists (x :: before), after. split; [reflexivity|].
        split; [exact Hend|]. constructor; [now apply endswith_false | exact Hb].
      * intros (before & after & Heq & Hend & Hb).
        destruct before as [|y before]; simpl in Heq; injection Heq as -> ->.
        -- apply endswith_spec in Hend. congruence.
        -- apply Forall_cons in Hb as [_ Hb]. eauto.
Qed.

Lemma find_suffix_none exts s :
  find (fun x => PyStr.endswith s x) exts = None
  <-> forall ext, ext ∈ exts -> forall pre, s <> pre ++ ext.
Proof.
  induction exts as [|x exts IH]; simpl.
  - split; [|reflexivity]. intros _ ext Hin. now apply elem_of_nil in Hin.
  - destruct (PyStr.endswith s x) eqn:Hx.
    + split; [discriminate|]. intros H. exfalso.
      apply endswith_spec in Hx as [pre Hpre].
      apply (H x (proj2 (elem_of_cons _ _ _) (or_introl eq_refl)) pre Hpre).
    + rewrite IH. split.
      * intros H ext Hin. apply elem_of_cons in Hin as [-> | Hin]; [|auto].
        now apply endswith_false.
      * intros H ext Hin. apply H. apply elem_of_cons. now right.
Qed.

Section Policy.

Context {E : Env}.

Lemma print_run m w :
  print m w = match print_error (msg_text m) with
              | Some e => (Raise e, w)
              | None => (Ok tt, printed m w)
              end.
Proof. reflexivity. Qed.

(** The filter in the terms of its two library calls. *)
Lemma should_download_image_run img_url w :
  should_download_image img_url w
  = match urlparse_path img_url with
    | Raise e => (Raise e, w)
    | Ok path =>
        match find (fun ext => PyStr.endswith (str_lower path) ext)
                IGNORED_EXTENSIONS with
        | None => (Ok true, w)
        | Some ext =>
            match print_error (msg_text (MsgSkip img_url ext)) with
            | Some e => (Raise e, w)
            | None => (Ok false, printed (MsgSkip img_url ext) w)
            end
        end
    end.
Proof.
  unfold should_download_image, bind, lift.
  destruct (urlparse_path img_url) as [path|e]; [|reflexivity].
  destruct (find _ IGNORED_EXTENSIONS) as [ext|]; [|reflexivity].
  rewrite print_run. now destruct (print_error _).
Qed.

(** C5, as the code has it.  [should_download_image] parses the URL and
    lower-cases its path.  When the path ends with none of [.ico], [.webp],
    [.svg], [.gif], [.bmp], [.tiff] the answer is [True] and nothing has
    happened.  When it ends with one of them, the line that reports the
    skip, with the first such extension of the list, is printed and the
    answer is [False]; when that line cannot be printed the exception of
    [print] leaves the function, and so does the exception of [urlparse]
    for a URL that it refuses.  So the answer is [False] exactly for the
    URLs that are parsed, end with one of the extensions and have a skip
    line that can be printed, and [True] exactly for the URLs that are
    parsed and end with none.  The files, the network log and the call log
    stay as they are, and nothing but that one line is printed. *)
Theorem should_download_image_spec (img_url : pystr) (w : World) :
  let extensions :=
    [str ".ico"; str ".webp"; str ".svg"; str ".gif"; str ".bmp";
     str ".tiff"] in
  let run := should_download_image img_url w in
  (forall e, urlparse_path img_url = Raise e -> run = (Raise e, w))
  /\ (forall path,
        urlparse_path img_url = Ok path ->
        (forall ext, ext ∈ extensions -> forall pre, str_lower path <> pre ++ ext) ->
        run = (Ok true, w))
  /\ (forall path ext,
        urlparse_path img_url = Ok path ->
        first_suffix extensions (str_lower path) ext ->
        run = match print_error (msg_text (MsgSkip img_url ext)) with
              | None => (Ok false, printed (MsgSkip img_url ext) w)
              | Some e => (Raise e, w)
              end)
  /\ (fst run = Ok false <->
      exists path ext,
        urlparse_path img_url = Ok path
        /\ first_suffix extensions (str_lower path) ext
        /\ print_error (msg_text (MsgSkip img_url ext)) = None)
  /\ (fst run = Ok true <->
      exists path,
        urlparse_path img_url = Ok path
        /\ forall ext, ext ∈ extensions ->
             forall pre, str_lower path <> pre ++ ext)
  /\ fs (snd run) = fs w
  /\ requests (snd run) = requests w
  /\ calls (snd run) = calls w.
Proof.
  cbv zeta. rewrite should_download_image_run.
  change [str ".ico"; str ".webp"; str ".svg"; str ".gif"; str ".bmp";
          str ".tiff"] with IGNORED_EXTENSIONS.
  destruct (urlparse_path img_url) as [path|e] eqn:Hparse.
  - destruct (find _ IGNORED_EXTENSIONS) as [ext|] eqn:Hfind.
    + apply find_suffix_some in Hfind as Hfirst.
      assert (Hsame : forall ext', first_suffix IGNORED_EXTENSIONS
                                     (str_lower path) ext' -> ext' = ext).
      { intros ext' H'. apply find_suffix_some in H'. congruence. }
      assert (Hsome : ~ forall x, x ∈ IGNORED_EXTENSIONS ->
                        forall pre, str_lower path <> pre ++ x).
      { intros H'. apply find_suffix_none in H'. congruence. }
      refine (conj _ (conj _ (conj _ (conj _ (conj _ _))))).
      * discriminate.
      * intros path' Hp Hnone. injection Hp as <-. contradiction.
      * intros path' ext' Hp H'. injection Hp as <-.
        rewrite (Hsame ext' H'). now destruct (print_error _).
      * destruct (print_error (msg_text (MsgSkip img_url ext))) eqn:Hprint;
          simpl; split; try discriminate.
        -- intros (path' & ext' & Hp & H' & Hok). injection Hp as <-.
           rewrite (Hsame ext' H') in Hok. congruence.
        -- intros _. eauto.
        -- intros (path' & ext' & Hp & H' & Hok). reflexivity.
      * destruct (print_error (msg_text (MsgSkip img_url ext)));
          simpl; split; try discriminate;
          intros (path' & Hp & H'); injection Hp as <-; contradiction.
      * now destruct (print_error (msg_text (MsgSkip img_url ext))).
    + pose proof (proj1 (find_suffix_none _ _) Hfind) as Hnone.
      refine (conj _ (conj _ (conj _ (conj _ (conj _ _)))));
        simpl; auto.
      * discriminate.
      * intros path' ext' Hp H'. injection Hp as <-.
        apply find_suffix_some in H'. congruence.
      * split; [discriminate|].
        intros (path' & ext' & Hp & H' & _). injection Hp as <-.
        apply find_suffix_some in H'. congruence.
      * split; eauto.
  - refine (conj _ (conj _ (conj _ (conj _ (conj _ _)))));
      simpl; auto; try discriminate.
    + intros e' He'. now injection He' as <-.
    + split; [discriminate | intros (? & ? & ? & _); discriminate].
    + split; [discriminate | intros (? & ? & _); discriminate].
Qed.

End Policy.

(** The two examples of the specification, on the reference environment. *)
Example should_download_svg :
  fst (should_download_image (E := reference_env (web (fun _ => None)) (Text []))
         (str "http://x/img.svg") empty_world) = Ok false.
Proof. reflexivity. Qed.

Example should_download_png :
  fst (should_download_image (E := reference_env (web (fun _ => None)) (Text []))
         (str "http://x/img.png") empty_world) = Ok true.
Proof. reflexivity. Qed.

(** A host that opens a square bracket and does not close it: [urlparse]
    refuses the URL, and its exception leaves the filter. *)
Example should_download_refused_url :
  should_download_image (E := reference_env (web (fun _ => None)) (Text []))
    (str "http://[x/a.gif") empty_world
  = (Raise (Exception (str "Invalid IPv6 URL")), empty_world).
Proof. vm_compute. reflexivity. Qed.

(** [should_download_image_spec] on a URL with an upper-case extension and
    a query: it is rejected, and the skip is reported. *)
Lemma should_download_image_spec_witness :
  should_download_image (E := reference_env (web (fun _ => None)) (Text []))
    (str "http://x/IMG.SVG?v=2") empty_world
  = (Ok false,
     printed (MsgSkip (str "http://x/IMG.SVG?v=2") (str ".svg")) empty_world).
Proof.
  apply (proj1 (proj2 (proj2
           (should_download_image_spec
              (E := reference_env (web (fun _ => None)) (Text []))
              (str "http://x/IMG.SVG?v=2") empty_world)))
           (str "/IMG.SVG") (str ".svg") eq_refl).
  exists [str ".ico"; str ".webp"], [str ".gif"; str ".bmp"; str ".tiff"].
  split; [reflexivity|]. split; [now exists (str "/img")|].
  repeat constructor; apply endswith_false; reflexivity.
Defined.

(** C5 as the specification states it fails.  The first URL has a host
    that opens a square bracket and does not close it: [urlparse] refuses
    it, so no path ends with an ignored extension, yet the URL is not
    accepted.  The path of the second URL ends with [.gif], yet the URL is
    not rejected: the skip line holds the lone surrogate of the URL, which
    the standard output cannot encode, and the exception of [print] leaves
    the filter. *)
Lemma should_download_image_raises :
  fst (should_download_image
         (E := reference_env (web (fun _ => None)) (Text []))
         (str "http://[x/a.png") empty_world)
  = Raise (Exception (str "Invalid IPv6 URL"))
  /\ fst (should_download_image
            (E := reference_env (web (fun _ => None)) (Text []))
            (str "http://[x/a.png") empty_world)
     <> Ok true
  /\ urlparse_path (Env := reference_env (web (fun _ => None)) (Text []))
       (str "http://x/" ++ [55296%N] ++ str ".gif")
     = Ok (str "/" ++ [55296%N] ++ str ".gif")
  /\ fst (should_download_image
            (E := reference_env (web (fun _ => None)) (Text []))
            (str "http://x/" ++ [55296%N] ++ str ".gif") empty_world)
     = Raise (Exception
                (str "'utf-8' codec can't encode character '\ud800' in position 15: surrogates not allowed"))
  /\ fst (should_download_image
            (E := reference_env (web (fun _ => None)) (Text []))
            (str "http://x/" ++ [55296%N] ++ str ".gif") empty_world)
     <> Ok false.
Proof. vm_compute. repeat split; try reflexivity; discriminate. Qed.

(** ** The image localizer *)

(** The disk after [os.makedirs(d, exist_ok=True)] has returned. *)
Definition with_dir (d : pystr) (m : gmap pystr fs_entry)
  : gmap pystr fs_entry :=
  match m !! d with
  | Some _ => m
  | None => <[d := Dir]> m
  end.

Lemma with_dir_lookup d m q x :
  m !! q = Some x -> with_dir d m !! q = Some x.
Proof.
  intros Hq. unfold with_dir. destruct (m !! d) eqn:Hd; [exact Hq|].
  rewrite lookup_insert_ne; [exact Hq | congruence].
Qed.

Lemma with_dir_files d m q content :
  with_dir d m !! q = Some (File content) -> m !! q = Some (File content).
Proof.
  unfold with_dir. destruct (m !! d) eqn:Hd; [auto|].
  destruct (decide (d = q)) as [->|Hne].
  - rewrite lookup_insert_eq. discriminate.
  - now rewrite lookup_insert_ne.
Qed.

Lemma with_dir_other d m q : q <> d -> with_dir d m !! q = m !! q.
Proof.
  intros Hne. unfold with_dir. destruct (m !! d); [reflexivity|].
  now rewrite lookup_insert_ne.
Qed.

Lemma with_dir_again d m : with_dir d (with_dir d m) = with_dir d m.
Proof.
  unfold with_dir. destruct (m !! d) eqn:Hd.
  - now rewrite Hd.
  - now rewrite lookup_insert_eq.
Qed.

Section Localizer.

Context {E : Env}.

(** The world in which the body of [download_image] starts. *)
Definition entered (img_url : pystr) (w : World) : World :=
  mkWorld (fs w) (requests w) (stdout w) (calls w ++ [img_url]).

(** What the handler of [download_image] makes of an exception raised for
    the URL [u]: an [Exception] is printed and becomes [None], unless the
    print raises; anything else goes through. *)
Definition absorbed (u : pystr) (e : exn) : result (option pystr) :=
  if is_exception e then
    match print_error (msg_text (MsgDownloadError u e)) with
    | Some e' => Raise e'
    | None => Ok None
    end
  else Raise e.

Lemma download_failed_run u e w :
  download_failed u e w
  = match print_error (msg_text (MsgDownloadError u e)) with
    | Some e' => (Raise e', w)
    | None => (Ok None, printed (MsgDownloadError u e) w)
    end.
Proof.
  unfold download_failed, bind. rewrite print_run.
  now destruct (print_error _).
Qed.

(** The end of the [try] statement after the body has raised [e]. *)
Lemma download_image_handler u e w :
  exists w',
    (if is_exception e then download_failed u e w else (Raise e, w))
    = (absorbed u e, w')
    /\ fs w' = fs w /\ requests w' = requests w /\ calls w' = calls w
    /\ (stdout w' = stdout w
        \/ (absorbed u e = Ok None
            /\ stdout w' = stdout w ++ [MsgDownloadError u e])).
Proof.
  unfold absorbed. rewrite download_failed_run.
  destruct (is_exception e); [|exists w; auto 10].
  destruct (print_error _); eexists; (split; [reflexivity|]); simpl; auto 10.
Qed.

(** The three ways [download_image] ends: the resolution raises, the rest
    raises, or the rest returns. *)
Lemma download_image_cases img_url base_url img_folder w :
  let w0 := entered img_url w in
  (exists e, resolve_url img_url base_url = Raise e
             /\ download_image img_url base_url img_folder w
                = (if is_exception e then download_failed img_url e w0
                   else (Raise e, w0)))
  \/ (exists u e w1, resolve_url img_url base_url = Ok u
             /\ download_resolved u img_folder w0 = (Raise e, w1)
             /\ download_image img_url base_url img_folder w
                = (if is_exception e then download_failed u e w1
                   else (Raise e, w1)))
  \/ (exists u r w1, resolve_url img_url base_url = Ok u
             /\ download_resolved u img_folder w0 = (Ok r, w1)
             /\ download_image img_url base_url img_folder w = (Ok r, w1)).
Proof.
  intros w0. unfold download_image, bind, log_call.
  cbv beta iota. fold (entered img_url w). fold w0.
  destruct (resolve_url img_url base_url) as [u|e] eqn:Hres.
  - unfold try_except.
    destruct (download_resolved u img_folder w0) as [[r|e] w1] eqn:Hrun.
    + right. right. exists u, r, w1. auto.
    + right. left. exists u, e, w1. auto.
  - left. exists e. auto.
Qed.


(** *** The steps of [download_resolved] *)

(** A URL that the filter has accepted once is accepted in every world,
    without any effect. *)
Definition accepted (u : pystr) : Prop :=
  forall w, should_download_image u w = (Ok true, w).

Lemma should_download_true u w :
  fst (should_download_image u w) = Ok true -> accepted u.
Proof.
  intros H w2. rewrite should_download_image_run in *.
  destruct (urlparse_path u) as [path|e]; [|discriminate].
  destruct (find _ IGNORED_EXTENSIONS) as [ext|]; [|reflexivity].
  destruct (print_error _); discriminate.
Qed.

Lemma should_download_run u w :
  exists r w1, should_download_image u w = (r, w1)
    /\ fs w1 = fs w /\ requests w1 = requests w /\ calls w1 = calls w
    /\ (r = Ok true -> w1 = w /\ accepted u).
Proof.
  destruct (should_download_image u w) as [r w1] eqn:Hrun.
  exists r, w1. split; [reflexivity|].
  assert (Htrue : r = Ok true -> accepted u).
  { intros ->. apply (should_download_true u w). now rewrite Hrun. }
  rewrite should_download_image_run in Hrun.
  destruct (urlparse_path u) as [path|e];
    [|injection Hrun as <- <-; auto 10].
  destruct (find _ IGNORED_EXTENSIONS) as [ext|];
    [|injection Hrun as <- <-; auto 10].
  destruct (print_error _); injection Hrun as <- <-; simpl;
    repeat split; auto; discriminate.
Qed.

Lemma makedirs_run d w :
  (exists e, makedirs d w = (Raise e, w))
  \/ (exists w1, makedirs d w = (Ok tt, w1)
        /\ fs w1 = with_dir d (fs w) /\ requests w1 = requests w
        /\ stdout w1 = stdout w /\ calls w1 = calls w).
Proof.
  unfold makedirs, with_dir.
  destruct (fs w !! d) as [[content|]|]; eauto 10.
  destruct (makedirs_error d); eauto 10.
Qed.

Lemma makedirs_fst d w1 w2 :
  fs w1 = fs w2 -> fst (makedirs d w1) = fst (makedirs d w2).
Proof.
  intros Hfs. unfold makedirs. rewrite Hfs.
  destruct (fs w2 !! d) as [[|]|]; try reflexivity.
  destruct (makedirs_error d); reflexivity.
Qed.

Lemma makedirs_ok d w :
  fst (makedirs d w) = Ok tt ->
  exists w1, makedirs d w = (Ok tt, w1)
    /\ fs w1 = with_dir d (fs w) /\ requests w1 = requests w
    /\ stdout w1 = stdout w /\ calls w1 = calls w.
Proof.
  intros H. destruct (makedirs_run d w) as [[e He] | Hok]; [|exact Hok].
  rewrite He in H. discriminate.
Qed.

(** A directory that [os.makedirs] has made, or found, is there. *)
Lemma makedirs_dir d w w1 :
  makedirs d w = (Ok tt, w1) -> fs w1 !! d = Some Dir.
Proof.
  unfold makedirs.
  destruct (fs w !! d) as [[content|]|] eqn:Hd; [discriminate| |].
  - intros H. now injection H as <-.
  - destruct (makedirs_error d); [discriminate|].
    intros H. injection H as <-. apply lookup_insert_eq.
Qed.

(** What the chunks [cs] make of a file at [p] that holds [content]: the
    content after the writes, and the exception of the write that failed,
    if one did. *)
Fixpoint written (p : pystr) (content : list Byte.byte)
  (cs : list (list Byte.byte)) : list Byte.byte * option exn :=
  match cs with
  | [] => (content, None)
  | c :: cs' =>
      match write_error p content c with
      | Some e => (content, Some e)
      | None => written p (content ++ c) cs'
      end
  end.

Lemma written_all p cs : forall content,
  snd (written p content cs) = None ->
  fst (written p content cs) = content ++ concat cs.
Proof.
  induction cs as [|c cs IH]; intros content; simpl.
  - now rewrite app_nil_r.
  - destruct (write_error p content c); [discriminate|].
    intros H. now rewrite (IH _ H), <- app_assoc.
Qed.

(** Every write of the chunks [cs], one after the other, to a file at [p]
    that holds [content] at first, succeeds. *)
Definition writes_succeed (p : pystr) (content : list Byte.byte)
  (cs : list (list Byte.byte)) : Prop :=
  forall before c after,
    cs = before ++ c :: after ->
    write_error p (content ++ concat before) c = None.

Lemma writes_succeed_cons p content c cs :
  writes_succeed p content (c :: cs) ->
  write_error p content c = None /\ writes_succeed p (content ++ c) cs.
Proof.
  intros H. split.
  - specialize (H [] c cs eq_refl). simpl in H. now rewrite app_nil_r in H.
  - intros before c' after ->.
    specialize (H (c :: before) c' after eq_refl). simpl in H.
    now rewrite <- app_assoc.
Qed.

Lemma written_succeed p cs : forall content,
  writes_succeed p content cs ->
  written p content cs = (content ++ concat cs, None).
Proof.
  induction cs as [|c cs IH]; intros content H; simpl.
  - now rewrite app_nil_r.
  - apply writes_succeed_cons in H as [Hc H].
    now rewrite Hc, (IH _ H), <- app_assoc.
Qed.

Lemma written_fails p before c after e : forall content,
  writes_succeed p content before ->
  write_error p (content ++ concat before) c = Some e ->
  written p content (before ++ c :: after) = (content ++ concat before, Some e).
Proof.
  induction before as [|b before IH]; intros content H Hfail; simpl in *.
  - rewrite app_nil_r in *. now rewrite Hfail.
  - apply writes_succeed_cons in H as [Hb H]. rewrite Hb.
    rewrite app_assoc in Hfail. now rewrite (IH _ H Hfail), <- app_assoc.
Qed.

Lemma write_chunks_file p cs : forall w content,
  fs w !! p = Some (File content) ->
  write_chunks p cs w
  = (match snd (written p content cs) with
     | Some e => Raise e
     | None => Ok tt
     end,
     mkWorld (<[p := File (fst (written p content cs))]> (fs w))
       (requests w) (stdout w) (calls w)).
Proof.
  induction cs as [|c cs IH]; intros w content Hp; simpl.
  - rewrite insert_id by exact Hp. unfold ret. now rewrite world_eta.
  - unfold bind, write_chunk. rewrite Hp.
    destruct (write_error p content c) as [e|]; simpl.
    + rewrite insert_id by exact Hp. now rewrite world_eta.
    + rewrite (IH _ (content ++ c)) by apply lookup_insert_eq. simpl.
      now rewrite insert_insert_eq.
Qed.

Lemma requests_get_run u stream w r w' :
  requests_get u stream w = (r, w') ->
  fs w' = fs w /\ requests w' = requests w ++ [u]
  /\ stdout w' = stdout w /\ calls w' = calls w.
Proof.
  unfold requests_get.
  destruct (http_get (requests w) u) as [resp|e].
  - destruct stream, (stream_error resp);
      intros H; injection H as <- <-; auto.
  - intros H. injection H as <- <-; auto.
Qed.

Lemma image_filename_spec u name :
  image_filename u = Ok name <->
  exists img_hash path,
    md5_hexdigest u = Ok img_hash /\ urlparse_path u = Ok path
    /\ name = img_hash ++ image_extension path.
Proof.
  unfold image_filename.
  destruct (md5_hexdigest u) as [h|e]; [destruct (urlparse_path u) as [path|e]|].
  - split.
    + intros H. injection H as <-. eauto.
    + intros (h' & path' & Hh & Hp & ->). congruence.
  - split; [discriminate | intros (h' & path' & _ & Hp & _); discriminate].
  - split; [discriminate | intros (h' & path' & Hh & _); discriminate].
Qed.

Lemma image_extension_spec path :
  (splitext_ext path <> [] /\ length (splitext_ext path) <= 5
   /\ image_extension path = splitext_ext path)
  \/ ((splitext_ext path = [] \/ 5 < length (splitext_ext path))
      /\ image_extension path = str ".jpg").
Proof.
  unfold image_extension.
  destruct (splitext_ext path) as [|c ext] eqn:Hext; simpl.
  - right. auto.
  - destruct (5 <? length (c :: ext)) eqn:Hlen; simpl in Hlen; rewrite Hlen.
    + right. apply Nat.ltb_lt in Hlen. split; [right; simpl; lia | reflexivity].
    + left. apply Nat.ltb_ge in Hlen. repeat split; [discriminate | simpl; lia].
Qed.

(** *** The outcomes of a call *)

(** How the fetch of a file that is not on the disk [disk] ends, from the
    answer of the network: the result of the rest of the body of
    [download_image] and the disk it leaves. *)
Definition fetch_outcome (u : pystr) (answer : result response) (p : pystr)
  (disk : gmap pystr fs_entry) (res : result (option pystr))
  (disk' : gmap pystr fs_entry) : Prop :=
  match answer with
  | Raise e => res = Raise e /\ disk' = disk
  | Ok r =>
      if (status_code r =? 200)%Z then
        match open_error p with
        | Some e => res = Raise e /\ disk' = disk
        | None =>
            disk' = <[p := File (fst (written p [] (chunks r)))]> disk
            /\ res = match snd (written p [] (chunks r)), stream_error r with
                     | Some e, _ => Raise e
                     | None, Some e => Raise e
                     | None, None =>
                         match print_error (msg_text (MsgDownloaded u p)) with
                         | Some e => Raise e
                         | None => Ok (Some p)
                         end
                     end
        end
      else
        disk' = disk
        /\ res = match print_error
                         (msg_text (MsgBadStatus u (status_code r))) with
                 | Some e => Raise e
                 | None => Ok None
                 end
  end.

(** The ways the body of [download_image] ends after the resolution of the
    URL: before it looks at the disk, on a file that is there, or after a
    request. *)
Inductive resolved_outcome (u f : pystr) (w : World)
  : result (option pystr) -> World -> Prop :=
| outcome_early res w' :
    fs w' = fs w -> requests w' = requests w ->
    res = Ok None \/ (exists e, res = Raise e) ->
    resolved_outcome u f w res w'
| outcome_hit name w' :
    accepted u ->
    image_filename u = Ok name ->
    fs w' = with_dir (dirname (path_join f name)) (fs w) ->
    fs w' !! dirname (path_join f name) = Some Dir ->
    is_Some (fs w' !! path_join f name) ->
    requests w' = requests w ->
    resolved_outcome u f w (Ok (Some (path_join f name))) w'
| outcome_fetch name res w' :
    accepted u ->
    image_filename u = Ok name ->
    with_dir (dirname (path_join f name)) (fs w) !! path_join f name = None ->
    with_dir (dirname (path_join f name)) (fs w)
      !! dirname (path_join f name) = Some Dir ->
    requests w' = requests w ++ [u] ->
    fetch_outcome u (http_get (requests w) u) (path_join f name)
      (with_dir (dirname (path_join f name)) (fs w)) res (fs w') ->
    resolved_outcome u f w res w'.

(** The request and the write of [fetch_image], and the result of
    [download_resolved] after them. *)
Lemma fetch_image_outcome u p w res w' :
  fs w !! p = None ->
  (fetched <- fetch_image u p ;
   if fetched then ret (Some p) else ret None) w = (res, w') ->
  requests w' = requests w ++ [u]
  /\ fetch_outcome u (http_get (requests w) u) p (fs w) res (fs w').
Proof.
  intros Hp. unfold fetch_image, bind, requests_get, fetch_outcome.
  destruct (http_get (requests w) u) as [r|e];
    [|intros H; injection H as <- <-; auto].
  destruct (status_code r =? 200)%Z.
  - unfold open_wb. simpl. rewrite Hp.
    destruct (open_error p); [intros H; injection H as <- <-; auto|].
    rewrite (write_chunks_file p (chunks r) _ []);
      [|simpl; apply lookup_insert_eq].
    simpl. rewrite insert_insert_eq.
    destruct (snd (written p [] (chunks r)));
      [intros H; injection H as <- <-; auto|].
    destruct (stream_error r);
      [unfold raise; intros H; injection H as <- <-; auto|].
    rewrite print_run.
    destruct (print_error _); intros H; injection H as <- <-; auto.
  - rewrite print_run.
    destruct (print_error _); intros H; injection H as <- <-; auto.
Qed.

Lemma download_resolved_outcome u f w res w' :
  download_resolved u f w = (res, w') -> resolved_outcome u f w res w'.
Proof.
  unfold download_resolved. intros H.
  destruct (should_download_run u w)
    as (r & w1 & Hwant & Hfs1 & Hreq1 & _ & Hsame).
  apply bind_inv in H as [(e & He & ->) | (wanted & w1' & Hw & H)];
    rewrite Hwant in *.
  { injection He as -> ->. apply outcome_early; eauto. }
  injection Hw as -> <-.
  destruct wanted; simpl in H;
    [|injection H as <- <-; apply outcome_early; eauto].
  destruct (Hsame eq_refl) as [-> Hacc]. clear Hwant Hfs1 Hreq1 Hsame.
  apply bind_inv in H as [(e & He & ->) | (name & w1 & Hname & H)].
  { unfold lift in He. injection He as Hn Hw. subst w'.
    apply outcome_early; eauto. }
  unfold lift in Hname. injection Hname as Hname <-.
  set (p := path_join f name) in *.
  destruct (makedirs_run (dirname p) w)
    as [[e Hmk] | (wa & Hmk & Hfsa & Hreqa & _)];
    apply bind_inv in H as [(e' & He & ->) | ([] & w1 & Hm & H)];
    rewrite Hmk in *; try discriminate.
  { injection He as He Hw. subst w'. apply outcome_early; eauto. }
  injection Hm as <-.
  pose proof (makedirs_dir _ _ _ Hmk) as Hdir.
  apply bind_inv in H as [(e' & He & ->) | (present & w1 & Hex & H)];
    [discriminate|].
  unfold path_exists in Hex. injection Hex as <- <-.
  case_bool_decide as Hp.
  { injection H as <- <-.
    apply (outcome_hit u f w name); fold p; auto. }
  apply eq_None_not_Some in Hp.
  apply fetch_image_outcome in H as [Hreq Hout]; [|exact Hp].
  apply (outcome_fetch u f w name); fold p.
  - exact Hacc.
  - exact Hname.
  - now rewrite <- Hfsa.
  - now rewrite <- Hfsa.
  - now rewrite Hreq, Hreqa.
  - now rewrite <- Hfsa, <- Hreqa.
Qed.

(** The outcome of [download_image]: the handler leaves the disk and the
    log of requests alone. *)
Lemma download_image_outcome img_url base_url img_folder w r w' :
  download_image img_url base_url img_folder w = (r, w') ->
  (exists e, resolve_url img_url base_url = Raise e
     /\ r = absorbed img_url e /\ fs w' = fs w /\ requests w' = requests w)
  \/ (exists u res w1, resolve_url img_url base_url = Ok u
        /\ resolved_outcome u img_folder (entered img_url w) res w1
        /\ r = match res with Ok x => Ok x | Raise e => absorbed u e end
        /\ fs w' = fs w1 /\ requests w' = requests w1).
Proof.
  intros Hrun.
  destruct (download_image_cases img_url base_url img_folder w)
    as [(e & Hres & H) | [(u & e & w1 & Hres & Hbody & H)
                         | (u & x & w1 & Hres & Hbody & H)]];
    rewrite H in Hrun.
  - destruct (download_image_handler img_url e (entered img_url w))
      as (wh & Hh & Hfs & Hreq & _).
    rewrite Hh in Hrun. injection Hrun as <- <-.
    left. exists e. auto.
  - destruct (download_image_handler u e w1) as (wh & Hh & Hfs & Hreq & _).
    rewrite Hh in Hrun. injection Hrun as <- <-.
    right. exists u, (Raise e), w1.
    apply download_resolved_outcome in Hbody. auto.
  - injection Hrun as <- <-. right. exists u, (Ok x), w1.
    apply download_resolved_outcome in Hbody. auto.
Qed.

(** A call that returns a path has named the file after the resolved
    URL. *)
Lemma download_image_some img_url base_url img_folder w p w1 :
  download_image img_url base_url img_folder w = (Ok (Some p), w1) ->
  exists u name,
    resolve_url img_url base_url = Ok u
    /\ accepted u
    /\ image_filename u = Ok name /\ p = path_join img_folder name
    /\ fs w1 !! dirname p = Some Dir
    /\ is_Some (fs w1 !! p).
Proof.
  intros Hrun.
  apply download_image_outcome in Hrun
    as [(e & _ & Hx & _) | (u & res & w2 & Hres & Hout & Hx & Hfs & _)].
  { unfold absorbed in Hx. destruct (is_exception e); [|discriminate].
    destruct (print_error _); discriminate. }
  assert (Habs : forall e, Ok (Some p) <> absorbed u e).
  { intros e. unfold absorbed. destruct (is_exception e); [|discriminate].
    destruct (print_error _); discriminate. }
  exists u.
  destruct Hout as [res w2 _ _ Hnone | name w2 Hacc Hname Hfs2 Hdir Hsome _
                   | name res w2 Hacc Hname Hp Hdir _ Hout]; simpl in *.
  - destruct Hnone as [-> | [e ->]]; [discriminate | now apply Habs in Hx].
  - injection Hx as ->. exists name. rewrite Hfs. auto 10.
  - exists name. unfold fetch_outcome in Hout.
    destruct (http_get (requests w) u) as [r|e];
      [|destruct Hout as [-> _]; now apply Habs in Hx].
    destruct (status_code r =? 200)%Z.
    + destruct (open_error (path_join img_folder name));
        [destruct Hout as [-> _]; now apply Habs in Hx|].
      destruct Hout as [Hdisk ->].
      destruct (snd (written _ [] (chunks r))); [now apply Habs in Hx|].
      destruct (stream_error r); [now apply Habs in Hx|].
      destruct (print_error _); [now apply Habs in Hx|].
      injection Hx as ->. rewrite Hfs, Hdisk.
      repeat split; auto.
      * rewrite lookup_insert_ne; [exact Hdir | congruence].
      * rewrite lookup_insert_eq. eauto.
    + destruct Hout as [_ ->].
      destruct (print_error _); [now apply Habs in Hx | discriminate].
Qed.

(** C4. The local file of an image is named after the resolved URL alone:
    the path [download_image] returns is the folder joined with the MD5 hex
    digest of the resolved URL followed by the extension of the path of that
    URL ([os.path.splitext], the dot included) when there is one of at most
    5 characters, and by [.jpg] otherwise.  Whatever the world, the same
    arguments give the same path. *)
Theorem download_image_filename (img_url base_url img_folder : pystr)
  (w : World) (p : pystr) :
  fst (download_image img_url base_url img_folder w) = Ok (Some p) ->
  exists resolved img_hash path extension,
    resolve_url img_url base_url = Ok resolved
    /\ md5_hexdigest resolved = Ok img_hash
    /\ urlparse_path resolved = Ok path
    /\ ((splitext_ext path <> [] /\ length (splitext_ext path) <= 5
         /\ extension = splitext_ext path)
        \/ ((splitext_ext path = [] \/ 5 < length (splitext_ext path))
            /\ extension = str ".jpg"))
    /\ p = path_join img_folder (img_hash ++ extension)
    /\ (forall w2 p2,
          fst (download_image img_url base_url img_folder w2) = Ok (Some p2) ->
          p2 = p).
Proof.
  assert (Hname : forall w0 p0,
    fst (download_image img_url base_url img_folder w0) = Ok (Some p0) ->
    exists u name, resolve_url img_url base_url = Ok u
      /\ image_filename u = Ok name /\ p0 = path_join img_folder name).
  { intros w0 p0 H0.
    destruct (download_image img_url base_url img_folder w0) as [r w1] eqn:Hrun.
    simpl in H0. subst r.
    apply download_image_some in Hrun as (u & name & Hres & _ & Hn & Hp & _).
    eauto. }
  intros H. destruct (Hname w p H) as (u & name & Hres & Hn & ->).
  apply image_filename_spec in Hn as Hn'.
  destruct Hn' as (h & path & Hh & Hpath & ->).
  exists u, h, path, (image_extension path).
  repeat split; auto.
  - destruct (image_extension_spec path) as [(H1 & H2 & H3) | (H1 & H2)];
      [left | right]; auto.
  - intros w2 p2 H2.
    destruct (Hname w2 p2 H2) as (u' & name' & Hres' & Hn2 & ->).
    congruence.
Qed.

(** *** The cache of downloaded images *)

(** The body of [download_image] up to the look at the disk. *)
Lemma download_resolved_prefix u f w name wa :
  accepted u ->
  image_filename u = Ok name ->
  makedirs (dirname (path_join f name)) w = (Ok tt, wa) ->
  download_resolved u f w
  = (if bool_decide (is_Some (fs wa !! path_join f name))
     then (Ok (Some (path_join f name)), wa)
     else (fetched <- fetch_image u (path_join f name) ;
           if fetched then ret (Some (path_join f name)) else ret None) wa).
Proof.
  intros Hwant Hname Hmk. unfold download_resolved.
  rewrite (bind_ok _ _ w true w) by apply Hwant. simpl.
  rewrite (bind_ok _ _ w name w) by (unfold lift; now rewrite Hname).
  rewrite (bind_ok _ _ w tt wa Hmk).
  unfold bind at 1, path_exists at 1.
  now destruct (bool_decide _).
Qed.

(** A file that is in the folder is returned without any request. *)
Lemma download_image_hit img_url base_url img_folder w u name :
  resolve_url img_url base_url = Ok u ->
  accepted u ->
  image_filename u = Ok name ->
  fst (makedirs (dirname (path_join img_folder name)) w) = Ok tt ->
  is_Some (with_dir (dirname (path_join img_folder name)) (fs w)
             !! path_join img_folder name) ->
  exists w',
    download_image img_url base_url img_folder w
    = (Ok (Some (path_join img_folder name)), w')
    /\ fs w' = with_dir (dirname (path_join img_folder name)) (fs w)
    /\ requests w' = requests w.
Proof.
  intros Hres Hacc Hname Hmk Hsome.
  set (p := path_join img_folder name) in *.
  rewrite (makedirs_fst _ w (entered img_url w)) in Hmk by reflexivity.
  apply makedirs_ok in Hmk as (wa & Hmk & Hfsa & Hreqa & _).
  exists wa. unfold download_image, bind, log_call. cbv beta iota.
  fold (entered img_url w). rewrite Hres. unfold try_except.
  rewrite (download_resolved_prefix _ _ _ _ _ Hacc Hname Hmk). fold p.
  rewrite bool_decide_eq_true_2 by (rewrite Hfsa; exact Hsome).
  auto.
Qed.

(** A file that is not in the folder is requested. *)
Lemma download_image_miss img_url base_url img_folder w u name :
  resolve_url img_url base_url = Ok u ->
  accepted u ->
  image_filename u = Ok name ->
  fst (makedirs (dirname (path_join img_folder name)) w) = Ok tt ->
  with_dir (dirname (path_join img_folder name)) (fs w)
    !! path_join img_folder name = None ->
  exists res w',
    download_image img_url base_url img_folder w
    = (match res with Ok x => Ok x | Raise e => absorbed u e end, w')
    /\ fetch_outcome u (http_get (requests w) u) (path_join img_folder name)
         (with_dir (dirname (path_join img_folder name)) (fs w)) res (fs w')
    /\ requests w' = requests w ++ [u].
Proof.
  intros Hres Hacc Hname Hmk Hnone.
  set (p := path_join img_folder name) in *.
  rewrite (makedirs_fst _ w (entered img_url w)) in Hmk by reflexivity.
  apply makedirs_ok in Hmk as (wa & Hmk & Hfsa & Hreqa & _).
  simpl in Hfsa, Hreqa.
  unfold download_image, bind at 1, log_call. cbv beta iota.
  fold (entered img_url w). rewrite Hres. unfold try_except.
  rewrite (download_resolved_prefix _ _ _ _ _ Hacc Hname Hmk). fold p.
  rewrite bool_decide_eq_false_2
    by (rewrite Hfsa, Hnone; now intros [x Hx]).
  destruct ((fetched <- fetch_image u p ;
             if fetched then ret (Some p) else ret None) wa)
    as [res w1] eqn:Hfetch.
  apply fetch_image_outcome in Hfetch as [Hreq Hout];
    [|now rewrite Hfsa].
  rewrite Hfsa, Hreqa in Hout. rewrite Hreqa in Hreq.
  destruct res as [x|e].
  - exists (Ok x), w1. auto.
  - destruct (download_image_handler u e w1) as (wh & Hh & Hfs & Hreqh & _).
    rewrite Hh. exists (Raise e), wh. rewrite Hfs, Hreqh. auto.
Qed.

(** C3, as the code has it.  When a call of [download_image] returns a
    path, a second call with the same arguments returns the same path
    without any request and without touching the disk.  The first call
    issues no request when something was at the path already (or when the
    path is its own directory, which the call makes before it looks), and
    exactly one, for the resolved URL, when nothing was there.  A call
    whose request is answered with a status other than 200 leaves nothing
    at the path of the image, and a second call issues the request
    again. *)
Theorem download_image_cached (img_url base_url img_folder : pystr)
  (w : World) :
  let w1 := snd (download_image img_url base_url img_folder w) in
  let w2 := snd (download_image img_url base_url img_folder w1) in
  (forall p,
     fst (download_image img_url base_url img_folder w) = Ok (Some p) ->
     fst (download_image img_url base_url img_folder w1) = Ok (Some p)
     /\ requests w2 = requests w1
     /\ fs w2 = fs w1
     /\ (is_Some (fs w !! p) \/ dirname p = p -> requests w1 = requests w)
     /\ (fs w !! p = None -> dirname p <> p ->
         exists u, resolve_url img_url base_url = Ok u
                   /\ requests w1 = requests w ++ [u]))
  /\ (forall u r,
        resolve_url img_url base_url = Ok u ->
        requests w1 = requests w ++ [u] ->
        http_get (requests w) u = Ok r ->
        status_code r <> 200%Z ->
        (exists name,
           image_filename u = Ok name
           /\ fs w1 !! path_join img_folder name = None)
        /\ requests w2 = requests w1 ++ [u]).
Proof.
  cbv zeta.
  destruct (download_image img_url base_url img_folder w) as [x w1] eqn:Hrun.
  simpl. split.
  - intros p ->.
    apply download_image_some in Hrun as Hsome.
    destruct Hsome as (u & name & Hres & Hacc & Hname & -> & Hdir1 & Hfile1).
    set (p := path_join img_folder name) in *.
    assert (Hdir : with_dir (dirname p) (fs w1) = fs w1)
      by (unfold with_dir; now rewrite Hdir1).
    destruct (download_image_hit img_url base_url img_folder w1 u name)
      as (w2 & Hrun2 & Hfs2 & Hreq2); auto.
    { fold p. unfold makedirs. now rewrite Hdir1. }
    { fold p. now rewrite Hdir. }
    fold p in Hrun2, Hfs2. rewrite Hrun2. simpl.
    rewrite Hfs2, Hdir. repeat split; auto.
    + intros Hbefore.
      apply download_image_outcome in Hrun
        as [(e & Hres' & _) | (u' & res & w0 & Hres' & Hout & Hx & _ & Hreq)];
        [congruence|].
      rewrite Hres in Hres'. injection Hres' as <-. rewrite Hreq.
      destruct Hout as [res w0 _ Hreq0 _ | name' w0 _ _ _ _ _ Hreq0
                       | name' res w0 _ Hname' Hp _ _ _]; simpl in *; auto.
      exfalso. rewrite Hname in Hname'. injection Hname' as <-. fold p in Hp.
      destruct Hbefore as [[y Hy] | Heq].
      * apply (with_dir_lookup (dirname p)) in Hy. congruence.
      * rewrite Heq in Hp. unfold with_dir in Hp.
        destruct (fs w !! p) eqn:Hwp; [congruence|].
        rewrite lookup_insert_eq in Hp. discriminate.
    + intros Hnone Hne. exists u. split; [exact Hres|].
      apply download_image_outcome in Hrun
        as [(e & Hres' & _) | (u' & res & w0 & Hres' & Hout & Hx & _ & Hreq)];
        [congruence|].
      rewrite Hres in Hres'. injection Hres' as <-. rewrite Hreq.
      destruct Hout as [res w0 _ _ Hearly | name' w0 _ Hname' Hfs0 _ Hsome0 _
                       | name' res w0 _ _ _ _ Hreq0 _]; simpl in *; auto.
      * exfalso. unfold absorbed in Hx.
        destruct Hearly as [-> | [e ->]]; [discriminate|].
        destruct (is_exception e); [|discriminate].
        destruct (print_error _); discriminate.
      * exfalso. rewrite Hname in Hname'. injection Hname' as <-.
        fold p in Hfs0, Hsome0.
        rewrite Hfs0, with_dir_other, Hnone in Hsome0 by congruence.
        now destruct Hsome0.
  - intros u r Hres Hreq1 Hget Hstatus.
    apply download_image_outcome in Hrun
      as [(e & Hres' & _) | (u' & res & w0 & Hres' & Hout & Hx & Hfs & Hreq)];
      [congruence|].
    rewrite Hres in Hres'. injection Hres' as <-.
    assert (Hgrow : forall (l : list pystr) a, l <> l ++ [a]).
    { intros l a Heq. apply (f_equal (@length pystr)) in Heq.
      rewrite length_app in Heq. simpl in Heq. lia. }
    destruct Hout as [res w0 _ Hreq0 _ | name w0 _ _ _ _ _ Hreq0
                     | name res w0 Hacc Hname Hp Hdir _ Hout]; simpl in *;
      try (exfalso; apply (Hgrow (requests w) u); congruence).
    set (p := path_join img_folder name) in *.
    unfold fetch_outcome in Hout. rewrite Hget in Hout.
    apply Z.eqb_neq in Hstatus. rewrite Hstatus in Hout.
    destruct Hout as [Hdisk _]. rewrite Hdisk in Hfs.
    split; [exists name; split; [exact Hname | now rewrite Hfs]|].
    destruct (download_image_miss img_url base_url img_folder w1 u name)
      as (res2 & w2 & Hrun2 & _ & Hreq2); auto.
    + fold p. unfold makedirs. now rewrite Hfs, Hdir.
    + fold p. now rewrite Hfs, with_dir_again.
    + rewrite Hrun2. exact Hreq2.
Qed.

End Localizer.

(** *** The localizer on the reference environment *)

(** A site with one image, and a site that knows no page. *)
Definition png_site (url : pystr) : option response :=
  if bool_decide (url = str "https://ex.com/a.png")
  then Some (mkResponse 200 [[Byte.x89; Byte.x50]; [Byte.x4e; Byte.x47]] None)
  else None.

Definition png_env : Env := reference_env (web png_site) (Text []).

Definition missing_env : Env :=
  reference_env (web (fun _ => Some (mkResponse 404 [] None))) (Text []).

Example download_image_relative :
  fst (download_image (E := png_env) (str "/a.png")
         (str "https://ex.com/page") (str "out/images") empty_world)
  = Ok (Some (str "out/images/c98b0c87944d062e1bacda2032deb838.png")).
Proof. vm_compute. reflexivity. Qed.

(** A request that cannot be answered is absorbed. *)
Example download_image_unreachable :
  fst (download_image (E := png_env) (str "https://ex.com/other.png")
         (str "https://ex.com/page") (str "out/images") empty_world)
  = Ok None.
Proof. vm_compute. reflexivity. Qed.

(** The exception of [urlparse] for a URL it refuses is absorbed too:
    the error line is printed and nothing is requested. *)
Example download_image_refused_url :
  download_image (E := png_env) (str "http://[x/a.png")
    (str "https://ex.com/page") (str "out/images") empty_world
  = (Ok None,
     mkWorld ∅ []
       [MsgDownloadError (str "http://[x/a.png")
          (Exception (str "Invalid IPv6 URL"))]
       [str "http://[x/a.png"]).
Proof. vm_compute. reflexivity. Qed.

(** On a standard output that encodes to ASCII no line of
    [download_image] can be printed, and no surrogate is needed for the
    function to raise: for an image in an ignored format the skip line
    raises, the handler catches that and its own line raises.  For an
    image that is fetched, the file is written first, then the line that
    reports the download raises, and the line of the handler after it. *)
Example download_image_ascii_stdout :
  fst (download_image (E := with_ascii_stdout png_env)
         (str "https://ex.com/anim.gif") (str "https://ex.com/page")
         (str "out/images") empty_world)
  = Raise (Exception
             (str "'ascii' codec can't encode characters in position 0-6: ordinal not in range(128)"))
  /\ download_image (E := with_ascii_stdout png_env) (str "/a.png")
       (str "https://ex.com/page") (str "out/images") empty_world
     = (Raise (Exception
                 (str "'ascii' codec can't encode characters in position 0-6: ordinal not in range(128)")),
        mkWorld
          (<[ str "out/images/c98b0c87944d062e1bacda2032deb838.png"
              := File [Byte.x89; Byte.x50; Byte.x4e; Byte.x47] ]>
             {[ str "out/images" := Dir ]})
          [str "https://ex.com/a.png"] [] [str "/a.png"]).
Proof. vm_compute. split; reflexivity. Qed.





(** [download_image_filename] on the site with one image. *)
Lemma download_image_filename_witness :
  fst (download_image (E := png_env) (str "/a.png")
         (str "https://ex.com/page") (str "out/images") empty_world)
  = Ok (Some (str "out/images/c98b0c87944d062e1bacda2032deb838.png"))
  /\ exists resolved img_hash,
      resolve_url (E := png_env) (str "/a.png") (str "https://ex.com/page")
      = Ok resolved
      /\ md5_hexdigest (Env := png_env) resolved = Ok img_hash.
Proof.
  assert (H : fst (download_image (E := png_env) (str "/a.png")
                (str "https://ex.com/page") (str "out/images") empty_world)
              = Ok (Some (str "out/images/c98b0c87944d062e1bacda2032deb838.png")))
    by (vm_compute; reflexivity).
  split; [exact H|].
  destruct (download_image_filename (E := png_env) _ _ _ _ _ H)
    as (resolved & img_hash & _ & _ & Hres & Hhash & _).
  exists resolved, img_hash. split; assumption.
Defined.

(** [download_image_cached] on the site with one image, from an empty
    folder. *)
Lemma download_image_cached_witness :
  fst (download_image (E := png_env) (str "/a.png")
         (str "https://ex.com/page") (str "out/images") empty_world)
  = Ok (Some (str "out/images/c98b0c87944d062e1bacda2032deb838.png"))
  /\ (let w1 := snd (download_image (E := png_env) (str "/a.png")
                      (str "https://ex.com/page") (str "out/images")
                      empty_world) in
      fst (download_image (E := png_env) (str "/a.png")
             (str "https://ex.com/page") (str "out/images") w1)
      = Ok (Some (str "out/images/c98b0c87944d062e1bacda2032deb838.png"))).
Proof.
  assert (H : fst (download_image (E := png_env) (str "/a.png")
                (str "https://ex.com/page") (str "out/images") empty_world)
              = Ok (Some (str "out/images/c98b0c87944d062e1bacda2032deb838.png")))
    by (vm_compute; reflexivity).
  split; [exact H|].
  exact (proj1 (proj1 (download_image_cached (E := png_env) (str "/a.png")
                         (str "https://ex.com/page") (str "out/images")
                         empty_world) _ H)).
Defined.

(** C3 as the specification states it fails: when the server answers 404,
    two calls with the same URL and folder issue two requests, and neither
    returns a path. *)
Lemma download_image_twice_refetches :
  fst (download_image (E := missing_env) (str "https://ex.com/a.png")
         (str "https://ex.com/page") (str "out/images") empty_world)
  = Ok None
  /\ fst (download_image (E := missing_env) (str "https://ex.com/a.png")
           (str "https://ex.com/page") (str "out/images")
           (snd (download_image (E := missing_env)
                   (str "https://ex.com/a.png") (str "https://ex.com/page")
                   (str "out/images") empty_world)))
     = Ok None
  /\ requests
       (snd (download_image (E := missing_env) (str "https://ex.com/a.png")
               (str "https://ex.com/page") (str "out/images")
               (snd (download_image (E := missing_env)
                       (str "https://ex.com/a.png")
                       (str "https://ex.com/page") (str "out/images")
                       empty_world))))
     = [str "https://ex.com/a.png"; str "https://ex.com/a.png"].
Proof. vm_compute. repeat split; reflexivity. Qed.

Definition data_uri : pystr := str "data:image/png;base64,AAAA".



(** ** Induction on page trees *)

Lemma node_tree_ind (P : node -> Prop)
  (Htext : forall s, P (Text s))
  (Helem : forall tag attrs children,
      Forall P children -> P (Element tag attrs children)) :
  forall n, P n.
Proof.
  fix IH 1. intros [s | tag attrs children]; [apply Htext | apply Helem].
  induction children as [|c cs IHcs]; constructor; [apply IH | exact IHcs].
Qed.

(** ** The calls and the frame of the tree image rewriter *)

(** A computation that leaves a part of the world as it finds it, however
    it ends. *)
Definition keeps {A X} (part : World -> X) (m : M A) : Prop :=
  forall w, part (snd (m w)) = part w.

Section Keeps.

Context {X : Type} (part : World -> X).

Lemma keeps_ret {A} (a : A) : keeps part (ret a).
Proof. intros w. reflexivity. Qed.

Lemma keeps_raise {A} e : keeps part (raise (A := A) e).
Proof. intros w. reflexivity. Qed.

Lemma keeps_lift {A} (r : result A) : keeps part (lift r).
Proof. intros w. reflexivity. Qed.

Lemma keeps_bind {A B} (m : M A) (k : A -> M B) :
  keeps part m -> (forall a, keeps part (k a)) -> keeps part (bind m k).
Proof.
  intros Hm Hk w. unfold bind. specialize (Hm w).
  destruct (m w) as [[a|e] w1]; simpl in *; [|exact Hm].
  now rewrite Hk.
Qed.

Lemma keeps_try {A} (m : M A) (h : exn -> M A) :
  keeps part m -> (forall e, keeps part (h e)) -> keeps part (try_except m h).
Proof.
  intros Hm Hh w. unfold try_except. specialize (Hm w).
  destruct (m w) as [[a|e] w1]; simpl in *; [exact Hm|].
  destruct (is_exception e); [|exact Hm]. now rewrite Hh.
Qed.

End Keeps.

Ltac keeps_step :=
  first
    [ apply keeps_ret | apply keeps_raise | apply keeps_lift
    | apply keeps_bind; [|intros ?]
    | apply keeps_try; [|intros ?]
    | match goal with
      | |- keeps _ (match ?x with _ => _ end) => destruct x
      end ].

Section TreeRewriter.

Context {E : Env}.

Lemma keeps_calls_print m : keeps calls (print m).
Proof. intros w. rewrite print_run. now destruct (print_error _). Qed.

Lemma keeps_calls_makedirs d : keeps calls (makedirs d).
Proof.
  intros w. unfold makedirs.
  destruct (fs w !! d) as [[|]|]; try reflexivity.
  destruct (makedirs_error d); reflexivity.
Qed.

Lemma keeps_calls_open p : keeps calls (open_wb p).
Proof.
  intros w. unfold open_wb.
  destruct (fs w !! p) as [[|]|]; try reflexivity;
    destruct (open_error p); reflexivity.
Qed.

Lemma keeps_calls_write p cs : keeps calls (write_chunks p cs).
Proof.
  induction cs as [|c cs IH]; simpl; [apply keeps_ret|].
  apply keeps_bind; [|intros _; exact IH]. intros w. unfold write_chunk.
  destruct (fs w !! p) as [[content|]|]; try reflexivity.
  destruct (write_error p content c); reflexivity.
Qed.

Lemma keeps_calls_exists p : keeps calls (path_exists p).
Proof. intros w. reflexivity. Qed.

Lemma keeps_calls_get u stream : keeps calls (requests_get u stream).
Proof.
  intros w. destruct (requests_get u stream w) as [r w'] eqn:H.
  now apply requests_get_run in H.
Qed.

Lemma keeps_calls_should_download u : keeps calls (should_download_image u).
Proof.
  unfold should_download_image.
  repeat first [apply keeps_calls_print | keeps_step].
Qed.

Lemma keeps_calls_fetch u p : keeps calls (fetch_image u p).
Proof.
  unfold fetch_image.
  repeat first [apply keeps_calls_print | apply keeps_calls_get
               | apply keeps_calls_open | apply keeps_calls_write
               | keeps_step].
Qed.

Lemma keeps_calls_resolved u f : keeps calls (download_resolved u f).
Proof.
  unfold download_resolved.
  repeat first [apply keeps_calls_should_download | apply keeps_calls_makedirs
               | apply keeps_calls_exists | apply keeps_calls_fetch
               | keeps_step].
Qed.

(** Every entry into [download_image] is recorded, once. *)
Lemma download_image_calls img_url base_url img_folder w :
  calls (snd (download_image img_url base_url img_folder w))
  = calls w ++ [img_url].
Proof.
  unfold download_image. unfold bind at 1, log_call at 1.
  match goal with
  | |- calls (snd (?body ?w0)) = _ =>
      assert (Hk : keeps calls body); [|exact (Hk w0)]
  end.
  unfold download_failed.
  repeat first [apply keeps_calls_resolved | apply keeps_calls_print
               | keeps_step].
Qed.

(** The source of an [img] tag that [process_images] hands to
    [download_image]: not missing, not empty, not a data URI. *)
Definition candidate_src (attrs : gmap pystr pystr) : list pystr :=
  match attrs !! str "src" with
  | Some src =>
      if PyStr.nonempty src && negb (PyStr.startswith src (str "data:"))
      then [src] else []
  | None => []
  end.

(** The candidate sources of the [img] tags among a node and its
    descendants, in document order. *)
Fixpoint image_sources_in (n : node) : list pystr :=
  match n with
  | Text _ => []
  | Element tag attrs children =>
      (if bool_decide (tag = str "img") then candidate_src attrs else [])
      ++ flat_map image_sources_in children
  end.

Definition image_sources (soup : node) : list pystr :=
  flat_map image_sources_in (contents soup).

(** The tree without the [src] of its [img] tags: all that the tree image
    rewriter must not touch. *)
Fixpoint erase_src (n : node) : node :=
  match n with
  | Text s => Text s
  | Element tag attrs children =>
      Element tag
        (if bool_decide (tag = str "img") then delete (str "src") attrs
         else attrs)
        (map erase_src children)
  end.

Variables base_url img_folder md_file_path : pystr.

Lemma keeps_calls_relative p : keeps calls (relative_to_md p md_file_path).
Proof. unfold relative_to_md. repeat keeps_step. Qed.

Lemma process_img_calls attrs w :
  calls (snd (process_img base_url img_folder md_file_path attrs w))
  = calls w ++ candidate_src attrs.
Proof.
  unfold process_img, candidate_src.
  destruct (attrs !! str "src") as [src|]; [|simpl; now rewrite app_nil_r].
  destruct (PyStr.nonempty src); [|simpl; now rewrite app_nil_r].
  destruct (PyStr.startswith src (str "data:")); simpl;
    [now rewrite app_nil_r|].
  unfold bind at 1.
  pose proof (download_image_calls src base_url img_folder w) as Hc.
  destruct (download_image src base_url img_folder w) as [[local|e] w1];
    simpl in Hc; [|exact Hc].
  rewrite <- Hc.
  assert (Hk : keeps calls
    (match local with
     | Some local_path =>
         if PyStr.nonempty local_path then
           rel_path <- relative_to_md local_path md_file_path ;
           ret (<[str "src" := rel_path]> attrs)
         else ret attrs
     | None => ret attrs
     end)).
  { repeat first [apply keeps_calls_relative | keeps_step]. }
  apply Hk.
Qed.

Lemma process_img_frame attrs w attrs' w' :
  process_img base_url img_folder md_file_path attrs w = (Ok attrs', w') ->
  delete (str "src") attrs' = delete (str "src") attrs.
Proof.
  unfold process_img.
  destruct (attrs !! str "src") as [src|];
    [|intros H; now injection H as <- <-].
  destruct (PyStr.nonempty src); [|intros H; now injection H as <- <-].
  destruct (PyStr.startswith src (str "data:"));
    [intros H; now injection H as <- <-|].
  intros H. apply bind_inv_ok in H as (local & w1 & _ & H).
  destruct local as [local_path|]; [|now injection H as <- <-].
  destruct (PyStr.nonempty local_path); [|now injection H as <- <-].
  apply bind_inv_ok in H as (rel & w2 & _ & H).
  injection H as <- <-. apply delete_insert_eq.
Qed.

Lemma mapM_cons_inv {A B} (f : A -> M B) a l w bs w' :
  mapM f (a :: l) w = (Ok bs, w') ->
  exists b w1 bs', f a w = (Ok b, w1) /\ mapM f l w1 = (Ok bs', w')
                   /\ bs = b :: bs'.
Proof.
  simpl. intros H.
  apply bind_inv_ok in H as (b & w1 & Hb & H).
  apply bind_inv_ok in H as (bs' & w2 & Hbs & H).
  injection H as <- <-. eauto 10.
Qed.

(** A traversal that returns. *)
Lemma mapM_ok {A B} (f : A -> M B) (g : A -> list pystr) (h : A -> A)
  (k : B -> A) l :
  Forall (fun a => forall w b w', f a w = (Ok b, w') ->
            calls w' = calls w ++ g a /\ h (k b) = h a) l ->
  forall w bs w', mapM f l w = (Ok bs, w') ->
    calls w' = calls w ++ flat_map g l /\ map h (map k bs) = map h l.
Proof.
  induction 1 as [|a l Ha Hl IH]; intros w bs w' Hrun.
  - injection Hrun as <- <-. simpl. now rewrite app_nil_r.
  - apply mapM_cons_inv in Hrun as (b & w1 & bs' & Hb & Hbs & ->).
    destruct (Ha _ _ _ Hb) as [Hc1 Hh1].
    destruct (IH _ _ _ Hbs) as [Hc2 Hh2].
    simpl. rewrite Hc2, Hc1, Hh1, Hh2. now rewrite app_assoc.
Qed.

Lemma process_images_in_ok n :
  forall w n' w',
    process_images_in base_url img_folder md_file_path n w = (Ok n', w') ->
    calls w' = calls w ++ image_sources_in n /\ erase_src n' = erase_src n.
Proof.
  induction n as [s | tag attrs children IH] using node_tree_ind;
    intros w n' w' Hrun.
  - injection Hrun as <- <-. simpl. now rewrite app_nil_r.
  - simpl in Hrun.
    apply bind_inv_ok in Hrun as (attrs' & w1 & Hattrs & Hrun).
    apply bind_inv_ok in Hrun as (children' & w2 & Hch & Hrun).
    injection Hrun as <- <-.
    destruct (mapM_ok _ image_sources_in erase_src (fun c => c) children IH
                _ _ _ Hch) as [Hc Hh].
    rewrite map_id in Hh. simpl. rewrite Hc, Hh.
    case_bool_decide as Himg.
    + pose proof (process_img_calls attrs w) as Hc1.
      rewrite Hattrs in Hc1. simpl in Hc1.
      apply process_img_frame in Hattrs.
      now rewrite Hc1, Hattrs, app_assoc.
    + injection Hattrs as <- <-. auto.
Qed.

(** What [process_images] does when it returns: it has called
    [download_image] on the candidate sources of all the [img] tags of the
    soup, in document order, and has changed nothing but [src] attributes
    of [img] tags. *)
Lemma process_images_ok soup w soup' w' :
  process_images soup base_url img_folder md_file_path w = (Ok soup', w') ->
  calls w' = calls w ++ image_sources soup
  /\ contents (erase_src soup') = contents (erase_src soup)
  /\ (forall s, soup = Text s -> soup' = soup)
  /\ (forall tag attrs children, soup = Element tag attrs children ->
        exists children', soup' = Element tag attrs children').
Proof.
  destruct soup as [s | tag attrs children]; simpl; intros Hrun.
  - injection Hrun as <- <-. rewrite app_nil_r.
    repeat split; auto. intros; discriminate.
  - apply bind_inv_ok in Hrun as (children' & w1 & Hch & Hrun).
    injection Hrun as <- <-.
    assert (Hall : Forall (fun a => forall w b w',
      process_images_in base_url img_folder md_file_path a w = (Ok b, w') ->
      calls w' = calls w ++ image_sources_in a
      /\ erase_src ((fun c => c) b) = erase_src a) children).
    { apply List.Forall_forall. intros c _. apply process_images_in_ok. }
    destruct (mapM_ok _ image_sources_in erase_src (fun c => c) children Hall
                _ _ _ Hch) as [Hc Hh].
    rewrite map_id in Hh. unfold image_sources. simpl.
    repeat split; auto; [intros; discriminate|].
    intros tag' attrs' children0 Heq. injection Heq as <- <- <-. eauto.
Qed.

End TreeRewriter.

(** ** The sources of the images of a page *)

(** The nodes below a node, in document order. *)
Fixpoint descendants (n : node) : list node :=
  match n with
  | Text _ => []
  | Element _ _ children => flat_map (fun c => c :: descendants c) children
  end.

(** The sources that [process_images] passes on are those of the [img]
    tags below the soup, wherever they are. *)
Lemma candidate_src_spec attrs src :
  In src (candidate_src attrs)
  <-> attrs !! str "src" = Some src /\ src <> []
      /\ PyStr.startswith src (str "data:") = false.
Proof.
  unfold candidate_src. destruct (attrs !! str "src") as [s|].
  - destruct (PyStr.nonempty s) eqn:Hn;
      destruct (PyStr.startswith s (str "data:")) eqn:Hd; cbn [andb negb].
    + split; [intros []|]. intros (H & _ & Hno).
      injection H as <-. congruence.
    + split.
      * intros [<- | []]. repeat split; [|exact Hd].
        intros ->. discriminate.
      * intros (H & _). injection H as <-. now left.
    + split; [intros []|]. intros (H & Hne & _).
      injection H as <-. now destruct s.
    + split; [intros []|]. intros (H & Hne & _).
      injection H as <-. now destruct s.
  - split; [intros []|]. intros (H & _). discriminate.
Qed.

Lemma image_sources_in_spec src : forall n,
  In src (image_sources_in n)
  <-> exists attrs children,
        In (Element (str "img") attrs children) (n :: descendants n)
        /\ In src (candidate_src attrs).
Proof.
  induction n as [s | tag attrs children IH] using node_tree_ind.
  - simpl. split; [contradiction|].
    intros (a & ch & [H | []] & _). discriminate.
  - cbn [image_sources_in descendants]. rewrite in_app_iff, in_flat_map.
    rewrite List.Forall_forall in IH. split.
    + intros [Hin | (c & Hc & Hin)].
      * case_bool_decide as Htag; [|contradiction]. subst tag.
        exists attrs, children. split; [now left | exact Hin].
      * apply (IH c Hc) in Hin as (a & ch & Hin & Hsrc).
        exists a, ch. split; [|exact Hsrc].
        right. apply in_flat_map. eauto.
    + intros (a & ch & [Heq | Hin] & Hsrc).
      * injection Heq as -> -> ->. left.
        now rewrite bool_decide_eq_true_2.
      * right. apply in_flat_map in Hin as (c & Hc & Hin).
        exists c. split; [exact Hc|]. apply (IH c Hc). eauto.
Qed.

(** The source that [process_images] passes on for one node. *)
Definition source_to_localize (n : node) : list pystr :=
  match n with
  | Text _ => []
  | Element tag attrs _ =>
      if bool_decide (tag = str "img") then candidate_src attrs else []
  end.

Lemma image_sources_in_order : forall n,
  image_sources_in n
  = flat_map source_to_localize (n :: descendants n).
Proof.
  induction n as [s | tag attrs children IH] using node_tree_ind;
    [reflexivity|].
  cbn [image_sources_in descendants flat_map source_to_localize]. f_equal.
  induction IH as [|c cs Hc _ IHcs]; [reflexivity|].
  cbn [flat_map]. rewrite flat_map_app, <- IHcs, Hc. reflexivity.
Qed.

(** The sources are those of the nodes below the soup, in the order of
    the document. *)
Lemma image_sources_order soup :
  image_sources soup = flat_map source_to_localize (descendants soup).
Proof.
  unfold image_sources. destruct soup as [s | tag attrs children];
    [reflexivity|].
  simpl. induction children as [|c cs IH]; [reflexivity|].
  cbn [flat_map]. now rewrite flat_map_app, <- IH, image_sources_in_order.
Qed.

Lemma image_sources_spec soup src :
  In src (image_sources soup)
  <-> exists attrs children,
        In (Element (str "img") attrs children) (descendants soup)
        /\ In src (candidate_src attrs).
Proof.
  unfold image_sources. rewrite in_flat_map. split.
  - intros (c & Hc & Hin).
    apply image_sources_in_spec in Hin as (a & ch & Hin & Hsrc).
    exists a, ch. split; [|exact Hsrc].
    destruct soup as [s | tag attrs children]; [contradiction|].
    simpl in *. apply in_flat_map. eauto.
  - intros (a & ch & Hin & Hsrc).
    destruct soup as [s | tag attrs children]; [contradiction|].
    simpl in *. apply in_flat_map in Hin as (c & Hc & Hin).
    exists c. split; [exact Hc|]. apply image_sources_in_spec. eauto.
Qed.

(** The sources that [process_images] passes on, in plain terms: the
    sources of the [img] tags below the soup that are not empty and do not
    start with the five characters [data:]. *)
Lemma image_sources_members soup src :
  In src (image_sources soup)
  <-> exists attrs children,
        In (Element (str "img") attrs children) (descendants soup)
        /\ attrs !! str "src" = Some src
        /\ src <> []
        /\ forall rest, src <> str "data:" ++ rest.
Proof.
  rewrite image_sources_spec. split.
  - intros (attrs & children & Hin & Hsrc).
    apply candidate_src_spec in Hsrc as (Hsrc & Hne & Hdata).
    pose proof (proj1 (startswith_false _ _) Hdata) as Hno.
    exists attrs, children. auto.
  - intros (attrs & children & Hin & Hsrc & Hne & Hdata).
    exists attrs, children. split; [exact Hin|].
    apply candidate_src_spec. repeat split; auto.
    now apply startswith_false.
Qed.


(** ** The image pattern *)

Lemma strip_prefix_spec p s r : strip_prefix p s = Some r -> s = p ++ r.
Proof.
  revert s. induction p as [|a p IH]; intros s.
  - destruct s; simpl; intros H; now injection H as <-.
  - destruct s as [|b s]; simpl; [discriminate|].
    destruct (N.eqb_spec a b) as [<-|]; [|discriminate].
    intros H. now rewrite (IH _ H).
Qed.

Lemma span_url_spec s run rest : span_url s = (run, rest) -> s = run ++ rest.
Proof.
  revert run rest. induction s as [|c s IH]; intros run rest; simpl.
  - intros H. now injection H as <- <-.
  - destruct (c =? RPAREN)%N.
    + intros H. now injection H as <- <-.
    + destruct (span_url s) as [run' rest'].
      intros H. injection H as <- <-. simpl. now rewrite <- (IH _ _ eq_refl).
Qed.

Lemma span_url_rest s run c rest :
  span_url s = (run, c :: rest) -> c = RPAREN.
Proof.
  revert run. induction s as [|x s IH]; intros run; simpl; [discriminate|].
  destruct (N.eqb_spec x RPAREN) as [->|].
  - intros H. now injection H as _ <- _.
  - destruct (span_url s) as [run' rest'].
    intros H. injection H as _ ->. now apply (IH run').
Qed.

Lemma match_url_spec s url rest :
  match_url s = Some (url, rest) -> s = url ++ str ")" ++ rest.
Proof.
  unfold match_url.
  destruct (strip_prefix (str "http") s) as [s1|] eqn:H1; [|discriminate].
  apply strip_prefix_spec in H1. subst s.
  destruct (match s1 with
            | c :: r => if (c =? 115)%N then (str "https", r)
                        else (str "http", s1)
            | [] => (str "http", s1)
            end) as [scheme s2] eqn:Hsplit.
  assert (Heq : str "http" ++ s1 = scheme ++ s2).
  { destruct s1 as [|c r]; [now injection Hsplit as <- <-|].
    destruct (N.eqb_spec c 115) as [->|]; now injection Hsplit as <- <-. }
  rewrite Heq. clear Heq Hsplit.
  destruct (strip_prefix (str "://") s2) as [s3|] eqn:H3; [|discriminate].
  apply strip_prefix_spec in H3. subst s2.
  destruct (span_url s3) as [run tail] eqn:Hspan.
  destruct run as [|x run]; [discriminate|].
  destruct tail as [|c tail]; [discriminate|].
  intros H. injection H as <- <-.
  rewrite (span_url_rest _ _ _ _ Hspan) in Hspan.
  apply span_url_spec in Hspan. subst s3.
  rewrite <- !app_assoc. reflexivity.
Qed.

Lemma match_alt_spec s : forall alt_rev alt url rest,
  match_alt alt_rev s = Some (alt, url, rest) ->
  rev alt_rev ++ s = alt ++ str "](" ++ url ++ str ")" ++ rest.
Proof.
  assert (Hhere : forall t alt_rev url rest,
    match strip_prefix (str "](") t with
    | Some s1 => match_url s1
    | None => None
    end = Some (url, rest) ->
    rev alt_rev ++ t = rev alt_rev ++ str "](" ++ url ++ str ")" ++ rest).
  { intros t alt_rev url rest H.
    destruct (strip_prefix (str "](") t) as [s1|] eqn:Hp; [|discriminate].
    apply strip_prefix_spec in Hp. apply match_url_spec in H.
    now rewrite Hp, H. }
  induction s as [|c s IH]; intros alt_rev alt url rest; cbn [match_alt].
  - destruct (match strip_prefix (str "](") [] with
              | Some s1 => match_url s1
              | None => None
              end) as [[url' rest']|] eqn:Htail; [|discriminate].
    intros H. injection H as <- <- <-. now apply Hhere.
  - destruct (match strip_prefix (str "](") (c :: s) with
              | Some s1 => match_url s1
              | None => None
              end) as [[url' rest']|] eqn:Htail.
    + intros H. injection H as <- <- <-. now apply Hhere.
    + destruct (c =? PyStr.LF)%N; [discriminate|].
      intros H. apply IH in H. simpl in H.
      now rewrite <- app_assoc in H.
Qed.

Lemma match_image_spec s m :
  match_image s = Some m ->
  group0 m = img_md (alt_text m) (matched_url m)
  /\ s = group0 m ++ after m.
Proof.
  unfold match_image.
  destruct (strip_prefix (str "![") s) as [s1|] eqn:H1; [|discriminate].
  apply strip_prefix_spec in H1.
  destruct (match_alt [] s1) as [[[alt url] rest]|] eqn:H2; [|discriminate].
  apply match_alt_spec in H2. change (rev [] ++ s1) with s1 in H2.
  intros H. injection H as <-.
  cbn [group0 alt_text matched_url after].
  assert (Hs : s = img_md alt url ++ rest).
  { rewrite H1, H2. unfold img_md. now rewrite <- !app_assoc. }
  clear H1 H2. subst s. rewrite length_app.
  replace (length (img_md alt url) + length rest - length rest)
    with (length (img_md alt url)) by lia.
  rewrite take_app_length. auto.
Qed.

(** The pattern on texts that were run through [re.sub] of Python: the
    alternative text takes in an earlier link when only a later one has an
    [http] URL, and a URL runs over line ends up to the parenthesis. *)
Example match_image_plain :
  match_image (str "![x](http://u/v.png) b")
  = Some (mkMatch (str "![x](http://u/v.png)") (str "x")
            (str "http://u/v.png") (str " b")).
Proof. vm_compute. reflexivity. Qed.

Example match_image_lazy_alt :
  match_image (str "![a](b) ![c](https://z)")
  = Some (mkMatch (str "![a](b) ![c](https://z)") (str "a](b) ![c")
            (str "https://z") []).
Proof. vm_compute. reflexivity. Qed.

Example match_image_empty_url : match_image (str "![a](http://)") = None.
Proof. vm_compute. reflexivity. Qed.

Example match_image_unclosed : match_image (str "![a](http://x") = None.
Proof. vm_compute. reflexivity. Qed.

(** ** The text image rewriter *)

(** [re.sub] cuts the text into the characters outside the matches and the
    matches of the pattern, which it looks for from left to right. *)
Inductive piece :=
| Outside (c : N)
| Reference (m : image_match).

Definition source_of (p : piece) : pystr :=
  match p with
  | Outside c => [c]
  | Reference m => group0 m
  end.

(** The pieces of [s]; [skip] counts the characters of [s] that belong to
    the match found last. *)
Fixpoint pieces_from (skip : nat) (s : pystr) : list piece :=
  match s with
  | [] => []
  | c :: r =>
      match skip with
      | S k => pieces_from k r
      | O =>
          match match_image s with
          | Some m => Reference m :: pieces_from (length (group0 m) - 1) r
          | None => Outside c :: pieces_from 0 r
          end
      end
  end.

Definition pieces (s : pystr) : list piece := pieces_from 0 s.

(** The text after a match starts where the match ends. *)
Lemma match_image_skip c r m :
  match_image (c :: r) = Some m ->
  skipn (length (group0 m) - 1) r = after m.
Proof.
  intros Hm. apply match_image_spec in Hm as [Hg Hs].
  destruct (group0 m) as [|x g] eqn:Hg0; [discriminate Hg|].
  simpl in Hs. injection Hs as _ ->.
  cbn [length]. rewrite Nat.sub_succ, Nat.sub_0_r.
  now rewrite drop_app_length.
Qed.

(** The pieces are the text, cut. *)
Lemma pieces_from_source s : forall skip,
  flat_map source_of (pieces_from skip s) = skipn skip s.
Proof.
  induction s as [|c r IH]; intros skip; [now destruct skip|].
  destruct skip as [|k]; [|apply IH]. cbn [pieces_from].
  destruct (match_image (c :: r)) as [m|] eqn:Hm; simpl; rewrite IH.
  - rewrite (match_image_skip _ _ _ Hm).
    now apply match_image_spec in Hm as [_ <-].
  - reflexivity.
Qed.

(** Every piece stands where the scan has found it: the pattern matches at
    the start of a reference, with the groups of that reference, and does
    not match at a character that was left outside. *)
Lemma pieces_from_matches s : forall skip ps p ps',
  pieces_from skip s = ps ++ p :: ps' ->
  match_image (flat_map source_of (p :: ps'))
  = match p with
    | Reference m => Some m
    | Outside _ => None
    end.
Proof.
  induction s as [|c r IH]; intros skip ps p ps' Heq.
  - destruct skip, ps; discriminate.
  - destruct skip as [|k]; [|now apply (IH k ps)].
    cbn [pieces_from] in Heq.
    destruct (match_image (c :: r)) as [m|] eqn:Hm.
    + destruct ps as [|p0 ps0]; simpl in Heq; injection Heq as <- Heq;
        [|exact (IH _ _ _ _ Heq)].
      subst ps'. simpl. rewrite pieces_from_source.
      rewrite (match_image_skip _ _ _ Hm).
      apply match_image_spec in Hm as Hs. destruct Hs as [_ <-]. exact Hm.
    + destruct ps as [|p0 ps0]; simpl in Heq; injection Heq as <- Heq;
        [|exact (IH _ _ _ _ Heq)].
      subst ps'. simpl. rewrite pieces_from_source. exact Hm.
Qed.

(** ** Sequences of steps *)

(** A sequence of steps over a list, each from the world that the one
    before it has left. *)
Inductive chain {A B} (step : A -> World -> B -> World -> Prop)
  : list A -> World -> list B -> World -> Prop :=
| chain_nil w : chain step [] w [] w
| chain_cons a l w b w1 bs w' :
    step a w b w1 -> chain step l w1 bs w' ->
    chain step (a :: l) w (b :: bs) w'.

Lemma chain_app {A B} (step : A -> World -> B -> World -> Prop)
  l1 w bs1 w1 l2 bs2 w' :
  chain step l1 w bs1 w1 -> chain step l2 w1 bs2 w' ->
  chain step (l1 ++ l2) w (bs1 ++ bs2) w'.
Proof.
  induction 1 as [|a l w b w0 bs w1 Hstep _ IH]; intros H2; [exact H2|].
  simpl. econstructor; [exact Hstep | now apply IH].
Qed.

Lemma mapM_chain {A B C D} (f : A -> M B)
  (step : C -> World -> D -> World -> Prop)
  (g : A -> list C) (g' : B -> list D) l :
  Forall (fun a => forall w b w', f a w = (Ok b, w') ->
            chain step (g a) w (g' b) w') l ->
  forall w bs w', mapM f l w = (Ok bs, w') ->
    chain step (flat_map g l) w (flat_map g' bs) w'.
Proof.
  induction 1 as [|a l Ha _ IH]; intros w bs w' Hrun.
  - injection Hrun as <- <-. constructor.
  - apply mapM_cons_inv in Hrun as (b & w1 & bs' & Hb & Hbs & ->).
    simpl. eapply chain_app; eauto.
Qed.





(** The attributes of the [img] tags among a node and its descendants, in
    document order. *)
Fixpoint img_attrs_in (n : node) : list (gmap pystr pystr) :=
  match n with
  | Text _ => []
  | Element tag attrs children =>
      (if bool_decide (tag = str "img") then [attrs] else [])
      ++ flat_map img_attrs_in children
  end.

Definition img_attrs (soup : node) : list (gmap pystr pystr) :=
  flat_map img_attrs_in (contents soup).

Section Rewriters.

Context {E : Env}.

Variables base_url img_folder md_file_path : pystr.

(** The localization of the reference [url] in the world [w], when it
    returns: [download_image] has failed and there is no local reference,
    or it has returned the path of the file and the local reference is that
    path relative to the directory of the Markdown file, with forward
    slashes. *)
Definition localized (url : pystr) (w : World) (rel : option pystr)
  (w' : World) : Prop :=
  exists local,
    download_image url base_url img_folder w = (Ok local, w')
    /\ match local with
       | Some ((_ :: _) as local_path) =>
           exists r, relpath local_path (dirname md_file_path) = Ok r
                     /\ rel = Some (PyStr.replace 92%N 47%N r)
       | _ => rel = None
       end.

(** One turn of the loop of [process_images]: a tag without a source to
    localize is left alone; the [src] of another tag is replaced when the
    localization has succeeded, and by nothing else. *)
Definition img_rewritten (attrs : gmap pystr pystr) (w : World)
  (attrs' : gmap pystr pystr) (w' : World) : Prop :=
  match candidate_src attrs with
  | [] => attrs' = attrs /\ w' = w
  | src :: _ =>
      exists rel,
        localized src w rel w'
        /\ attrs' = match rel with
                    | Some r => <[str "src" := r]> attrs
                    | None => attrs
                    end
  end.

(** One piece of the text under [re.sub]: a character outside the matches
    is kept; a match is kept when the localization has failed, and is
    replaced by the same text with the local reference for its URL when it
    has succeeded. *)
Definition piece_rewritten (p : piece) (w : World) (new : pystr)
  (w' : World) : Prop :=
  match p with
  | Outside c => new = [c] /\ w' = w
  | Reference m =>
      exists rel,
        localized (matched_url m) w rel w'
        /\ new = match rel with
                 | Some r => img_md (alt_text m) r
                 | None => group0 m
                 end
  end.

Lemma relative_to_md_run p w :
  relative_to_md p md_file_path w
  = (match relpath p (dirname md_file_path) with
     | Ok r => Ok (PyStr.replace 92%N 47%N r)
     | Raise e => Raise e
     end, w).
Proof.
  unfold relative_to_md, bind, lift.
  now destruct (relpath p (dirname md_file_path)).
Qed.

Lemma process_img_rewritten attrs w attrs' w' :
  process_img base_url img_folder md_file_path attrs w = (Ok attrs', w') ->
  img_rewritten attrs w attrs' w'.
Proof.
  unfold process_img, img_rewritten, candidate_src, localized.
  destruct (attrs !! str "src") as [src|];
    [|intros H; now injection H as <- <-].
  destruct (PyStr.nonempty src); [|intros H; now injection H as <- <-].
  destruct (PyStr.startswith src (str "data:"));
    [intros H; now injection H as <- <-|].
  simpl. intros H. apply bind_inv_ok in H as (local & w1 & Hrun & H).
  destruct local as [[|c p]|]; simpl in H.
  - injection H as <- <-. exists None.
    split; [|reflexivity]. exists (Some []). auto.
  - unfold bind in H. rewrite relative_to_md_run in H.
    destruct (relpath (c :: p) (dirname md_file_path)) as [r|e] eqn:Hrel;
      [|discriminate].
    injection H as <- <-. exists (Some (PyStr.replace 92%N 47%N r)).
    split; [|reflexivity]. exists (Some (c :: p)). eauto.
  - injection H as <- <-. exists None.
    split; [|reflexivity]. exists None. auto.
Qed.

Lemma replace_url_rewritten m w new w' :
  replace_url base_url img_folder md_file_path m w = (Ok new, w') ->
  piece_rewritten (Reference m) w new w'.
Proof.
  unfold replace_url, piece_rewritten, localized.
  intros H. apply bind_inv_ok in H as (local & w1 & Hrun & H).
  destruct local as [[|c p]|]; simpl in H.
  - injection H as <- <-. exists None.
    split; [|reflexivity]. exists (Some []). auto.
  - unfold bind in H. rewrite relative_to_md_run in H.
    destruct (relpath (c :: p) (dirname md_file_path)) as [r|e] eqn:Hrel;
      [|discriminate].
    injection H as <- <-. exists (Some (PyStr.replace 92%N 47%N r)).
    split; [|reflexivity]. exists (Some (c :: p)). eauto.
  - injection H as <- <-. exists None.
    split; [|reflexivity]. exists None. auto.
Qed.

Lemma process_images_in_chain n : forall w n' w',
  process_images_in base_url img_folder md_file_path n w = (Ok n', w') ->
  chain img_rewritten (img_attrs_in n) w (img_attrs_in n') w'.
Proof.
  induction n as [s | tag attrs children IH] using node_tree_ind;
    intros w n' w' Hrun.
  - injection Hrun as <- <-. constructor.
  - simpl in Hrun.
    apply bind_inv_ok in Hrun as (attrs' & w1 & Hattrs & Hrun).
    apply bind_inv_ok in Hrun as (children' & w2 & Hch & Hrun).
    injection Hrun as <- <-. simpl.
    apply (chain_app _ _ _ _ w1).
    + case_bool_decide.
      * apply process_img_rewritten in Hattrs.
        econstructor; [exact Hattrs | constructor].
      * injection Hattrs as <- <-. constructor.
    + eapply mapM_chain; [exact IH | exact Hch].
Qed.

Lemma process_images_erase soup w soup' w' :
  process_images soup base_url img_folder md_file_path w = (Ok soup', w') ->
  erase_src soup' = erase_src soup.
Proof.
  intros H.
  apply process_images_ok in H as (_ & Hcontents & Htext & Helem).
  destruct soup as [s | tag attrs children].
  - now rewrite (Htext s eq_refl).
  - destruct (Helem _ _ _ eq_refl) as [children' ->].
    simpl in *. now rewrite Hcontents.
Qed.

Lemma process_images_chain soup w soup' w' :
  process_images soup base_url img_folder md_file_path w = (Ok soup', w') ->
  chain img_rewritten (img_attrs soup) w (img_attrs soup') w'.
Proof.
  destruct soup as [s | tag attrs children]; simpl; intros Hrun.
  - injection Hrun as <- <-. constructor.
  - apply bind_inv_ok in Hrun as (children' & w1 & Hch & Hrun).
    injection Hrun as <- <-. unfold img_attrs. simpl.
    eapply mapM_chain; [|exact Hch].
    apply List.Forall_forall. intros c _. apply process_images_in_chain.
Qed.

Lemma sub_images_chain s : forall skip w out w',
  sub_images (replace_url base_url img_folder md_file_path) skip s w
  = (Ok out, w') ->
  exists news,
    chain piece_rewritten (pieces_from skip s) w news w'
    /\ out = concat news.
Proof.
  induction s as [|c r IH]; intros skip w out w' Hrun.
  - simpl in Hrun. injection Hrun as <- <-. exists []. split; constructor.
  - destruct skip as [|k]; [|now apply IH].
    cbn [sub_images pieces_from] in *.
    destruct (match_image (c :: r)) as [m|] eqn:Hm.
    + apply bind_inv_ok in Hrun as (new & w1 & Hnew & Hrun).
      apply bind_inv_ok in Hrun as (out' & w2 & Hout & Hrun).
      injection Hrun as <- <-.
      apply IH in Hout as (news & Hchain & ->).
      apply replace_url_rewritten in Hnew.
      exists (new :: news). split; [|reflexivity].
      econstructor; [exact Hnew | exact Hchain].
    + apply bind_inv_ok in Hrun as (out' & w1 & Hout & Hrun).
      injection Hrun as <- <-.
      apply IH in Hout as (news & Hchain & ->).
      exists ([c] :: news). split; [|reflexivity].
      econstructor; [split; reflexivity | exact Hchain].
Qed.

(** C9. The two image rewriters touch nothing but the URL of a reference
    that was localized.  In the tree: a run of [process_images] that
    returns has gone through the [img] tags in document order, and for
    each has either left the attributes as they are (the tag has no source
    to localize, or [download_image] has returned [None] for its source)
    or, [download_image] having returned a path, has set [src] to the
    relative path of the file; nothing else in the tree has changed.  In
    the text: a run of [replace_md_image_urls] that returns has gone
    through the pieces of the text, which are the matches of the pattern,
    found from left to right, and the characters between them; every
    character outside the matches is kept, a match for which
    [download_image] has returned [None] is kept as it is, and a match
    [![alt](url)] for which it has returned a path is replaced by
    [![alt](rel)], with the same alternative text and the relative path of
    the file. *)
Theorem image_rewriters_frame :
  (forall soup w soup' w',
     process_images soup base_url img_folder md_file_path w
     = (Ok soup', w') ->
     erase_src soup' = erase_src soup
     /\ chain img_rewritten (img_attrs soup) w (img_attrs soup') w')
  /\ (forall text w out w',
        replace_md_image_urls text base_url img_folder md_file_path w
        = (Ok out, w') ->
        exists news,
          chain piece_rewritten (pieces text) w news w'
          /\ out = concat news)
  /\ (forall text,
        flat_map source_of (pieces text) = text
        /\ forall ps p ps',
             pieces text = ps ++ p :: ps' ->
             match p with
             | Outside c =>
                 match_image (flat_map source_of (p :: ps')) = None
             | Reference m =>
                 match_image (flat_map source_of (p :: ps')) = Some m
                 /\ group0 m = img_md (alt_text m) (matched_url m)
             end).
Proof.
  refine (conj _ (conj _ _)).
  - intros soup w soup' w' Hrun. split.
    + now apply process_images_erase in Hrun.
    + now apply process_images_chain in Hrun.
  - intros text w out w' Hrun. now apply sub_images_chain in Hrun.
  - intros text. split; [apply (pieces_from_source text 0)|].
    intros ps p ps' Heq.
    pose proof (pieces_from_matches _ _ _ _ _ Heq) as Hm.
    destruct p as [c|m]; [exact Hm|].
    split; [exact Hm|]. now apply match_image_spec in Hm.
Qed.





End Rewriters.


(** A source written [DATA:] is not skipped: it is passed to
    [download_image]. *)
Example process_img_upper_case_data :
  calls (snd (process_img (E := png_env) (str "https://ex.com/page")
                (str "out/images") (str "out/page.md")
                {[ str "src" := str "DATA:image/png;base64,AAAA" ]}
                empty_world))
  = [str "DATA:image/png;base64,AAAA"].
Proof. vm_compute. reflexivity. Qed.

(** ** The main content selector *)

Lemma first_selected_none sels soup :
  Forall (fun sel => select_one sel soup = None) sels ->
  first_selected sels soup = None.
Proof.
  induction 1 as [|sel sels Hsel _ IH]; simpl; [reflexivity|].
  now rewrite Hsel.
Qed.

Lemma first_selected_first before sel after soup content :
  Forall (fun sel => select_one sel soup = None) before ->
  select_one sel soup = Some content ->
  first_selected (before ++ sel :: after) soup = Some content.
Proof.
  intros Hbefore Hsel.
  induction Hbefore as [|s before Hs _ IH]; simpl.
  - now rewrite Hsel.
  - now rewrite Hs.
Qed.

Lemma select_in_matches sels x : forall n,
  In x (select_in sels n) -> node_matches sels x = true.
Proof.
  induction n as [s | tag attrs children IH] using node_tree_ind;
    intros Hin.
  - simpl in Hin. contradiction.
  - cbn [select_in] in Hin. apply in_app_or in Hin as [Hin | Hin].
    + destruct (node_matches sels (Element tag attrs children)) eqn:Hm;
        [|contradiction].
      destruct Hin as [<- | []]. exact Hm.
    + apply in_flat_map in Hin as (c & Hc & Hin).
      rewrite List.Forall_forall in IH. now apply (IH c).
Qed.

Lemma select_one_matches sel soup content :
  select_one sel soup = Some content -> node_matches [sel] content = true.
Proof.
  unfold select_one, select. intros H.
  destruct (flat_map (select_in [sel]) (contents soup)) as [|x l] eqn:Hl;
    [discriminate|].
  injection H as ->.
  assert (Hin : In content (flat_map (select_in [sel]) (contents soup)))
    by (rewrite Hl; now left).
  apply in_flat_map in Hin as (c & _ & Hin).
  now apply select_in_matches in Hin.
Qed.

(** C8. The selectors are tried in the order [article], [main],
    [.main-content], [.post-content], [.entry-content], [.content],
    [#content], and the first that selects a node gives the main content,
    a node that matches it; when none selects anything the main content is
    the [body] tag, and the whole soup when there is no [body].  The
    selection is a function of the tree. *)
Theorem select_main_content_spec (soup : node) :
  MAIN_SELECTORS
  = [ByTag (str "article"); ByTag (str "main"); ByClass (str "main-content");
     ByClass (str "post-content"); ByClass (str "entry-content");
     ByClass (str "content"); ById (str "content")]
  /\ (forall before sel after content,
        MAIN_SELECTORS = before ++ sel :: after ->
        Forall (fun s => select_one s soup = None) before ->
        select_one sel soup = Some content ->
        select_main_content soup = content
        /\ node_matches [sel] content = true)
  /\ (forall body,
        Forall (fun s => select_one s soup = None) MAIN_SELECTORS ->
        find_tag (str "body") soup = Some body ->
        select_main_content soup = body)
  /\ (Forall (fun s => select_one s soup = None) MAIN_SELECTORS ->
      find_tag (str "body") soup = None ->
      select_main_content soup = soup).
Proof.
  split; [reflexivity|]. unfold select_main_content.
  refine (conj _ (conj _ _)).
  - intros before sel after content Hlist Hbefore Hsel. split.
    + rewrite Hlist.
      now rewrite (first_selected_first _ _ _ _ _ Hbefore Hsel).
    + now apply select_one_matches in Hsel.
  - intros body Hnone Hbody. now rewrite first_selected_none, Hbody.
  - intros Hnone Hbody. now rewrite first_selected_none, Hbody.
Qed.

(** A page with an [article] inside [main], a page with a [.content]
    division only, and a fragment without a [body]. *)
Definition article_page : node :=
  Element (str "[document]") ∅
    [Element (str "body") ∅
       [Element (str "main") ∅
          [Element (str "article") ∅ [Text (str "story")];
           Text (str "aside")]]].

Definition content_page : node :=
  Element (str "[document]") ∅
    [Element (str "body") ∅
       [Element (str "div") {[ str "class" := str "wide content" ]}
          [Text (str "text")];
        Element (str "div") {[ str "id" := str "content" ]} []]].

Example select_article :
  select_main_content article_page
  = Element (str "article") ∅ [Text (str "story")].
Proof. vm_compute. reflexivity. Qed.

Example select_content_class :
  select_main_content content_page
  = Element (str "div") {[ str "class" := str "wide content" ]}
      [Text (str "text")].
Proof. vm_compute. reflexivity. Qed.

Example select_no_body :
  select_main_content (Element (str "[document]") ∅ [Text (str "bare")])
  = Element (str "[document]") ∅ [Text (str "bare")].
Proof. vm_compute. reflexivity. Qed.

(** ** The page pipeline *)

(** A computation that only adds to the log of calls. *)
Definition grows {A} (m : M A) : Prop :=
  forall w, exists rest, calls (snd (m w)) = calls w ++ rest.

Lemma grows_keeps {A} (m : M A) : keeps calls m -> grows m.
Proof. intros H w. exists []. now rewrite app_nil_r. Qed.

Lemma grows_bind {A B} (m : M A) (k : A -> M B) :
  grows m -> (forall a, grows (k a)) -> grows (bind m k).
Proof.
  intros Hm Hk w. unfold bind. destruct (Hm w) as [rest1 H1].
  destruct (m w) as [[a|e] w1]; simpl in *; [|eauto].
  destruct (Hk a w1) as [rest2 H2]. exists (rest1 ++ rest2).
  now rewrite H2, H1, app_assoc.
Qed.

Section Page.

Context {E : Env}.

Lemma grows_replace_url base_url img_folder md_file_path m :
  grows (replace_url base_url img_folder md_file_path m).
Proof.
  unfold replace_url. apply grows_bind.
  - intros w. eexists. apply download_image_calls.
  - intros local. apply grows_keeps.
    repeat first [apply keeps_calls_relative | keeps_step].
Qed.

Lemma grows_sub_images repl :
  (forall m, grows (repl m)) -> forall s skip, grows (sub_images repl skip s).
Proof.
  intros Hrepl. induction s as [|c r IH]; intros skip.
  - apply grows_keeps, keeps_ret.
  - destruct skip as [|k]; [|apply IH]. cbn [sub_images].
    destruct (match_image (c :: r)) as [m|].
    + apply grows_bind; [apply Hrepl|]. intros new.
      apply grows_bind; [apply IH|]. intros out.
      apply grows_keeps, keeps_ret.
    + apply grows_bind; [apply IH|]. intros out.
      apply grows_keeps, keeps_ret.
Qed.

Lemma keeps_calls_prepare save_dir img_folder :
  keeps calls (prepare_folders save_dir img_folder).
Proof.
  unfold prepare_folders. repeat first [apply keeps_calls_makedirs | keeps_step].
Qed.

(** What a conversion that returns went through, in the order of the
    code: parse, rewrite the images of the whole tree, remove the unwanted
    elements, select, convert, rewrite the images of the text. *)
Lemma convert_page_inv r url save_dir img_folder w res w' :
  convert_page r url save_dir img_folder w = (Ok res, w') ->
  exists soup soup' w1 markdown out,
    let md_file_path := md_path_of save_dir (page_title soup) in
    parse_html (concat (chunks r)) = Ok soup
    /\ process_images soup url img_folder md_file_path w = (Ok soup', w1)
    /\ markdownify (select_main_content (decompose_all NOISE soup'))
       = Ok markdown
    /\ replace_md_image_urls markdown url img_folder md_file_path w1
       = (Ok out, w')
    /\ res = (Some (str "# " ++ page_title soup ++ [PyStr.LF; PyStr.LF] ++ out),
              Some (page_title soup), Some md_file_path).
Proof.
  unfold convert_page. intros H.
  apply bind_inv_ok in H as (soup & w0 & Hparse & H).
  unfold lift in Hparse. injection Hparse as Hparse <-.
  apply bind_inv_ok in H as (soup' & w1 & Htree & H).
  apply bind_inv_ok in H as (markdown & w1' & Hmd & H).
  unfold lift in Hmd. injection Hmd as Hmd <-.
  apply bind_inv_ok in H as (out & w2 & Htext & H).
  injection H as <- <-.
  exists soup, soup', w1, markdown, out. cbv zeta. auto 10.
Qed.

Lemma page_failed_run e w :
  page_failed e w
  = match print_error (msg_text (MsgPageError e)) with
    | Some e' => (Raise e', w)
    | None =>
        (Ok (None, Some (str "Error_Page"), None), printed (MsgPageError e) w)
    end.
Proof.
  unfold page_failed, bind. rewrite print_run.
  now destruct (print_error _).
Qed.

(** The request for the page. *)
Lemma requests_get_page url w r w1 :
  requests_get url false w = (Ok r, w1) ->
  http_get (requests w) url = Ok r /\ stream_error r = None
  /\ w1 = mkWorld (fs w) (requests w ++ [url]) (stdout w) (calls w).
Proof.
  unfold requests_get.
  destruct (http_get (requests w) url) as [resp|e]; [|discriminate].
  destruct (stream_error resp) eqn:Hs; [discriminate|].
  intros H. injection H as <- <-. auto.
Qed.

(** The result of the handler of the page is never a document, and never
    [(None, None, None)]. *)
Lemma page_failed_result e w res w' :
  (if is_exception e then page_failed e w else (Raise e, w)) = (Ok res, w') ->
  res = (None, Some (str "Error_Page"), None).
Proof.
  rewrite page_failed_run. destruct (is_exception e); [|discriminate].
  destruct (print_error _); [discriminate|].
  intros H. now injection H as <- _.
Qed.

(** A run that returns a document fetched the page with status 200 and
    converted it. *)
Lemma fetch_and_convert_inv url save_dir img_folder w doc title path w' :
  fetch_and_convert_to_markdown url save_dir img_folder w
  = (Ok (Some doc, title, path), w') ->
  exists folder w0 r w1,
    prepare_folders save_dir img_folder w = (Ok folder, w0)
    /\ requests_get url false w0 = (Ok r, w1)
    /\ status_code r = 200%Z
    /\ convert_page r url save_dir folder w1
       = (Ok (Some doc, title, path), w').
Proof.
  unfold fetch_and_convert_to_markdown, try_except.
  destruct (bind (prepare_folders save_dir img_folder)
              (fun folder => fetch_page url save_dir folder) w)
    as [[res|e] wb] eqn:Hbody.
  2: { intros H. apply page_failed_result in H. discriminate. }
  intros H. injection H as -> ->.
  apply bind_inv_ok in Hbody as (folder & w0 & Hprep & Hbody).
  unfold fetch_page in Hbody.
  apply bind_inv_ok in Hbody as (r & w1 & Hget & Hbody).
  exists folder, w0, r, w1.
  destruct (Z.eqb_spec (status_code r) 200) as [Hstatus|Hstatus];
    simpl in Hbody; [auto|].
  apply bind_inv_ok in Hbody as ([] & w2 & _ & Hbody). discriminate.
Qed.

(** C1, as the code has it.  The images of the tree are rewritten before
    the unwanted elements are removed.  A run that returns a document has
    made the folders, received the response to its request for the page,
    with status 200, and parsed the body of that response; on the parsed
    tree, and before anything else is passed to [download_image], it has
    run [process_images], which has passed to [download_image], in
    document order, the source of every [img] tag below the soup that has
    a source which is not empty and does not start with [data:], the tags
    inside [nav], [footer] and the other unwanted elements included; the
    removal comes after, on the tree that [process_images] has returned,
    before the selection of the main content, and the document is the
    title and the Markdown of that selection with its image references
    rewritten. *)
Theorem images_rewritten_before_cleaning (url save_dir : pystr)
  (img_folder : option pystr) (w : World) (doc : pystr)
  (title path : option pystr) :
  fst (fetch_and_convert_to_markdown url save_dir img_folder w)
  = Ok (Some doc, title, path) ->
  let w' := snd (fetch_and_convert_to_markdown url save_dir img_folder w) in
  let unwanted :=
    [ByTag (str "script"); ByTag (str "style"); ByTag (str "iframe");
     ByTag (str "nav"); ByTag (str "footer"); ByClass (str "sidebar");
     ByClass (str "advertisement"); ByClass (str "ads")] in
  exists folder w0 r soup soup' w2 markdown out,
    let md_file_path := md_path_of save_dir (page_title soup) in
    let w1 :=
      mkWorld (fs w0) (requests w0 ++ [url]) (stdout w0) (calls w0) in
    prepare_folders save_dir img_folder w = (Ok folder, w0)
    /\ http_get (requests w0) url = Ok r
    /\ status_code r = 200%Z
    /\ parse_html (concat (chunks r)) = Ok soup
    /\ process_images soup url folder md_file_path w1 = (Ok soup', w2)
    /\ calls w2 = calls w ++ image_sources soup
    /\ image_sources soup
       = flat_map source_to_localize (descendants soup)
    /\ (forall src,
          In src (image_sources soup)
          <-> exists attrs children,
                In (Element (str "img") attrs children) (descendants soup)
                /\ attrs !! str "src" = Some src
                /\ src <> []
                /\ forall rest, src <> str "data:" ++ rest)
    /\ erase_src soup' = erase_src soup
    /\ markdownify (select_main_content (decompose_all unwanted soup'))
       = Ok markdown
    /\ replace_md_image_urls markdown url folder md_file_path w2
       = (Ok out, w')
    /\ doc = str "# " ++ page_title soup ++ [PyStr.LF; PyStr.LF] ++ out
    /\ title = Some (page_title soup)
    /\ path = Some md_file_path
    /\ exists rest, calls w' = calls w ++ image_sources soup ++ rest.
Proof.
  intros H.
  destruct (fetch_and_convert_to_markdown url save_dir img_folder w)
    as [res w'] eqn:Hrun.
  simpl in H. subst res. simpl.
  apply fetch_and_convert_inv in Hrun
    as (folder & w0 & r & w1 & Hprep & Hget & Hstatus & Hconv).
  apply requests_get_page in Hget as (Hget & _ & ->).
  apply convert_page_inv in Hconv
    as (soup & soup' & w2 & markdown & out & Hparse & Htree & Hmd & Htext
        & Hres).
  injection Hres as -> -> ->.
  pose proof (keeps_calls_prepare save_dir img_folder w) as Hc0.
  rewrite Hprep in Hc0. simpl in Hc0.
  pose proof (process_images_erase _ _ _ _ _ _ _ Htree) as Herase.
  apply process_images_ok in Htree as Hok. destruct Hok as (Hc2 & _).
  simpl in Hc2. rewrite Hc0 in Hc2.
  destruct (grows_sub_images _ (grows_replace_url url folder
              (md_path_of save_dir (page_title soup)))
              markdown 0 w2) as [rest Hc3].
  unfold replace_md_image_urls in Htext. rewrite Htext in Hc3. simpl in Hc3.
  exists folder, w0, r, soup, soup', w2, markdown, out. cbv zeta.
  repeat split; auto.
  - apply image_sources_order.
  - apply image_sources_members.
  - apply image_sources_members.
  - exists rest. now rewrite Hc3, Hc2, app_assoc.
Qed.


End Page.

(** ** The pipeline on the reference environment *)

Definition page_url : pystr := str "https://ex.com/page".

Definition ok_response : response := mkResponse 200 [[Byte.x3c]] None.

(** A page whose only image sits in the navigation bar. *)
Definition banner_url : pystr := str "http://ads.example/banner.png".

Definition nav_page : node :=
  Element (str "[document]") ∅
    [Element (str "html") ∅
       [Element (str "head") ∅
          [Element (str "title") ∅ [Text (str "Hello World")]];
        Element (str "body") ∅
          [Element (str "nav") ∅
             [Element (str "img") {[ str "src" := banner_url ]} []];
           Element (str "p") ∅ [Text (str "Hello")]]]].

Definition nav_site (url : pystr) : option response :=
  if bool_decide (url = page_url) || bool_decide (url = banner_url)
  then Some ok_response else None.

Definition nav_env : Env := reference_env (web nav_site) nav_page.

(** C1 as the specification states it fails: the image inside [nav] is
    passed to [download_image] and fetched, although the removal of the
    unwanted elements leaves no image in the tree. *)
Lemma nav_image_is_localized :
  image_sources nav_page = [banner_url]
  /\ image_sources (decompose_all NOISE nav_page) = []
  /\ fst (fetch_and_convert_to_markdown (E := nav_env) page_url (str "out")
           None empty_world)
     = Ok (Some (str "# Hello World" ++ [10; 10]%N ++ str "Hello"),
           Some (str "Hello World"),
           Some (str "out/Hello World_20240101_120000.md"))
  /\ calls (snd (fetch_and_convert_to_markdown (E := nav_env) page_url
                   (str "out") None empty_world))
     = [banner_url]
  /\ requests (snd (fetch_and_convert_to_markdown (E := nav_env) page_url
                      (str "out") None empty_world))
     = [page_url; banner_url].
Proof. vm_compute. repeat split; reflexivity. Qed.

(** [images_rewritten_before_cleaning] on the page with the navigation
    bar: the banner is the first URL passed to [download_image]. *)
Lemma images_rewritten_before_cleaning_witness :
  fst (fetch_and_convert_to_markdown (E := nav_env) page_url (str "out")
         None empty_world)
  = Ok (Some (str "# Hello World" ++ [10; 10]%N ++ str "Hello"),
        Some (str "Hello World"),
        Some (str "out/Hello World_20240101_120000.md"))
  /\ exists rest,
       calls (snd (fetch_and_convert_to_markdown (E := nav_env) page_url
                     (str "out") None empty_world))
       = image_sources nav_page ++ rest.
Proof.
  assert (H : fst (fetch_and_convert_to_markdown (E := nav_env) page_url
                     (str "out") None empty_world)
              = Ok (Some (str "# Hello World" ++ [10; 10]%N ++ str "Hello"),
                    Some (str "Hello World"),
                    Some (str "out/Hello World_20240101_120000.md")))
    by (vm_compute; reflexivity).
  split; [exact H|].
  destruct (images_rewritten_before_cleaning (E := nav_env) _ _ _ _ _ _ _ H)
    as (folder & w0 & r & soup & soup' & w2 & markdown & out & _ & _ & _
        & Hparse & _ & _ & _ & _ & _ & _ & _ & _ & _ & _ & Hrest).
  injection Hparse as <-. exact Hrest.
Defined.




(** A page URL with a lone surrogate on the server that answers 404: the
    line that reports the status cannot be printed, and the run ends in the
    handler. *)
Example fetch_error_line_not_printed :
  fst (fetch_and_convert_to_markdown (E := missing_env)
         (str "https://ex.com/" ++ [55296%N]) (str "out") None empty_world)
  = Ok (None, Some (str "Error_Page"), None).
Proof. vm_compute. reflexivity. Qed.

(** A transport that refuses every URL and repeats it in the text of its
    exception. *)
Definition refusing_env : Env :=
  reference_env
    (fun _ url => Raise (Exception (str "Invalid URL " ++ url))) (Text []).

(** A page URL that is a lone surrogate: the handler of the function
    catches the exception of the request, the line it prints holds the
    text of that exception, and the exception of that [print] leaves
    [fetch_and_convert_to_markdown]. *)
Example fetch_and_convert_raises :
  fst (fetch_and_convert_to_markdown (E := refusing_env) [55296%N]
         (str "out") None empty_world)
  = Raise (Exception
             (str "'utf-8' codec can't encode character '\ud800' in position 21: surrogates not allowed")).
Proof. vm_compute. reflexivity. Qed.

(** On a standard output that encodes to ASCII the line of line 188 can
    be printed and the line of the handler cannot: a page that answers 404
    gives [(None, None, None)], and a page that cannot be reached makes the
    function raise. *)
Example fetch_and_convert_ascii_stdout :
  fst (fetch_and_convert_to_markdown (E := with_ascii_stdout missing_env)
         page_url (str "out") None empty_world)
  = Ok (None, None, None)
  /\ fst (fetch_and_convert_to_markdown (E := with_ascii_stdout png_env)
            page_url (str "out") None empty_world)
     = Raise (Exception
                (str "'ascii' codec can't encode characters in position 0-6: ordinal not in range(128)")).
Proof. vm_compute. split; reflexivity. Qed.

(** The scenarios of the specification on one page: an image with a
    relative source, an image in an ignored format, and an image that
    appears only as Markdown text. *)
Definition hello_page : node :=
  Element (str "[document]") ∅
    [Element (str "html") ∅
       [Element (str "head") ∅
          [Element (str "title") ∅ [Text (str "Hello World")]];
        Element (str "body") ∅
          [Element (str "img")
             {[ str "src" := str "/a.png"; str "alt" := str "pic" ]} [];
           Element (str "img")
             {[ str "src" := str "https://ex.com/anim.gif";
                str "alt" := str "gif" ]} [];
           Text (str " ![alt](https://ex.com/b.jpg)") ]]].

Definition hello_site (url : pystr) : option response :=
  if bool_decide (url ∈ [page_url; str "https://ex.com/a.png";
                         str "https://ex.com/b.jpg";
                         str "https://ex.com/anim.gif"])
  then Some ok_response else None.

Definition hello_env : Env := reference_env (web hello_site) hello_page.

Example hello_page_converted :
  fst (fetch_and_convert_to_markdown (E := hello_env) page_url (str "out")
         None empty_world)
  = Ok (Some (str "# Hello World" ++ [10; 10]%N
              ++ str "![pic](images/c98b0c87944d062e1bacda2032deb838.png)"
              ++ str "![gif](https://ex.com/anim.gif)"
              ++ str " ![alt](images/bebeed9f32a2ca05b84a9ec429b97b00.jpg)"),
        Some (str "Hello World"),
        Some (str "out/Hello World_20240101_120000.md"))
  /\ requests (snd (fetch_and_convert_to_markdown (E := hello_env) page_url
                      (str "out") None empty_world))
     = [page_url; str "https://ex.com/a.png"; str "https://ex.com/b.jpg"]
  /\ fs (snd (fetch_and_convert_to_markdown (E := hello_env) page_url
                (str "out") None empty_world))
       !! str "out/images/c98b0c87944d062e1bacda2032deb838.png"
     = Some (File [Byte.x3c]).
Proof. vm_compute. repeat split; reflexivity. Qed.

(** The path of an image in [out/images], seen from a document in
    [out]. *)
Example relative_path_of_image :
  fst (relative_to_md (E := hello_env) (str "out/images/abc.jpg")
         (str "out/doc.md") empty_world)
  = Ok (str "images/abc.jpg").
Proof. vm_compute. reflexivity. Qed.

(** Scenario B: the page answers 404. *)
Example missing_page :
  fst (fetch_and_convert_to_markdown (E := missing_env) page_url (str "out")
         None empty_world)
  = Ok (None, None, None).
Proof. vm_compute. reflexivity. Qed.

(** * Further properties *)

(** ** The shape of a sanitized name *)

(** White space in [s] is the space character alone, and never twice in a
    row; [prev] says that a space stands before [s]. *)
Fixpoint spaced_from (prev : bool) (s : pystr) : Prop :=
  match s with
  | [] => True
  | c :: r =>
      if PyStr.isspace c
      then c = PyStr.SPACE /\ prev = false /\ spaced_from true r
      else spaced_from false r
  end.

(** The text of [sanitize_filename] before it is cut and stripped. *)
Definition sanitize_collapsed (filename : pystr) : pystr :=
  PyStr.sub_spaces
    (PyStr.sub_class invalid_chars PyStr.UNDERSCORE
       (PyStr.replace PyStr.TAB PyStr.SPACE
          (PyStr.replace PyStr.CR PyStr.SPACE
             (PyStr.replace PyStr.LF PyStr.SPACE filename)))).

Lemma sanitize_steps_collapsed s :
  sanitize_steps s
  = PyStr.strip
      (if 100 <? length (sanitize_collapsed s)
       then firstn 97 (sanitize_collapsed s) ++ str "..."
       else sanitize_collapsed s).
Proof. reflexivity. Qed.

Lemma spaced_from_weaken b s : spaced_from b s -> spaced_from false s.
Proof.
  destruct s as [|c r]; simpl; [auto|].
  destruct (PyStr.isspace c); [|auto]. intros (Hc & _ & Hr). auto.
Qed.

Lemma sub_spaces_spaced b s : spaced_from b (PyStr.sub_spaces_from b s).
Proof.
  revert b. induction s as [|c r IH]; intros b; simpl; [exact I|].
  destruct (PyStr.isspace c) eqn:Hc.
  - destruct b; [apply IH|]. simpl.
    change (PyStr.isspace PyStr.SPACE) with true. cbv iota. auto.
  - simpl. rewrite Hc. apply IH.
Qed.

Lemma spaced_from_tail b c r : spaced_from b (c :: r) -> spaced_from false r.
Proof.
  simpl. destruct (PyStr.isspace c).
  - intros (_ & _ & Hr). now apply spaced_from_weaken in Hr.
  - auto.
Qed.

Lemma spaced_from_app_l b s t : spaced_from b (s ++ t) -> spaced_from b s.
Proof.
  revert b. induction s as [|c r IH]; intros b; simpl; [auto|].
  destruct (PyStr.isspace c).
  - intros (Hc & Hb & Hr). eauto.
  - apply IH.
Qed.

Lemma spaced_from_suffix s : forall b t,
  spaced_from b (s ++ t) -> spaced_from false t.
Proof.
  induction s as [|c r IH]; intros b t H.
  - now apply spaced_from_weaken in H.
  - simpl in H. apply spaced_from_tail in H. now apply (IH false).
Qed.

(** Text without white space can follow any spaced text. *)
Lemma spaced_from_app_plain s t : forall b,
  spaced_from b s -> forallb (fun c => negb (PyStr.isspace c)) t = true ->
  spaced_from b (s ++ t).
Proof.
  induction s as [|c r IH]; intros b Hs Ht; simpl in *.
  - clear Hs. revert b. induction t as [|x t IHt]; intros b; simpl; [exact I|].
    simpl in Ht. apply andb_true_iff in Ht as [Hx Ht].
    apply negb_true_iff in Hx. rewrite Hx. now apply IHt.
  - destruct (PyStr.isspace c).
    + destruct Hs as (Hc & Hb & Hr). auto.
    + auto.
Qed.

Lemma lstrip_suffix s : exists t, s = t ++ PyStr.lstrip s.
Proof.
  induction s as [|c r [t Ht]]; simpl; [now exists []|].
  destruct (PyStr.isspace c).
  - exists (c :: t). simpl. now rewrite <- Ht.
  - now exists [].
Qed.

Lemma rstrip_prefix s : exists t, s = PyStr.rstrip s ++ t.
Proof.
  unfold PyStr.rstrip. destruct (lstrip_suffix (rev s)) as [t Ht].
  exists (rev t). rewrite <- rev_app_distr, <- Ht. now rewrite rev_involutive.
Qed.

Lemma strip_spaced b s : spaced_from b s -> spaced_from false (PyStr.strip s).
Proof.
  intros H. unfold PyStr.strip.
  destruct (lstrip_suffix s) as [t Ht]. rewrite Ht in H.
  apply spaced_from_suffix in H.
  destruct (rstrip_prefix (PyStr.lstrip s)) as [t' Ht']. rewrite Ht' in H.
  now apply spaced_from_app_l in H.
Qed.

(** The first character of a stripped text, and the last, are not white
    space. *)
Definition trimmed (s : pystr) : Prop :=
  match s with
  | [] => True
  | c :: _ => PyStr.isspace c = false
  end
  /\ match rev s with
     | [] => True
     | c :: _ => PyStr.isspace c = false
     end.

Lemma lstrip_head s :
  match PyStr.lstrip s with
  | [] => True
  | c :: _ => PyStr.isspace c = false
  end.
Proof.
  induction s as [|c r IH]; simpl; [exact I|].
  destruct (PyStr.isspace c) eqn:Hc; [exact IH | exact Hc].
Qed.

Lemma lstrip_fixed s :
  match s with [] => True | c :: _ => PyStr.isspace c = false end ->
  PyStr.lstrip s = s.
Proof. destruct s as [|c r]; simpl; [auto|]. now intros ->. Qed.

Lemma strip_trimmed s : trimmed (PyStr.strip s).
Proof.
  unfold trimmed, PyStr.strip. split.
  - pose proof (lstrip_head s) as Hh.
    destruct (rstrip_prefix (PyStr.lstrip s)) as [t Ht].
    destruct (PyStr.rstrip (PyStr.lstrip s)) as [|c r]; [exact I|].
    rewrite Ht in Hh. exact Hh.
  - unfold PyStr.rstrip. rewrite rev_involutive. apply lstrip_head.
Qed.

Lemma strip_fixed s : trimmed s -> PyStr.strip s = s.
Proof.
  intros [Hhead Hlast]. unfold PyStr.strip, PyStr.rstrip.
  rewrite (lstrip_fixed s Hhead), (lstrip_fixed (rev s) Hlast).
  apply rev_involutive.
Qed.

Lemma sub_spaces_fixed s : forall b,
  spaced_from b s -> PyStr.sub_spaces_from b s = s.
Proof.
  induction s as [|c r IH]; intros b; simpl; [auto|].
  destruct (PyStr.isspace c).
  - intros (-> & -> & Hr). now rewrite IH.
  - intros Hr. now rewrite IH.
Qed.

Lemma spaced_from_chars b s :
  spaced_from b s ->
  Forall (fun c => PyStr.isspace c = true -> c = PyStr.SPACE) s.
Proof.
  revert b. induction s as [|c r IH]; intros b; simpl; [constructor|].
  destruct (PyStr.isspace c) eqn:Hc.
  - intros (-> & _ & Hr). constructor; eauto.
  - intros Hr. constructor; [congruence | eauto].
Qed.

Lemma spaced_from_no_double b s pre post :
  spaced_from b s -> s <> pre ++ [PyStr.SPACE; PyStr.SPACE] ++ post.
Proof.
  intros Hs ->. apply spaced_from_suffix in Hs. simpl in Hs.
  change (PyStr.isspace PyStr.SPACE) with true in Hs. cbv iota in Hs.
  destruct Hs as (_ & _ & _ & Hfalse & _). discriminate.
Qed.

Lemma map_fixed {A} (f : A -> A) l :
  Forall (fun x => f x = x) l -> map f l = l.
Proof. induction 1 as [|x l Hx _ IH]; simpl; congruence. Qed.

(** The three replacements and the substitution of the forbidden
    characters leave a spaced text of valid characters as it is. *)
Lemma sanitize_collapsed_fixed s :
  Forall valid_char s -> spaced_from false s -> sanitize_collapsed s = s.
Proof.
  intros Hv Hs. unfold sanitize_collapsed, PyStr.sub_spaces.
  assert (Hmap : forall old, PyStr.isspace old = true ->
            old <> PyStr.SPACE -> PyStr.replace old PyStr.SPACE s = s).
  { intros old Hold Hne. unfold PyStr.replace. apply map_fixed.
    eapply Forall_impl; [apply (spaced_from_chars _ _ Hs)|].
    intros c Hc. simpl in Hc.
    destruct (N.eqb_spec c old) as [->|]; [|reflexivity].
    now specialize (Hc Hold). }
  rewrite (Hmap PyStr.LF), (Hmap PyStr.CR), (Hmap PyStr.TAB)
    by (reflexivity || discriminate).
  assert (Hclass : PyStr.sub_class invalid_chars PyStr.UNDERSCORE s = s).
  { unfold PyStr.sub_class. apply map_fixed.
    eapply Forall_impl; [exact Hv|].
    intros c Hc. unfold valid_char in Hc. cbv beta. now rewrite Hc. }
  rewrite Hclass. now apply sub_spaces_fixed.
Qed.

Lemma sanitize_collapsed_spaced s : spaced_from false (sanitize_collapsed s).
Proof. unfold sanitize_collapsed. apply sub_spaces_spaced. Qed.

Lemma sanitize_steps_spaced s : spaced_from false (sanitize_steps s).
Proof.
  rewrite sanitize_steps_collapsed.
  pose proof (sanitize_collapsed_spaced s) as Hs.
  destruct (100 <? length (sanitize_collapsed s)).
  - eapply strip_spaced. apply spaced_from_app_plain; [|reflexivity].
    rewrite <- (firstn_skipn 97 (sanitize_collapsed s)) in Hs.
    apply spaced_from_app_l in Hs. exact Hs.
  - eapply strip_spaced. exact Hs.
Qed.

(** The result of [sanitize_filename] in the terms of its own steps. *)
Lemma sanitize_filename_cases filename :
  sanitize_filename filename = untitled
  \/ exists s, filename = Some s /\ sanitize_steps s <> []
               /\ sanitize_filename filename = sanitize_steps s.
Proof.
  destruct filename as [s|]; [|now left]. simpl.
  destruct (sanitize_steps s) eqn:Hs; simpl; [now left|].
  right. exists s. now rewrite Hs.
Qed.

(** X1. A sanitized name holds no white space but single spaces: every
    white-space character of it is the space character (no line break, no
    tab is left), no two spaces follow each other, and it neither starts
    nor ends with white space. *)
Theorem sanitize_filename_spacing (filename : option pystr) :
  let r := sanitize_filename filename in
  Forall (fun c => PyStr.isspace c = true -> c = PyStr.SPACE) r
  /\ (forall pre post, r <> pre ++ [PyStr.SPACE; PyStr.SPACE] ++ post)
  /\ PyStr.strip r = r.
Proof.
  cbv zeta.
  assert (H : spaced_from false (sanitize_filename filename)
              /\ trimmed (sanitize_filename filename)).
  { destruct (sanitize_filename_cases filename) as [-> | (s & _ & _ & ->)].
    - split; [vm_compute; tauto | split; reflexivity].
    - split; [apply sanitize_steps_spaced|].
      unfold sanitize_steps. apply strip_trimmed. }
  destruct H as [Hs Ht]. split; [now apply spaced_from_chars in Hs|].
  split; [intros pre post; now apply spaced_from_no_double with (b := false)|].
  now apply strip_fixed.
Qed.

Lemma sanitize_fixed s :
  s <> [] -> length s <= 100 -> Forall valid_char s ->
  spaced_from false s -> trimmed s ->
  sanitize_filename (Some s) = s.
Proof.
  intros Hne Hlen Hv Hs Ht. unfold sanitize_filename.
  rewrite sanitize_steps_collapsed, (sanitize_collapsed_fixed s Hv Hs).
  apply Nat.ltb_ge in Hlen. rewrite Hlen, (strip_fixed s Ht).
  now destruct s.
Qed.

Lemma spaced_from_intro s : forall b,
  Forall (fun c => PyStr.isspace c = true -> c = PyStr.SPACE) s ->
  (forall pre post, s <> pre ++ [PyStr.SPACE; PyStr.SPACE] ++ post) ->
  (b = true ->
   match s with [] => True | c :: _ => PyStr.isspace c = false end) ->
  spaced_from b s.
Proof.
  induction s as [|c r IH]; intros b Hchars Hdouble Hhead; simpl; [exact I|].
  apply Forall_cons in Hchars as [Hc Hr].
  assert (Hdouble' : forall pre post,
            r <> pre ++ [PyStr.SPACE; PyStr.SPACE] ++ post).
  { intros pre post ->. now apply (Hdouble (c :: pre) post). }
  destruct (PyStr.isspace c) eqn:Hsp.
  - specialize (Hc eq_refl). subst c. split; [reflexivity|]. split.
    + destruct b; [|reflexivity]. specialize (Hhead eq_refl). discriminate.
    + apply IH; auto. intros _. destruct r as [|x r']; [exact I|].
      destruct (PyStr.isspace x) eqn:Hx; [|reflexivity].
      apply Forall_cons in Hr as [Hx' _]. specialize (Hx' Hx). subst x.
      exfalso. now apply (Hdouble [] r').
  - apply IH; auto. discriminate.
Qed.

(** X2. A name that is clean already is returned as it is: a non-empty
    text of at most 100 characters, without forbidden characters, whose
    white space is single spaces inside the text only. *)
Theorem sanitize_filename_keeps_clean (s : pystr) :
  s <> [] ->
  length s <= 100 ->
  Forall (fun c => c ∉ invalid_chars) s ->
  Forall (fun c => PyStr.isspace c = true -> c = PyStr.SPACE) s ->
  (forall pre post, s <> pre ++ [PyStr.SPACE; PyStr.SPACE] ++ post) ->
  PyStr.strip s = s ->
  sanitize_filename (Some s) = s.
Proof.
  intros Hne Hlen Hv Hchars Hdouble Hstrip.
  apply sanitize_fixed; auto.
  - eapply Forall_impl; [exact Hv|]. intros c. apply valid_char_spec.
  - apply spaced_from_intro; auto. discriminate.
  - rewrite <- Hstrip. apply strip_trimmed.
Qed.

(** [sanitize_filename_keeps_clean] on a title of two words. *)
Lemma sanitize_filename_keeps_clean_witness :
  sanitize_filename (Some (str "Hello World")) = str "Hello World".
Proof.
  apply sanitize_filename_keeps_clean.
  - discriminate.
  - vm_compute. lia.
  - eapply Forall_impl; [|intros c; apply valid_char_spec].
    repeat constructor.
  - apply (spaced_from_chars false). vm_compute. tauto.
  - intros pre post. apply (spaced_from_no_double false).
    vm_compute. tauto.
  - reflexivity.
Defined.

(** X3. [sanitize_filename] is idempotent: sanitizing a sanitized name
    changes nothing. *)
Theorem sanitize_filename_idempotent (filename : option pystr) :
  sanitize_filename (Some (sanitize_filename filename))
  = sanitize_filename filename.
Proof.
  destruct (sanitize_filename_cases filename) as [-> | (s & _ & Hne & ->)];
    [reflexivity|].
  apply sanitize_fixed.
  - exact Hne.
  - apply sanitize_steps_length.
  - apply sanitize_steps_valid.
  - apply sanitize_steps_spaced.
  - unfold sanitize_steps. apply strip_trimmed.
Qed.








(** ** The outcomes of the image localizer *)

Section Outcomes.

Context {E : Env}.

Lemma fetch_outcome_lookup u answer p disk res disk' q x :
  disk !! p = None -> fetch_outcome u answer p disk res disk' ->
  disk !! q = Some x -> disk' !! q = Some x.
Proof.
  intros Hp Hout Hq. unfold fetch_outcome in Hout.
  assert (Hne : p <> q) by congruence.
  destruct answer as [r|e]; [|now destruct Hout as [_ ->]].
  destruct (status_code r =? 200)%Z; [|now destruct Hout as [-> _]].
  destruct (open_error p); [now destruct Hout as [_ ->]|].
  destruct Hout as [-> _]. now rewrite lookup_insert_ne.
Qed.

(** What lies on the disk before a call lies there after it. *)
Lemma download_image_keeps img_url base_url img_folder w q x :
  fs w !! q = Some x ->
  fs (snd (download_image img_url base_url img_folder w)) !! q = Some x.
Proof.
  intros Hq.
  destruct (download_image img_url base_url img_folder w) as [r w'] eqn:Hrun.
  apply download_image_outcome in Hrun
    as [(e & _ & _ & Hfs & _) | (u & res & w1 & _ & Hout & _ & Hfs & _)];
    simpl; rewrite Hfs; [exact Hq|].
  destruct Hout as [res w1 Hfs1 _ _ | name w1 _ _ Hfs1 _ _ _
                   | name res w1 _ _ Hp _ _ Hout]; simpl in *.
  - now rewrite Hfs1.
  - rewrite Hfs1. now apply with_dir_lookup.
  - eapply fetch_outcome_lookup; [exact Hp | exact Hout|].
    now apply with_dir_lookup.
Qed.

(** X5. [download_image] never deletes, overwrites or truncates: every
    file and directory that is on the disk before a call is on the disk
    after it, with the same content, however the call ends. *)
Theorem download_image_keeps_files (img_url base_url img_folder : pystr)
  (w : World) :
  fs w ⊆ fs (snd (download_image img_url base_url img_folder w)).
Proof.
  apply map_subseteq_spec. intros q x. apply download_image_keeps.
Qed.

(** X6. A call of [download_image] issues one request at most, and only
    for the resolved URL. *)
Theorem download_image_one_request (img_url base_url img_folder : pystr)
  (w : World) :
  let w' := snd (download_image img_url base_url img_folder w) in
  requests w' = requests w
  \/ exists u, resolve_url img_url base_url = Ok u
               /\ requests w' = requests w ++ [u].
Proof.
  cbv zeta.
  destruct (download_image img_url base_url img_folder w) as [r w'] eqn:Hrun.
  apply download_image_outcome in Hrun
    as [(e & _ & _ & _ & Hreq) | (u & res & w1 & Hres & Hout & _ & _ & Hreq)];
    simpl; rewrite Hreq; [now left|].
  destruct Hout as [res w1 _ Hreq1 _ | name w1 _ _ _ _ _ Hreq1
                   | name res w1 _ _ _ _ Hreq1 _]; simpl in *; eauto.
Qed.

(** X7. An image in an ignored format is never fetched: when the
    lower-cased path of the resolved URL ends with one of [.ico], [.webp],
    [.svg], [.gif], [.bmp], [.tiff], [download_image] issues no request and
    does not touch the disk, not even to create the folder, and it never
    returns a path.  Once the line that reports the skip is printed the
    result is [None]; when that line cannot be printed, the exception of
    [print] goes to the handler, which returns [None] once its own line is
    printed and lets the exception of its own [print] through. *)
Theorem download_image_skips_ignored (img_url base_url img_folder : pystr)
  (w : World) (u path ext : pystr) :
  resolve_url img_url base_url = Ok u ->
  urlparse_path u = Ok path ->
  first_suffix
    [str ".ico"; str ".webp"; str ".svg"; str ".gif"; str ".bmp";
     str ".tiff"] (str_lower path) ext ->
  let run := download_image img_url base_url img_folder w in
  fs (snd run) = fs w
  /\ requests (snd run) = requests w
  /\ (forall p, fst run <> Ok (Some p))
  /\ (print_error (msg_text (MsgSkip u ext)) = None ->
      run = (Ok None, printed (MsgSkip u ext) (entered img_url w)))
  /\ (forall e,
        print_error (msg_text (MsgSkip u ext)) = Some e ->
        fst run
        = if is_exception e then
            match print_error (msg_text (MsgDownloadError u e)) with
            | Some e' => Raise e'
            | None => Ok None
            end
          else Raise e).
Proof.
  intros Hres Hpath Hfirst. cbv zeta.
  apply find_suffix_some in Hfirst.
  assert (Hbody : download_resolved u img_folder (entered img_url w)
                  = match print_error (msg_text (MsgSkip u ext)) with
                    | Some e => (Raise e, entered img_url w)
                    | None =>
                        (Ok None, printed (MsgSkip u ext) (entered img_url w))
                    end).
  { unfold download_resolved, bind.
    rewrite should_download_image_run, Hpath.
    change IGNORED_EXTENSIONS
      with [str ".ico"; str ".webp"; str ".svg"; str ".gif"; str ".bmp";
            str ".tiff"].
    rewrite Hfirst. now destruct (print_error _). }
  unfold download_image, bind, log_call. cbv beta iota.
  fold (entered img_url w). rewrite Hres. unfold try_except. rewrite Hbody.
  destruct (print_error (msg_text (MsgSkip u ext))) as [e|] eqn:Hprint.
  - destruct (download_image_handler u e (entered img_url w))
      as (wh & Hh & Hfs & Hreq & _).
    rewrite Hh. simpl. rewrite Hfs, Hreq.
    refine (conj eq_refl (conj eq_refl (conj _ (conj _ _)))).
    + intros p. unfold absorbed. destruct (is_exception e); [|discriminate].
      destruct (print_error (msg_text (MsgDownloadError u e))); discriminate.
    + discriminate.
    + intros e' He'. now injection He' as <-.
  - simpl. refine (conj eq_refl (conj eq_refl (conj _ (conj _ _)))).
    + discriminate.
    + reflexivity.
    + discriminate.
Qed.

(** X8. When the server answers the request for the resolved URL with a
    status other than 200, [download_image] creates and changes no file,
    and returns a path only when it found the file on the disk without
    asking.  When it has asked, it has asked once, and its result is [None]
    once the line that reports the status is printed; when that line
    cannot be printed, the exception of [print] goes to the handler. *)
Theorem download_image_bad_status (img_url base_url img_folder : pystr)
  (w : World) (u : pystr) (r : response) :
  resolve_url img_url base_url = Ok u ->
  http_get (requests w) u = Ok r ->
  status_code r <> 200%Z ->
  let run := download_image img_url base_url img_folder w in
  (requests (snd run) = requests w
   \/ (requests (snd run) = requests w ++ [u]
       /\ fst run
          = match print_error (msg_text (MsgBadStatus u (status_code r))) with
            | None => Ok None
            | Some e =>
                if is_exception e then
                  match print_error (msg_text (MsgDownloadError u e)) with
                  | Some e' => Raise e'
                  | None => Ok None
                  end
                else Raise e
            end))
  /\ (forall p, fst run = Ok (Some p) -> requests (snd run) = requests w)
  /\ (forall q content,
        fs (snd run) !! q = Some (File content) ->
        fs w !! q = Some (File content)).
Proof.
  intros Hres Hget Hstatus. cbv zeta.
  destruct (download_image img_url base_url img_folder w) as [x w'] eqn:Hrun.
  apply download_image_outcome in Hrun
    as [(e & _ & -> & Hfs & Hreq)
       | (u' & res & w1 & Hres' & Hout & -> & Hfs & Hreq)];
    simpl; rewrite Hfs, Hreq; [auto|].
  rewrite Hres in Hres'. injection Hres' as <-.
  destruct Hout as [res w1 Hfs1 Hreq1 Hnone | name w1 _ _ Hfs1 _ _ Hreq1
                   | name res w1 _ _ Hp _ Hreq1 Hout]; simpl in *.
  - rewrite Hfs1. auto.
  - rewrite Hfs1. refine (conj _ (conj _ _)); [auto | auto |].
    intros q content. apply with_dir_files.
  - unfold fetch_outcome in Hout. rewrite Hget in Hout.
    apply Z.eqb_neq in Hstatus. rewrite Hstatus in Hout.
    destruct Hout as [-> ->]. refine (conj _ (conj _ _)).
    + right. split; [exact Hreq1|].
      now destruct (print_error (msg_text (MsgBadStatus u (status_code r)))).
    + intros p.
      destruct (print_error (msg_text (MsgBadStatus u (status_code r))))
        as [e|]; [|discriminate].
      unfold absorbed. destruct (is_exception e); [|discriminate].
      destruct (print_error (msg_text (MsgDownloadError u e))); discriminate.
    + intros q content. apply with_dir_files.
Qed.

(** X9. A path that [download_image] returns for a file that was not on
    the disk is the path of a file that holds the body of the response,
    chunk after chunk: the request for the resolved URL was answered with
    status 200 and the stream did not break. *)
Theorem download_image_writes_body (img_url base_url img_folder : pystr)
  (w : World) (p : pystr) :
  fst (download_image img_url base_url img_folder w) = Ok (Some p) ->
  fs w !! p = None ->
  dirname p <> p ->
  exists u r,
    resolve_url img_url base_url = Ok u
    /\ http_get (requests w) u = Ok r
    /\ status_code r = 200%Z
    /\ stream_error r = None
    /\ fs (snd (download_image img_url base_url img_folder w)) !! p
       = Some (File (concat (chunks r))).
Proof.
  intros Hp Hnone Hdir.
  destruct (download_image img_url base_url img_folder w) as [x w'] eqn:Hrun.
  simpl in Hp. subst x.
  assert (Habs : forall u0 e, Ok (Some p) <> absorbed u0 e).
  { intros u0 e. unfold absorbed. destruct (is_exception e); [|discriminate].
    destruct (print_error _); discriminate. }
  apply download_image_outcome in Hrun
    as [(e & _ & Hx & _) | (u & res & w1 & Hres & Hout & Hx & Hfs & _)];
    [now apply Habs in Hx|].
  simpl. rewrite Hfs. exists u.
  destruct Hout as [res w1 _ _ Hres1 | name w1 _ _ Hfs1 _ Hsome _
                   | name res w1 _ _ Hp1 _ _ Hout]; simpl in *.
  - destruct Hres1 as [-> | [e ->]]; [discriminate | now apply Habs in Hx].
  - injection Hx as ->. rewrite Hfs1, with_dir_other in Hsome by congruence.
    rewrite Hnone in Hsome. now destruct Hsome.
  - unfold fetch_outcome in Hout.
    destruct (http_get (requests w) u) as [r|e];
      [|destruct Hout as [-> _]; now apply Habs in Hx].
    exists r.
    destruct (Z.eqb_spec (status_code r) 200) as [Hstatus|].
    + destruct (open_error (path_join img_folder name));
        [destruct Hout as [-> _]; now apply Habs in Hx|].
      destruct Hout as [Hdisk ->].
      destruct (snd (written _ [] (chunks r))) eqn:Hwritten;
        [now apply Habs in Hx|].
      apply written_all in Hwritten.
      destruct (stream_error r); [now apply Habs in Hx|].
      destruct (print_error _); [now apply Habs in Hx|].
      injection Hx as ->. rewrite Hdisk, lookup_insert_eq, Hwritten. auto.
    + destruct Hout as [_ ->].
      destruct (print_error _); [now apply Habs in Hx | discriminate].
Qed.

(** X10. Whatever lies at the path of the image is taken for the image.
    When the URL passes the filter, the file is named and the folder can be
    made: if the disk has an entry at the path, be it a complete file, a
    file cut short or a directory, [download_image] returns the path and
    requests nothing; and if it has none and, after the file was opened,
    the download breaks, because the stream of the response breaks or
    because a write fails, the chunks written until then are left in the
    file, the call that broke returns [None] once its error line is
    printed, and the next call returns the path of that file without any
    request. *)
Theorem download_image_serves_present (img_url base_url img_folder : pystr)
  (w : World) (u name : pystr) :
  resolve_url img_url base_url = Ok u ->
  fst (should_download_image u w) = Ok true ->
  image_filename u = Ok name ->
  fst (makedirs (dirname (path_join img_folder name)) w) = Ok tt ->
  let p := path_join img_folder name in
  let run := download_image img_url base_url img_folder w in
  (is_Some (fs w !! p) ->
   fst run = Ok (Some p) /\ requests (snd run) = requests w)
  /\ (forall r e content,
        with_dir (dirname p) (fs w) !! p = None ->
        http_get (requests w) u = Ok r ->
        status_code r = 200%Z ->
        open_error p = None ->
        (writes_succeed p [] (chunks r) /\ stream_error r = Some e
         /\ content = concat (chunks r))
        \/ (exists before c after,
              chunks r = before ++ c :: after
              /\ writes_succeed p [] before
              /\ write_error p (concat before) c = Some e
              /\ content = concat before) ->
        let again := download_image img_url base_url img_folder (snd run) in
        fst run
        = (if is_exception e then
             match print_error (msg_text (MsgDownloadError u e)) with
             | Some e' => Raise e'
             | None => Ok None
             end
           else Raise e)
        /\ requests (snd run) = requests w ++ [u]
        /\ fs (snd run) !! p = Some (File content)
        /\ fst again = Ok (Some p)
        /\ requests (snd again) = requests (snd run)
        /\ fs (snd again) = fs (snd run)).
Proof.
  intros Hres Hwant Hname Hmk. cbv zeta.
  set (p := path_join img_folder name) in *.
  apply should_download_true in Hwant. split.
  - intros [x Hx].
    destruct (download_image_hit img_url base_url img_folder w u name)
      as (w' & Hrun & _ & Hreq); auto.
    { fold p. exists x. now apply with_dir_lookup. }
    now rewrite Hrun.
  - intros r e content Hnone Hget Hstatus Hopen Hbroke.
    destruct (download_image_miss img_url base_url img_folder w u name)
      as (res & w1 & Hrun & Hout & Hreq); auto.
    fold p in Hout. rewrite Hrun. cbn [fst snd].
    unfold fetch_outcome in Hout.
    rewrite Hget, Hstatus, Hopen in Hout. simpl in Hout.
    assert (Hwritten :
      written p [] (chunks r) = (content, Some e)
      \/ written p [] (chunks r) = (content, None)
         /\ stream_error r = Some e).
    { destruct Hbroke as [(Hw & Hs & ->)
                         | (before & c & after & Hcs & Hw & Hfail & ->)].
      - right. split; [|exact Hs]. now rewrite (written_succeed _ _ _ Hw).
      - left. rewrite Hcs. now apply written_fails. }
    assert (Hend : fs w1 = <[p := File content]> (with_dir (dirname p) (fs w))
                   /\ res = Raise e).
    { destruct Hwritten as [Hw | [Hw Hs]]; rewrite Hw in Hout;
        simpl in Hout; [|rewrite Hs in Hout]; exact Hout. }
    destruct Hend as [Hdisk ->]. clear Hout Hwritten Hbroke.
    assert (Hfile : fs w1 !! p = Some (File content))
      by (rewrite Hdisk; apply lookup_insert_eq).
    assert (Hdir : fs w1 !! dirname p = Some Dir).
    { apply makedirs_ok in Hmk as (wa & Hmk & Hfsa & _).
      apply makedirs_dir in Hmk. rewrite Hfsa in Hmk.
      rewrite Hdisk, lookup_insert_ne; [exact Hmk | congruence]. }
    assert (Hsame : with_dir (dirname p) (fs w1) = fs w1)
      by (unfold with_dir; now rewrite Hdir).
    destruct (download_image_hit img_url base_url img_folder w1 u name)
      as (w2 & Hrun2 & Hfs2 & Hreq2); auto.
    { fold p. unfold makedirs. now rewrite Hdir. }
    { fold p. rewrite Hsame, Hfile. eauto. }
    fold p in Hfs2. rewrite Hrun2. cbn [fst snd].
    rewrite Hfs2, Hsame. auto 10.
Qed.

End Outcomes.

(** *** The outcomes on the reference environment *)

(** [download_image_skips_ignored] on an animation with an upper-case
    extension. *)
Lemma download_image_skips_ignored_witness :
  download_image (E := png_env) (str "/anim.GIF")
    (str "https://ex.com/page") (str "out/images") empty_world
  = (Ok None,
     mkWorld ∅ []
       [MsgSkip (str "https://ex.com/anim.GIF") (str ".gif")]
       [str "/anim.GIF"]).
Proof.
  apply (download_image_skips_ignored (E := png_env) (str "/anim.GIF")
           (str "https://ex.com/page") (str "out/images") empty_world
           (str "https://ex.com/anim.GIF") (str "/anim.GIF") (str ".gif")).
  - reflexivity.
  - reflexivity.
  - exists [str ".ico"; str ".webp"; str ".svg"], [str ".bmp"; str ".tiff"].
    split; [reflexivity|]. split; [now exists (str "/anim")|].
    repeat constructor; apply endswith_false; reflexivity.
  - reflexivity.
Defined.

(** [download_image_bad_status] on the server that answers 404. *)
Lemma download_image_bad_status_witness :
  http_get (Env := missing_env) [] (str "https://ex.com/a.png")
  = Ok (mkResponse 404 [] None)
  /\ fst (download_image (E := missing_env) (str "https://ex.com/a.png")
            (str "https://ex.com/page") (str "out/images") empty_world)
     = Ok None
  /\ (forall q content,
        fs (snd (download_image (E := missing_env)
                   (str "https://ex.com/a.png") (str "https://ex.com/page")
                   (str "out/images") empty_world)) !! q
        = Some (File content) ->
        (∅ : gmap pystr fs_entry) !! q = Some (File content)).
Proof.
  split; [reflexivity|].
  assert (Hstatus : status_code (mkResponse 404 [] None) <> 200%Z)
    by discriminate.
  destruct (download_image_bad_status (E := missing_env)
              (str "https://ex.com/a.png") (str "https://ex.com/page")
              (str "out/images") empty_world (str "https://ex.com/a.png")
              (mkResponse 404 [] None) eq_refl eq_refl Hstatus)
    as ([Hsame | [_ Hres]] & _ & Hfiles).
  - vm_compute in Hsame. discriminate.
  - split; [exact Hres | exact Hfiles].
Defined.

(** [download_image_writes_body] on the site with one image: the file
    holds the two chunks of the response. *)
Lemma download_image_writes_body_witness :
  fst (download_image (E := png_env) (str "/a.png")
         (str "https://ex.com/page") (str "out/images") empty_world)
  = Ok (Some (str "out/images/c98b0c87944d062e1bacda2032deb838.png"))
  /\ exists u r,
      http_get (Env := png_env) [] u = Ok r
      /\ fs (snd (download_image (E := png_env) (str "/a.png")
                    (str "https://ex.com/page") (str "out/images")
                    empty_world))
           !! str "out/images/c98b0c87944d062e1bacda2032deb838.png"
         = Some (File (concat (chunks r))).
Proof.
  assert (H : fst (download_image (E := png_env) (str "/a.png")
                (str "https://ex.com/page") (str "out/images") empty_world)
              = Ok (Some (str "out/images/c98b0c87944d062e1bacda2032deb838.png")))
    by (vm_compute; reflexivity).
  split; [exact H|].
  destruct (download_image_writes_body (E := png_env) _ _ _ _ _ H)
    as (u & r & _ & Hget & _ & _ & Hfile).
  - reflexivity.
  - vm_compute. discriminate.
  - exists u, r. split; assumption.
Defined.

(** A server whose stream breaks after the first chunk of the image. *)
Definition broken_site (url : pystr) : option response :=
  if bool_decide (url = str "https://ex.com/a.png")
  then Some (mkResponse 200 [[Byte.x89; Byte.x50]]
               (Some (Exception (str "ChunkedEncodingError"))))
  else None.

Definition broken_env : Env := reference_env (web broken_site) (Text []).

(** The world after a download that broke. *)
Definition broken_world : World :=
  snd (download_image (E := broken_env) (str "/a.png")
         (str "https://ex.com/page") (str "out/images") empty_world).

(** [download_image_serves_present] on a download that breaks: the call
    returns [None] and leaves the first chunk on the disk, and the next
    call returns the path of that file. *)
Lemma download_image_serves_present_witness :
  fst (download_image (E := broken_env) (str "/a.png")
         (str "https://ex.com/page") (str "out/images") empty_world)
  = Ok None
  /\ fs broken_world
       !! str "out/images/c98b0c87944d062e1bacda2032deb838.png"
     = Some (File [Byte.x89; Byte.x50])
  /\ fst (download_image (E := broken_env) (str "/a.png")
           (str "https://ex.com/page") (str "out/images") broken_world)
     = Ok (Some (str "out/images/c98b0c87944d062e1bacda2032deb838.png"))
  /\ requests
       (snd (download_image (E := broken_env) (str "/a.png")
               (str "https://ex.com/page") (str "out/images") broken_world))
     = requests broken_world.
Proof.
  destruct (proj2 (download_image_serves_present (E := broken_env)
              (str "/a.png") (str "https://ex.com/page") (str "out/images")
              empty_world (str "https://ex.com/a.png")
              (str "c98b0c87944d062e1bacda2032deb838.png")
              eq_refl eq_refl eq_refl eq_refl)
              (mkResponse 200 [[Byte.x89; Byte.x50]]
                 (Some (Exception (str "ChunkedEncodingError"))))
              (Exception (str "ChunkedEncodingError"))
              [Byte.x89; Byte.x50]
              eq_refl eq_refl eq_refl eq_refl
              (or_introl (conj (fun _ _ _ _ => eq_refl)
                            (conj eq_refl eq_refl))))
    as (Hnone & _ & Hfile & Hagain & Hreq & _).
  exact (conj Hnone (conj Hfile (conj Hagain Hreq))).
Defined.

(** A write that fails: the image has two chunks of two bytes and the disk
    has room for three.  The first chunk stays in the file, the call
    returns [None], and the next call returns the path of that file
    without a request. *)
Example download_image_disk_full :
  let run :=
    download_image (E := with_small_disk 3 png_env) (str "/a.png")
      (str "https://ex.com/page") (str "out/images") empty_world in
  let again :=
    download_image (E := with_small_disk 3 png_env) (str "/a.png")
      (str "https://ex.com/page") (str "out/images") (snd run) in
  run
  = (Ok None,
     mkWorld
       (<[ str "out/images/c98b0c87944d062e1bacda2032deb838.png"
           := File [Byte.x89; Byte.x50] ]>
          {[ str "out/images" := Dir ]})
       [str "https://ex.com/a.png"]
       [MsgDownloadError (str "https://ex.com/a.png")
          (Exception (str "OSError"))]
       [str "/a.png"])
  /\ fst again
     = Ok (Some (str "out/images/c98b0c87944d062e1bacda2032deb838.png"))
  /\ requests (snd again) = [str "https://ex.com/a.png"].
Proof. vm_compute. repeat split; reflexivity. Qed.

(** ** More on the two image rewriters *)

Lemma replace_without old new s :
  old <> new -> ~ In old (PyStr.replace old new s).
Proof.
  intros Hne Hin. unfold PyStr.replace in Hin.
  apply in_map_iff in Hin as (c & Hc & _).
  destruct (N.eqb_spec c old); congruence.
Qed.

Section RewritersMore.

Context {E : Env}.

Variables base_url img_folder md_file_path : pystr.

Lemma process_img_idle attrs w :
  candidate_src attrs = [] ->
  process_img base_url img_folder md_file_path attrs w = (Ok attrs, w).
Proof.
  unfold candidate_src, process_img.
  destruct (attrs !! str "src") as [src|]; [|reflexivity].
  destruct (PyStr.nonempty src); [|reflexivity].
  destruct (PyStr.startswith src (str "data:")); [reflexivity|].
  discriminate.
Qed.

Lemma mapM_idle {A} (f : A -> M A) l w :
  Forall (fun a => f a w = (Ok a, w)) l -> mapM f l w = (Ok l, w).
Proof.
  induction 1 as [|a l Ha _ IH]; [reflexivity|]. simpl.
  rewrite (bind_ok _ _ _ _ _ Ha).
  change ((fix go (l0 : list A) : M (list A) :=
             match l0 with
             | [] => ret []
             | a0 :: l' => b <- f a0; bs <- go l'; ret (b :: bs)
             end) l) with (mapM f l).
  now rewrite (bind_ok _ _ _ _ _ IH).
Qed.

Lemma flat_map_nil {A B} (g : A -> list B) l :
  flat_map g l = [] -> Forall (fun a => g a = []) l.
Proof.
  induction l as [|a l IH]; simpl; [constructor|].
  intros H. apply app_eq_nil in H as [Ha Hl]. constructor; auto.
Qed.

Lemma process_images_in_idle n : forall w,
  image_sources_in n = [] ->
  process_images_in base_url img_folder md_file_path n w = (Ok n, w).
Proof.
  induction n as [s | tag attrs children IH] using node_tree_ind;
    intros w Hnone; [reflexivity|].
  cbn [image_sources_in] in Hnone. apply app_eq_nil in Hnone as [Hattrs Hch].
  cbn [process_images_in].
  assert (Ha : (if bool_decide (tag = str "img")
                then process_img base_url img_folder md_file_path attrs
                else ret attrs) w = (Ok attrs, w)).
  { case_bool_decide; [now apply process_img_idle | reflexivity]. }
  rewrite (bind_ok _ _ _ _ _ Ha).
  rewrite (bind_ok _ _ w children w); [reflexivity|].
  apply mapM_idle. apply flat_map_nil in Hch.
  rewrite List.Forall_forall in *. intros c Hc. apply IH; auto.
Qed.

(** X11. A page without an image to localize is left alone: when no [img]
    tag of the soup has a source that is neither empty nor a data URI,
    [process_images] returns the soup as it is and touches neither the
    network nor the disk. *)
Theorem process_images_without_sources (soup : node) (w : World) :
  image_sources soup = [] ->
  process_images soup base_url img_folder md_file_path w = (Ok soup, w).
Proof.
  intros Hnone. destruct soup as [s | tag attrs children]; [reflexivity|].
  unfold image_sources in Hnone. simpl in Hnone. unfold process_images.
  rewrite (bind_ok _ _ w children w); [reflexivity|].
  apply mapM_idle. apply flat_map_nil in Hnone.
  rewrite List.Forall_forall in *. intros c Hc.
  apply process_images_in_idle; auto.
Qed.

(** X12. A reference that a rewriter writes uses forward slashes only:
    the [src] that the loop body of [process_images] assigns and the URL
    that [replace_url] puts into the text hold no backslash. *)
Theorem rewritten_paths_without_backslash :
  (forall attrs w attrs' w',
     process_img base_url img_folder md_file_path attrs w = (Ok attrs', w') ->
     attrs' = attrs
     \/ exists rel, attrs' = <[str "src" := rel]> attrs /\ ~ In 92%N rel)
  /\ (forall m w new w',
        replace_url base_url img_folder md_file_path m w = (Ok new, w') ->
        new = group0 m
        \/ exists rel, new = img_md (alt_text m) rel /\ ~ In 92%N rel).
Proof.
  assert (Hrel : forall local w rel w',
            relative_to_md local md_file_path w = (Ok rel, w') ->
            ~ In 92%N rel).
  { unfold relative_to_md. intros local w rel w' H.
    apply bind_inv_ok in H as (r & w1 & _ & H). injection H as <- <-.
    now apply replace_without. }
  split.
  - unfold process_img. intros attrs w attrs' w' H.
    destruct (attrs !! str "src") as [src|];
      [|injection H as <- <-; auto].
    destruct (PyStr.nonempty src); [|injection H as <- <-; auto].
    destruct (PyStr.startswith src (str "data:"));
      [injection H as <- <-; auto|].
    apply bind_inv_ok in H as (local & w1 & _ & H).
    destruct local as [local_path|]; [|injection H as <- <-; auto].
    destruct (PyStr.nonempty local_path); [|injection H as <- <-; auto].
    apply bind_inv_ok in H as (rel & w2 & Hr & H).
    injection H as <- <-. right. exists rel. split; [reflexivity|].
    eapply Hrel, Hr.
  - unfold replace_url. intros m w new w' H.
    apply bind_inv_ok in H as (local & w1 & _ & H).
    destruct local as [local_path|]; [|injection H as <- <-; auto].
    destruct (PyStr.nonempty local_path); [|injection H as <- <-; auto].
    apply bind_inv_ok in H as (rel & w2 & Hr & H).
    injection H as <- <-. right. exists rel. split; [reflexivity|].
    eapply Hrel, Hr.
Qed.

End RewritersMore.

(** [process_images_without_sources] on a page whose images are a data URI
    and a tag without source. *)
Lemma process_images_without_sources_witness :
  image_sources
    (Element (str "[document]") ∅
       [Element (str "img") {[ str "src" := data_uri ]} [];
        Element (str "img") {[ str "alt" := str "none" ]} []])
  = []
  /\ requests
       (snd (process_images (E := png_env)
               (Element (str "[document]") ∅
                  [Element (str "img") {[ str "src" := data_uri ]} [];
                   Element (str "img") {[ str "alt" := str "none" ]} []])
               (str "https://ex.com/page") (str "out/images")
               (str "out/page.md") empty_world))
     = [].
Proof.
  assert (H : image_sources
                (Element (str "[document]") ∅
                   [Element (str "img") {[ str "src" := data_uri ]} [];
                    Element (str "img") {[ str "alt" := str "none" ]} []])
              = []) by (vm_compute; reflexivity).
  split; [exact H|].
  now rewrite (process_images_without_sources (E := png_env) _ _ _ _ _ H).
Defined.

(** ** The cleaned tree and the main content *)

Lemma node_matches_decompose sels sels' n :
  node_matches sels (decompose_all sels' n) = node_matches sels n.
Proof. now destruct n. Qed.

(** The selection among a node and its descendants is the matching part of
    these nodes. *)
Lemma select_in_spec sels x : forall n,
  In x (select_in sels n)
  <-> In x (n :: descendants n) /\ node_matches sels x = true.
Proof.
  induction n as [s | tag attrs children IH] using node_tree_ind.
  - simpl. split; [contradiction|]. intros [[<- | []] H]. discriminate.
  - cbn [select_in descendants]. rewrite in_app_iff, in_flat_map.
    rewrite List.Forall_forall in IH. split.
    + intros [Hin | (c & Hc & Hin)].
      * destruct (node_matches sels (Element tag attrs children)) eqn:Hm;
          [|contradiction].
        destruct Hin as [<- | []]. split; [now left | exact Hm].
      * apply (IH c Hc) in Hin as [Hin Hm]. split; [|exact Hm].
        right. apply in_flat_map. eauto.
    + intros [[<- | Hin] Hm].
      * left. rewrite Hm. now left.
      * right. apply in_flat_map in Hin as (c & Hc & Hin).
        exists c. split; [exact Hc|]. now apply (IH c Hc).
Qed.

Lemma select_spec sels soup x :
  In x (select sels soup)
  <-> In x (descendants soup) /\ node_matches sels x = true.
Proof.
  unfold select. rewrite in_flat_map. split.
  - intros (c & Hc & Hin). apply select_in_spec in Hin as [Hin Hm].
    split; [|exact Hm]. destruct soup as [s | tag attrs children];
      [contradiction|].
    simpl in *. apply in_flat_map. eauto.
  - intros [Hin Hm]. destruct soup as [s | tag attrs children];
      [contradiction|].
    simpl in *. apply in_flat_map in Hin as (c & Hc & Hin).
    exists c. split; [exact Hc|]. now apply select_in_spec.
Qed.

Lemma descendants_trans x : forall n,
  In x (descendants n) -> incl (descendants x) (descendants n).
Proof.
  induction n as [s | tag attrs children IH] using node_tree_ind;
    intros Hin; [contradiction|].
  simpl in *. apply in_flat_map in Hin as (c & Hc & Hin).
  rewrite List.Forall_forall in IH.
  intros y Hy. apply in_flat_map. exists c. split; [exact Hc|].
  destruct Hin as [<- | Hin]; [now right|].
  right. now apply (IH c Hc Hin).
Qed.

Lemma decompose_all_descendants sels x : forall n,
  In x (descendants (decompose_all sels n)) -> node_matches sels x = false.
Proof.
  induction n as [s | tag attrs children IH] using node_tree_ind;
    intros Hin; [contradiction|].
  cbn [decompose_all descendants] in Hin.
  induction IH as [|c cs Hc _ IHcs]; [contradiction|].
  destruct (node_matches sels c) eqn:Hm; [now apply IHcs|].
  simpl in Hin. destruct Hin as [<- | Hin].
  - now rewrite node_matches_decompose.
  - apply in_app_or in Hin as [Hin | Hin]; [now apply Hc | now apply IHcs].
Qed.

(** X13. After the removal no unwanted element is left: the cleaned soup
    has no descendant that matches one of the selectors, at any depth. *)
Theorem decompose_all_removes_all (sels : list selector) (soup : node) :
  select sels (decompose_all sels soup) = [].
Proof.
  destruct (select sels (decompose_all sels soup)) as [|x l] eqn:Hsel;
    [reflexivity|].
  assert (Hin : In x (select sels (decompose_all sels soup)))
    by (rewrite Hsel; now left).
  apply select_spec in Hin as [Hin Hm].
  apply decompose_all_descendants in Hin. congruence.
Qed.

Lemma decompose_all_idle sels : forall n,
  Forall (fun x => node_matches sels x = false) (descendants n) ->
  decompose_all sels n = n.
Proof.
  induction n as [s | tag attrs children IH] using node_tree_ind;
    intros Hno; [reflexivity|].
  cbn [decompose_all descendants] in *. f_equal.
  induction IH as [|c cs Hc _ IHcs]; [reflexivity|].
  simpl in Hno. apply Forall_cons in Hno as [Hm Hno].
  apply Forall_app in Hno as [Hdc Hcs].
  rewrite Hm, (Hc Hdc), (IHcs Hcs). reflexivity.
Qed.

(** X14. A page without unwanted elements is not changed by the
    removal. *)
Theorem decompose_all_without_matches (sels : list selector) (soup : node) :
  select sels soup = [] -> decompose_all sels soup = soup.
Proof.
  intros Hsel. apply decompose_all_idle. apply List.Forall_forall.
  intros x Hx. destruct (node_matches sels x) eqn:Hm; [|reflexivity].
  assert (Hin : In x (select sels soup)) by now apply select_spec.
  rewrite Hsel in Hin. contradiction.
Qed.

Lemma head_In {A} (l : list A) x : head l = Some x -> In x l.
Proof. destruct l; simpl; [discriminate|]. intros H. injection H as ->. now left. Qed.

Lemma first_selected_In sels soup x :
  first_selected sels soup = Some x -> In x (descendants soup).
Proof.
  induction sels as [|sel sels IH]; simpl; [discriminate|].
  destruct (select_one sel soup) as [content|] eqn:Hsel; [|exact IH].
  intros H. injection H as ->. unfold select_one in Hsel.
  apply head_In in Hsel. now apply select_spec in Hsel.
Qed.

(** The main content is the soup or a node below it. *)
Lemma select_main_content_In soup :
  In (select_main_content soup) (soup :: descendants soup).
Proof.
  unfold select_main_content.
  destruct (first_selected MAIN_SELECTORS soup) as [x|] eqn:Hfirst.
  - right. now apply first_selected_In in Hfirst.
  - destruct (find_tag (str "body") soup) as [body|] eqn:Hbody; [|now left].
    right. unfold find_tag in Hbody. apply head_In in Hbody.
    now apply select_spec in Hbody.
Qed.

(** X15. What is converted to Markdown holds none of the unwanted
    elements: below the main content selected in the cleaned soup there is
    no [script], [style], [iframe], [nav] or [footer] tag and no tag of
    class [sidebar], [advertisement] or [ads]. *)
Theorem main_content_without_noise (soup : node) :
  select NOISE (select_main_content (decompose_all NOISE soup)) = [].
Proof.
  set (cleaned := decompose_all NOISE soup).
  destruct (select NOISE (select_main_content cleaned)) as [|x l] eqn:Hsel;
    [reflexivity|].
  assert (Hin : In x (select NOISE (select_main_content cleaned)))
    by (rewrite Hsel; now left).
  apply select_spec in Hin as [Hin Hm].
  assert (Hbelow : In x (descendants cleaned)).
  { destruct (select_main_content_In cleaned) as [Heq | Hmain].
    - now rewrite <- Heq in Hin.
    - now apply (descendants_trans _ _ Hmain). }
  apply decompose_all_descendants in Hbelow. congruence.
Qed.

(** ** More on the text image rewriter *)

Lemma match_url_http s url rest :
  match_url s = Some (url, rest) ->
  exists x, url = str "http://" ++ x \/ url = str "https://" ++ x.
Proof.
  unfold match_url.
  destruct (strip_prefix (str "http") s) as [s1|]; [|discriminate].
  destruct (match s1 with
            | c :: r => if (c =? 115)%N then (str "https", r)
                        else (str "http", s1)
            | [] => (str "http", s1)
            end) as [scheme s2] eqn:Hsplit.
  assert (Hscheme : scheme = str "http" \/ scheme = str "https").
  { destruct s1 as [|c r]; [injection Hsplit as <- _; auto|].
    destruct (c =? 115)%N; injection Hsplit as <- _; auto. }
  destruct (strip_prefix (str "://") s2) as [s3|]; [|discriminate].
  destruct (span_url s3) as [[|x run] [|c tail]]; try discriminate.
  intros H. injection H as <- _. exists (x :: run).
  destruct Hscheme as [-> | ->]; [left | right]; reflexivity.
Qed.

Lemma match_alt_http s : forall alt_rev alt url rest,
  match_alt alt_rev s = Some (alt, url, rest) ->
  exists x, url = str "http://" ++ x \/ url = str "https://" ++ x.
Proof.
  assert (Hhere : forall t url rest,
    match strip_prefix (str "](") t with
    | Some s1 => match_url s1
    | None => None
    end = Some (url, rest) ->
    exists x, url = str "http://" ++ x \/ url = str "https://" ++ x).
  { intros t url rest H.
    destruct (strip_prefix (str "](") t) as [s1|]; [|discriminate].
    now apply match_url_http in H. }
  induction s as [|c s IH]; intros alt_rev alt url rest; cbn [match_alt].
  - destruct (match strip_prefix (str "](") [] with
              | Some s1 => match_url s1
              | None => None
              end) as [[url' rest']|] eqn:Htail; [|discriminate].
    intros H. injection H as _ <- _. now apply Hhere in Htail.
  - destruct (match strip_prefix (str "](") (c :: s) with
              | Some s1 => match_url s1
              | None => None
              end) as [[url' rest']|] eqn:Htail.
    + intros H. injection H as _ <- _. now apply Hhere in Htail.
    + destruct (c =? PyStr.LF)%N; [discriminate|]. apply IH.
Qed.

(** The URL of a match starts with [http://] or [https://]. *)
Lemma match_image_http s m :
  match_image s = Some m ->
  exists x, matched_url m = str "http://" ++ x
            \/ matched_url m = str "https://" ++ x.
Proof.
  unfold match_image.
  destruct (strip_prefix (str "![") s) as [s1|]; [|discriminate].
  destruct (match_alt [] s1) as [[[alt url] rest]|] eqn:H2; [|discriminate].
  intros H. injection H as <-. simpl. now apply match_alt_http in H2.
Qed.

Lemma match_image_absolute s m :
  match_image s = Some m -> is_absolute (matched_url m) = true.
Proof.
  intros H. apply match_image_http in H as [x [-> | ->]]; unfold is_absolute.
  - apply orb_true_iff. left. apply startswith_spec. eauto.
  - apply orb_true_iff. right. apply startswith_spec. eauto.
Qed.

(** Two callbacks that agree on the matches give the same substitution. *)
Lemma sub_images_ext (repl1 repl2 : image_match -> M pystr) :
  (forall s m, match_image s = Some m -> forall w, repl1 m w = repl2 m w) ->
  forall s skip w, sub_images repl1 skip s w = sub_images repl2 skip s w.
Proof.
  intros Hagree. induction s as [|c r IH]; intros skip w; [reflexivity|].
  destruct skip as [|k]; [|apply IH]. cbn [sub_images].
  destruct (match_image (c :: r)) as [m|] eqn:Hm.
  - unfold bind at 1 3. rewrite (Hagree _ _ Hm w).
    destruct (repl2 m w) as [[new|e] w1]; [|reflexivity].
    unfold bind. now rewrite IH.
  - unfold bind. now rewrite IH.
Qed.

(** Does the text [p] occur in [s]? *)
Fixpoint occurs (p s : pystr) : bool :=
  PyStr.startswith s p
  || match s with
     | [] => false
     | _ :: r => occurs p r
     end.

Lemma occurs_intro p pre post : occurs p (pre ++ p ++ post) = true.
Proof.
  induction pre as [|c pre IH]; simpl.
  - assert (H : PyStr.startswith (p ++ post) p = true)
      by (apply startswith_spec; eauto).
    destruct (p ++ post); simpl; simpl in H; now rewrite H.
  - rewrite IH. apply orb_true_r.
Qed.

Section TextRewriterMore.

Context {E : Env}.

Lemma download_image_absolute u b1 b2 f w :
  is_absolute u = true -> download_image u b1 f w = download_image u b2 f w.
Proof.
  intros Habs. unfold download_image, resolve_url. now rewrite Habs.
Qed.

(** X16. The text image rewriter does not depend on the URL of the page:
    the pattern matches absolute [http] and [https] URLs only, which
    [download_image] never resolves against the base. *)
Theorem replace_md_image_urls_ignores_base
  (markdown_text base1 base2 img_folder md_file_path : pystr) (w : World) :
  replace_md_image_urls markdown_text base1 img_folder md_file_path w
  = replace_md_image_urls markdown_text base2 img_folder md_file_path w.
Proof.
  unfold replace_md_image_urls. apply sub_images_ext.
  intros s m Hm w0. unfold replace_url.
  apply match_image_absolute in Hm.
  unfold bind. now rewrite (download_image_absolute _ base1 base2).
Qed.

Lemma match_image_contains s m :
  match_image s = Some m ->
  exists pre post, s = pre ++ str "](http" ++ post.
Proof.
  intros Hm. pose proof (match_image_http _ _ Hm) as [x Hurl].
  apply match_image_spec in Hm as [Hg ->]. rewrite Hg. unfold img_md.
  exists (str "![" ++ alt_text m).
  destruct Hurl as [-> | ->].
  - exists (str "://" ++ x ++ str ")" ++ after m).
    rewrite <- !app_assoc. reflexivity.
  - exists (str "s://" ++ x ++ str ")" ++ after m).
    rewrite <- !app_assoc. reflexivity.
Qed.

(** X17. A text that nowhere has a closing bracket followed by an opening
    parenthesis and [http] holds no image reference to rewrite, whatever
    local references it has: it is returned as it is, and nothing is
    requested or written. *)
Theorem replace_md_image_urls_without_links
  (markdown_text base_url img_folder md_file_path : pystr) (w : World) :
  occurs (str "](http") markdown_text = false ->
  replace_md_image_urls markdown_text base_url img_folder md_file_path w
  = (Ok markdown_text, w).
Proof.
  unfold replace_md_image_urls.
  generalize (replace_url base_url img_folder md_file_path). intros repl.
  induction markdown_text as [|c r IH]; intros Hno; [reflexivity|].
  cbn [sub_images].
  destruct (match_image (c :: r)) as [m|] eqn:Hm.
  - apply match_image_contains in Hm as (pre & post & Hm).
    rewrite Hm, occurs_intro in Hno. discriminate.
  - rewrite (bind_ok _ _ w r w); [reflexivity|].
    apply IH. cbn [occurs] in Hno. now apply orb_false_iff in Hno as [_ Hno].
Qed.

End TextRewriterMore.

(** [replace_md_image_urls_without_links] on a text whose only image is
    local. *)
Lemma replace_md_image_urls_without_links_witness :
  occurs (str "](http") (str "see ![x](images/a.png) and http://x") = false
  /\ replace_md_image_urls (E := png_env)
       (str "see ![x](images/a.png) and http://x")
       (str "https://ex.com/page") (str "out/images") (str "out/page.md")
       empty_world
     = (Ok (str "see ![x](images/a.png) and http://x"), empty_world).
Proof.
  assert (H : occurs (str "](http")
                (str "see ![x](images/a.png) and http://x") = false)
    by (vm_compute; reflexivity).
  split; [exact H|].
  now apply replace_md_image_urls_without_links.
Defined.

(** [decompose_all_without_matches] on the page with an article. *)
Lemma decompose_all_without_matches_witness :
  select NOISE article_page = []
  /\ decompose_all NOISE article_page = article_page.
Proof.
  assert (H : select NOISE article_page = []) by (vm_compute; reflexivity).
  split; [exact H|]. now apply decompose_all_without_matches.
Defined.

(** ** More on the page pipeline *)

(** A computation after which everything that was on the disk is still
    there, unchanged, however it ends. *)
Definition keeps_files {A} (m : M A) : Prop :=
  forall w, fs w ⊆ fs (snd (m w)).

Lemma keeps_files_same {A} (m : M A) : keeps fs m -> keeps_files m.
Proof. intros H w. now rewrite H. Qed.

Lemma keeps_files_bind {A B} (m : M A) (k : A -> M B) :
  keeps_files m -> (forall a, keeps_files (k a)) -> keeps_files (bind m k).
Proof.
  intros Hm Hk w. unfold bind. specialize (Hm w).
  destruct (m w) as [[a|e] w1]; simpl in *; [|exact Hm].
  etransitivity; [exact Hm | apply Hk].
Qed.

Lemma keeps_files_try {A} (m : M A) (h : exn -> M A) :
  keeps_files m -> (forall e, keeps_files (h e)) ->
  keeps_files (try_except m h).
Proof.
  intros Hm Hh w. unfold try_except. specialize (Hm w).
  destruct (m w) as [[a|e] w1]; simpl in *; [exact Hm|].
  destruct (is_exception e); [|exact Hm].
  etransitivity; [exact Hm | apply Hh].
Qed.

Lemma keeps_files_mapM {A B} (f : A -> M B) l :
  Forall (fun a => keeps_files (f a)) l -> keeps_files (mapM f l).
Proof.
  induction 1 as [|a l Ha _ IH].
  - apply keeps_files_same, keeps_ret.
  - simpl. apply keeps_files_bind; [exact Ha|]. intros b.
    apply keeps_files_bind; [exact IH|]. intros bs.
    apply keeps_files_same, keeps_ret.
Qed.

Ltac keeps_files_step :=
  first
    [ apply keeps_files_bind; [|intros ?]
    | apply keeps_files_try; [|intros ?]
    | apply keeps_files_same;
      first [apply keeps_ret | apply keeps_raise | apply keeps_lift]
    | match goal with
      | |- keeps_files (match ?x with _ => _ end) => destruct x
      end ].

Section PageMore.

Context {E : Env}.

Lemma keeps_files_print m : keeps_files (print m).
Proof. intros w. rewrite print_run. now destruct (print_error _). Qed.

Lemma keeps_files_makedirs d : keeps_files (makedirs d).
Proof.
  intros w. destruct (makedirs_run d w) as [[e H] | (w1 & H & Hfs & _)];
    rewrite H; simpl; [reflexivity|].
  rewrite Hfs. apply map_subseteq_spec. intros q x. apply with_dir_lookup.
Qed.

Lemma keeps_files_get u stream : keeps_files (requests_get u stream).
Proof.
  intros w. destruct (requests_get u stream w) as [r w'] eqn:H.
  apply requests_get_run in H as [Hfs _]. simpl. now rewrite Hfs.
Qed.

Lemma keeps_files_download u b f : keeps_files (download_image u b f).
Proof.
  intros w. apply map_subseteq_spec. intros q x. apply download_image_keeps.
Qed.

Lemma keeps_files_process_img b f md attrs :
  keeps_files (process_img b f md attrs).
Proof.
  unfold process_img, relative_to_md.
  repeat first [apply keeps_files_download | keeps_files_step].
Qed.

Lemma keeps_files_process_in b f md n :
  keeps_files (process_images_in b f md n).
Proof.
  induction n as [s | tag attrs children IH] using node_tree_ind.
  - apply keeps_files_same, keeps_ret.
  - cbn [process_images_in]. apply keeps_files_bind.
    + case_bool_decide; [apply keeps_files_process_img|].
      apply keeps_files_same, keeps_ret.
    + intros attrs'. apply keeps_files_bind; [now apply keeps_files_mapM|].
      intros children'. apply keeps_files_same, keeps_ret.
Qed.

Lemma keeps_files_process soup b f md :
  keeps_files (process_images soup b f md).
Proof.
  destruct soup as [s | tag attrs children]; simpl.
  - apply keeps_files_same, keeps_ret.
  - apply keeps_files_bind.
    + apply keeps_files_mapM. apply List.Forall_forall. intros c _.
      apply keeps_files_process_in.
    + intros children'. apply keeps_files_same, keeps_ret.
Qed.

Lemma keeps_files_sub_images repl :
  (forall m, keeps_files (repl m)) ->
  forall s skip, keeps_files (sub_images repl skip s).
Proof.
  intros Hrepl. induction s as [|c r IH]; intros skip.
  - apply keeps_files_same, keeps_ret.
  - destruct skip as [|k]; [|apply IH]. cbn [sub_images].
    destruct (match_image (c :: r)) as [m|].
    + apply keeps_files_bind; [apply Hrepl|]. intros new.
      apply keeps_files_bind; [apply IH|]. intros out.
      apply keeps_files_same, keeps_ret.
    + apply keeps_files_bind; [apply IH|]. intros out.
      apply keeps_files_same, keeps_ret.
Qed.

Lemma keeps_files_replace text b f md :
  keeps_files (replace_md_image_urls text b f md).
Proof.
  unfold replace_md_image_urls. apply keeps_files_sub_images.
  intros m. unfold replace_url, relative_to_md.
  repeat first [apply keeps_files_download | keeps_files_step].
Qed.

(** X18. A run of [fetch_and_convert_to_markdown] never deletes,
    overwrites or truncates: whatever it fetches and however it ends,
    every file and directory that was on the disk before is there after,
    with the same content. *)
Theorem fetch_and_convert_keeps_files (url save_dir : pystr)
  (img_folder : option pystr) (w : World) :
  fs w ⊆ fs (snd (fetch_and_convert_to_markdown url save_dir img_folder w)).
Proof.
  revert w. change (keeps_files
    (fetch_and_convert_to_markdown url save_dir img_folder)).
  unfold fetch_and_convert_to_markdown, prepare_folders, fetch_page,
    convert_page, page_failed.
  repeat first [apply keeps_files_makedirs | apply keeps_files_get
               | apply keeps_files_print | apply keeps_files_process
               | apply keeps_files_replace | keeps_files_step].
Qed.

(** X19. The result of [fetch_and_convert_to_markdown] has one of three
    shapes: [(None, None, None)], [(None, "Error_Page", None)], or a
    document with its title and its path, where the document is a heading
    with the title, an empty line, and the body.  The function raises in
    two cases only: the exception is not an [Exception], or it is raised
    by the print of the handler of the function. *)
Theorem fetch_and_convert_result_shape (url save_dir : pystr)
  (img_folder : option pystr) (w : World) :
  let run := fetch_and_convert_to_markdown url save_dir img_folder w in
  (forall r,
     fst run = Ok r ->
     r = (None, None, None)
     \/ r = (None, Some (str "Error_Page"), None)
     \/ exists title body path,
          r = (Some (str "# " ++ title ++ [PyStr.LF; PyStr.LF] ++ body),
               Some title, Some path))
  /\ (forall e,
        fst run = Raise e ->
        is_exception e = false
        \/ exists s,
             print_error (msg_text (MsgPageError (Exception s))) = Some e).
Proof.
  cbv zeta. unfold fetch_and_convert_to_markdown, try_except.
  destruct (bind (prepare_folders save_dir img_folder)
              (fun folder => fetch_page url save_dir folder) w)
    as [[r|e] w'] eqn:Hrun.
  - split; [|discriminate]. intros r' Hr. injection Hr as <-.
    apply bind_inv_ok in Hrun as (folder & w0 & _ & Hrun).
    unfold fetch_page in Hrun.
    apply bind_inv_ok in Hrun as (resp & w1 & _ & Hrun).
    destruct (negb (status_code resp =? 200)%Z).
    + apply bind_inv_ok in Hrun as ([] & w2 & _ & Hrun).
      injection Hrun as <- _. auto.
    + apply convert_page_inv in Hrun
        as (soup & _ & _ & _ & out & _ & _ & _ & _ & ->).
      right. right. eauto.
  - rewrite page_failed_run. destruct e as [s|s]; simpl.
    + destruct (print_error (msg_text (MsgPageError (Exception s))))
        as [e'|] eqn:Hprint; simpl.
      * split; [discriminate|]. intros e0 He0. injection He0 as <-. eauto.
      * split; [|discriminate]. intros r Hr. injection Hr as <-. auto.
    + split; [discriminate|]. intros e0 He0. injection He0 as <-. auto.
Qed.

(** X20. The result [(None, None, None)] means that the page was
    requested and nothing else was done: the request for the page is the
    only one of the run, [download_image] was not called, and no file was
    written. *)
Theorem fetch_failure_is_quiet (url save_dir : pystr)
  (img_folder : option pystr) (w : World) :
  fst (fetch_and_convert_to_markdown url save_dir img_folder w)
  = Ok (None, None, None) ->
  let w' := snd (fetch_and_convert_to_markdown url save_dir img_folder w) in
  requests w' = requests w ++ [url]
  /\ calls w' = calls w
  /\ (forall q content,
        fs w' !! q = Some (File content) -> fs w !! q = Some (File content)).
Proof.
  unfold fetch_and_convert_to_markdown, try_except.
  destruct (bind (prepare_folders save_dir img_folder)
              (fun folder => fetch_page url save_dir folder) w)
    as [[r|e] w'] eqn:Hrun.
  2: { destruct (if is_exception e then page_failed e w' else (Raise e, w'))
         as [res w3] eqn:Hh.
       simpl. intros ->. apply page_failed_result in Hh. discriminate. }
  simpl. intros H. injection H as ->.
  apply bind_inv_ok in Hrun as (folder & w0 & Hprep & Hrun).
  unfold fetch_page in Hrun.
  apply bind_inv_ok in Hrun as (resp & w1 & Hget & Hrun).
  destruct (negb (status_code resp =? 200)%Z).
  - apply bind_inv_ok in Hrun as ([] & w2 & Hprint & Hrun).
    injection Hrun as <-.
    rewrite print_run in Hprint.
    destruct (print_error _); [discriminate|]. injection Hprint as <-.
    simpl.
    pose proof (keeps_calls_prepare save_dir img_folder w) as Hc.
    rewrite Hprep in Hc. simpl in Hc.
    apply requests_get_run in Hget as (Hfs & Hreq & _ & Hcalls).
    unfold prepare_folders in Hprep.
    apply bind_inv_ok in Hprep as ([] & wa & Hm1 & Hprep).
    apply bind_inv_ok in Hprep as ([] & wb & Hm2 & Hprep).
    injection Hprep as _ <-.
    destruct (makedirs_run save_dir w)
      as [[e H1] | (wa' & H1 & Hfa & Hra & _)];
      rewrite H1 in Hm1; [discriminate|]. injection Hm1 as <-.
    destruct (makedirs_run (match img_folder with
                            | Some f => f
                            | None => path_join save_dir (str "images")
                            end) wa')
      as [[e H2] | (wb' & H2 & Hfb & Hrb & _)];
      rewrite H2 in Hm2; [discriminate|]. injection Hm2 as <-.
    repeat split; try congruence.
    intros q content. rewrite Hfs, Hfb, Hfa.
    intros Hq. now apply with_dir_files, with_dir_files in Hq.
  - apply convert_page_inv in Hrun
      as (soup & _ & _ & _ & out & _ & _ & _ & _ & Hr).
    discriminate.
Qed.

(** X21. When a folder cannot be made, nothing is requested: the
    exception of [os.makedirs] goes to the handler of the function, the
    log of requests stays as it was, and the run ends with
    [(None, "Error_Page", None)] once the handler has printed its line.
    The exception leaves the function when it is not an [Exception], and
    the exception of the print of the handler does when that line cannot
    be printed. *)
Theorem fetch_and_convert_without_folder (url save_dir : pystr)
  (img_folder : option pystr) (w : World) (e : exn) :
  fst (prepare_folders save_dir img_folder w) = Raise e ->
  let run := fetch_and_convert_to_markdown url save_dir img_folder w in
  requests (snd run) = requests w
  /\ fst run
     = (if is_exception e then
          match print_error (msg_text (MsgPageError e)) with
          | Some e' => Raise e'
          | None => Ok (None, Some (str "Error_Page"), None)
          end
        else Raise e).
Proof.
  intros Hprep. cbv zeta.
  assert (Hreq : requests (snd (prepare_folders save_dir img_folder w))
                 = requests w).
  { unfold prepare_folders, bind.
    destruct (makedirs_run save_dir w)
      as [[e1 H1] | (wa & H1 & _ & Hra & _)];
      rewrite H1; [reflexivity|].
    destruct (makedirs_run (match img_folder with
                            | Some f => f
                            | None => path_join save_dir (str "images")
                            end) wa)
      as [[e2 H2] | (wb & H2 & _ & Hrb & _)]; rewrite H2; simpl; congruence. }
  unfold fetch_and_convert_to_markdown, try_except. unfold bind.
  destruct (prepare_folders save_dir img_folder w) as [[folder|e'] w0];
    simpl in *; [discriminate|].
  injection Hprep as ->. rewrite page_failed_run.
  destruct (is_exception e); [|auto].
  destruct (print_error (msg_text (MsgPageError e))); auto.
Qed.

(** X22. The name of the Markdown file always starts with the sanitized
    title: the fallback [untitled_page] of the function is never used,
    because a sanitized title is never empty. *)
Theorem md_path_of_sanitized (save_dir title : pystr) :
  md_path_of save_dir title
  = path_join save_dir
      (sanitize_filename (Some title) ++ str "_" ++ strftime_now
       ++ str ".md").
Proof.
  unfold md_path_of.
  destruct (sanitize_filename (Some title)) as [|c r] eqn:Hs; [|reflexivity].
  exfalso. unfold sanitize_filename in Hs.
  destruct (sanitize_steps title); discriminate.
Qed.

End PageMore.

(** [fetch_failure_is_quiet] on the server that answers 404. *)
Lemma fetch_failure_is_quiet_witness :
  fst (fetch_and_convert_to_markdown (E := missing_env) page_url (str "out")
         None empty_world)
  = Ok (None, None, None)
  /\ requests (snd (fetch_and_convert_to_markdown (E := missing_env)
                      page_url (str "out") None empty_world))
     = [page_url].
Proof.
  assert (H : fst (fetch_and_convert_to_markdown (E := missing_env) page_url
                     (str "out") None empty_world)
              = Ok (None, None, None)) by (vm_compute; reflexivity).
  split; [exact H|].
  exact (proj1 (fetch_failure_is_quiet (E := missing_env) _ _ _ _ H)).
Defined.

(** [fetch_and_convert_without_folder] on an empty directory name, which
    [os.makedirs] refuses. *)
Lemma fetch_and_convert_without_folder_witness :
  fst (prepare_folders (E := hello_env) [] None empty_world)
  = Raise (Exception (str "FileNotFoundError"))
  /\ fst (fetch_and_convert_to_markdown (E := hello_env) page_url [] None
           empty_world)
     = Ok (None, Some (str "Error_Page"), None)
  /\ requests (snd (fetch_and_convert_to_markdown (E := hello_env) page_url
                      [] None empty_world))
     = [].
Proof.
  assert (H : fst (prepare_folders (E := hello_env) [] None empty_world)
              = Raise (Exception (str "FileNotFoundError")))
    by (vm_compute; reflexivity).
  split; [exact H|].
  destruct (fetch_and_convert_without_folder (E := hello_env) page_url [] None
              empty_world _ H) as [Hreq Hres].
  split; [exact Hres | exact Hreq].
Defined.
